(** * Mesh topology closure of DOLFIN: [TopologyComputation.cpp]

    A shallow embedding of [dolfin::TopologyComputation] (entity synthesis,
    transpose, intersection, the strategist [compute_connectivity] and the
    counting pass [count_entities]) and the properties of the mesh-topology
    specification that rest on it, followed by further properties of the
    code.

    The mesh is threaded explicitly through every operation.  A fatal
    [dolfin_error] or a failed [dolfin_assert] stops the computation and
    hands back the mesh as it was at that moment; the mutual recursion of
    [compute_connectivity] and [compute_entities] is driven by a fuel
    argument that bounds the nesting depth of calls. *)

From Stdlib Require Import List Arith Lia Bool Sorting.Sorted Sorting.Permutation.
Import ListNotations.

Set Implicit Arguments.

(** ** Vectors updated by index *)

(** [v[i] = f (v[i])].  An index past the end leaves the vector as it is:
    the source indexes its vectors without a check, by indices that a
    well-formed mesh keeps within the bounds. *)
Fixpoint list_alter {A : Type} (f : A -> A) (i : nat) (l : list A) : list A :=
  match l, i with
  | [], _ => []
  | x :: r, 0 => f x :: r
  | x :: r, S j => x :: list_alter f j r
  end.

(** [v[i].push_back(x)] *)
Definition push_back_at {A : Type} (i : nat) (x : A) (v : list (list A)) : list (list A) :=
  list_alter (fun r => r ++ [x]) i v.

(** [v[i]++] *)
Definition incr_at (i : nat) (v : list nat) : list nat := list_alter S i v.

(** ** [std::sort] on a vector of vertex indices, and vector equality *)

(** [std::sort(v.begin(), v.end())] leaves the one ascending rearrangement of
    [v]; it is computed here by insertion. *)
Fixpoint insert_sorted (x : nat) (l : list nat) : list nat :=
  match l with
  | [] => [x]
  | y :: r => if x <=? y then x :: l else y :: insert_sorted x r
  end.

Fixpoint std_sort (l : list nat) : list nat :=
  match l with
  | [] => []
  | x :: r => insert_sorted x (std_sort r)
  end.

(** [operator==] of [std::vector<uint>] *)
Definition vec_eqb (a b : list nat) : bool :=
  if list_eq_dec Nat.eq_dec a b then true else false.

(** [std::find(v.begin(), v.end(), x) != v.end()] *)
Definition std_find (x : nat) (v : list nat) : bool := existsb (Nat.eqb x) v.

(** ** The incidence store *)

Module MeshConnectivity.

(** Modelled from the spec: the class [MeshConnectivity] (MeshConnectivity.h
    is not part of the sources at hand).  The spec describes a CSR store, an
    [offsets] array and a flat [values] array; the store is represented here
    by the ragged table it lays out, row [i] being
    [values[offsets[i] .. offsets[i+1]]]. *)
Definition t : Type := list (list nat).

(** Modelled from the spec: a store that was never set is "absent", which is
    the store without rows. *)
Definition absent : t := [].

(** Modelled from the spec: [size() -> N_d0], the number of source
    entities of the store. *)
Definition size (c : t) : nat := length c.

(** Modelled from the spec: [row(i) -> slice]. *)
Definition row (c : t) (i : nat) : list nat := nth i c [].

(** Modelled from the spec: [init_from_sizes(sizes)], rows of the given
    sizes whose values are still to be written (shown as 0). *)
Definition init (sizes : list nat) : t := map (repeat 0) sizes.

(** Modelled from the spec: [set(i, j, pos)] writes
    [values[offsets[i] + pos] = j]. *)
Definition set_entry (c : t) (i j pos : nat) : t :=
  list_alter (list_alter (fun _ => j) pos) i c.

(** Modelled from the spec: [init_from_ragged(rows)]. *)
Definition set (rows : list (list nat)) : t := rows.

End MeshConnectivity.

(** ** The cell-shape oracle *)

Module CellType.

(** Modelled from the spec: the interface of [CellType] that entity
    synthesis consumes (CellType.h is not part of the sources at hand).
    [create_entities dim vertices] is the table of the [num_entities dim]
    vertex tuples, each of [num_vertices dim] vertices, of the entities of
    dimension [dim] of a cell with the given vertices, in the canonical
    local order; the source has it overwrite a scratch table. *)
Record t : Type := {
  num_entities : nat -> nat;
  num_vertices : nat -> nat;
  create_entities : nat -> list nat -> list (list nat)
}.

End CellType.

(** ** The topology table and the mesh *)

Module MeshTopology.

(** Modelled from the spec: the topology table (MeshTopology.h is not
    part of the sources at hand): the dimension [D], the entity counts
    [size(d)] (0 when unknown) and the matrix of incidence stores. *)
Record t : Type := {
  dim : nat;
  size : nat -> nat;
  connectivity : nat -> nat -> MeshConnectivity.t
}.

(** Modelled from the spec: [topology.init(d, n)] records the entity count
    of dimension [d]. *)
Definition init (top : t) (d n : nat) : t :=
  {| dim := dim top;
     size := fun d' => if d' =? d then n else size top d';
     connectivity := connectivity top |}.

(** Modelled from the spec: the update in place of the store of the
    incidence [(d0, d1)], which the source reaches through a reference
    [topology(d0, d1)]. *)
Definition set_connectivity (top : t) (d0 d1 : nat) (c : MeshConnectivity.t) : t :=
  {| dim := dim top;
     size := size top;
     connectivity := fun a b =>
       if (a =? d0) && (b =? d1) then c else connectivity top a b |}.

End MeshTopology.

(** Modelled from the spec: of the class [Mesh] (Mesh.h is not part of the
    sources at hand) the topology and the cell type. *)
Record Mesh : Type := {
  topology : MeshTopology.t;
  type : CellType.t
}.

Definition with_topology (mesh : Mesh) (top : MeshTopology.t) : Mesh :=
  {| topology := top; type := type mesh |}.

(** Modelled from the spec: [mesh.topology().dim()], the dimension [D]. *)
Definition tdim (mesh : Mesh) : nat := MeshTopology.dim (topology mesh).

(** Modelled from the spec: [mesh.topology().size(d)], the count [N_d], or 0
    when it is unknown. *)
Definition tsize (mesh : Mesh) (d : nat) : nat := MeshTopology.size (topology mesh) d.

(** Modelled from the spec: [mesh.topology()(d0, d1)], the store of the
    incidence [(d0, d1)], without rows while the incidence is absent. *)
Definition conn (mesh : Mesh) (d0 d1 : nat) : MeshConnectivity.t :=
  MeshTopology.connectivity (topology mesh) d0 d1.

(** Modelled from the spec: [mesh.num_cells()] is the entity count of the
    top dimension. *)
Definition num_cells (mesh : Mesh) : nat := tsize mesh (tdim mesh).

(** Modelled from the spec: [MeshEntityIterator e(mesh, d)] runs over all of
    [[0, N_d)]. *)
Definition mesh_entities (mesh : Mesh) (d : nat) : list nat := seq 0 (tsize mesh d).

(** Modelled from the spec: [MeshEntityIterator e1(e0, d1)], for [e0] of
    dimension [d0], yields the row of [e0] in the incidence [(d0, d1)] in the
    order of the store.  Everywhere the source builds such an iterator the
    incidence has been asserted or ensured to be present, so the lazy
    computation of an absent incidence never starts. *)
Definition incident (mesh : Mesh) (d0 e0 d1 : nat) : list nat :=
  MeshConnectivity.row (conn mesh d0 d1) e0.

(** Modelled from the spec: [e.entities(0)] with [e.num_entities(0)], the
    vertices of entity [e] of dimension [d], is the row of [e] in the
    incidence [(d, 0)] (MeshEntity.h is not part of the sources at hand). *)
Definition entity_vertices (mesh : Mesh) (d e : nat) : list nat :=
  MeshConnectivity.row (conn mesh d 0) e.

Definition set_conn (mesh : Mesh) (d0 d1 : nat) (c : MeshConnectivity.t) : Mesh :=
  with_topology mesh (MeshTopology.set_connectivity (topology mesh) d0 d1 c).

Definition init_size (mesh : Mesh) (d n : nat) : Mesh :=
  with_topology mesh (MeshTopology.init (topology mesh) d n).

(** ** Outcomes of a topology computation *)

(** Modelled from the spec: [dolfin_error] and a failed assertion abort the
    request; the messages are those of the source. *)
Inductive fatal : Type :=
| EntitiesWithoutConnectivity (dim : nat)
    (* "Entities of topological dimension %d exist but connectivity is missing" *)
| ConnectivityWithoutEntities (dim : nat)
    (* "Connectivity for topological dimension %d exists but entities are missing" *)
| AssertionFailed.
    (* a [dolfin_assert] that does not hold *)

(** A call returns a value and the mesh it leaves, or stops with a fatal
    error at the mesh reached so far, or has not returned within the call
    depth allowed by the fuel. *)
Inductive outcome (A : Type) : Type :=
| Done (a : A) (mesh : Mesh)
| Fatal (e : fatal) (mesh : Mesh)
| OutOfFuel.

Arguments Done {A} a mesh.
Arguments Fatal {A} e mesh.
Arguments OutOfFuel {A}.

Definition bind {A B : Type} (r : outcome A) (k : A -> Mesh -> outcome B) : outcome B :=
  match r with
  | Done a mesh => k a mesh
  | Fatal e mesh => Fatal e mesh
  | OutOfFuel => OutOfFuel
  end.

(** Modelled from the spec: [dolfin_assert(b)]; a prerequisite that does not
    hold is fatal (the macro is not part of the sources at hand). *)
Definition dolfin_assert (b : bool) (mesh : Mesh) : outcome unit :=
  if b then Done tt mesh else Fatal AssertionFailed mesh.

Definition returned {A : Type} (r : outcome A) : Prop :=
  match r with OutOfFuel => False | _ => True end.

(** ** [TopologyComputation::contains] *)

(** Every vertex of [v1] is found among [v0]. *)
Definition contains (v0 v1 : list nat) : bool :=
  forallb (fun x1 => existsb (fun x0 => x0 =? x1) v0) v1.

(** [contains(MeshEntity& e0, MeshEntity& e1)] for [e0] of dimension [d0] and
    [e1] of dimension [d1]. *)
Definition contains_entity (mesh : Mesh) (d0 e0 d1 e1 : nat) : bool :=
  contains (entity_vertices mesh d0 e0) (entity_vertices mesh d1 e1).

(** ** [TopologyComputation::compute_from_transpose] *)

(** First pass: [tmp[e0->index()]++] for every [e0] in the row of every
    [e1]. *)
Definition count_connections (mesh : Mesh) (d0 d1 : nat) (tmp : list nat) : list nat :=
  fold_left
    (fun tmp e1 => fold_left (fun tmp e0 => incr_at e0 tmp) (incident mesh d1 e1 d0) tmp)
    (mesh_entities mesh d1) tmp.

(** Second pass: [connectivity.set(e0, e1, tmp[e0]++)]. *)
Definition add_connection (e1 : nat) (s : MeshConnectivity.t * list nat) (e0 : nat)
  : MeshConnectivity.t * list nat :=
  (MeshConnectivity.set_entry (fst s) e0 e1 (nth e0 (snd s) 0), incr_at e0 (snd s)).

Definition add_connections (mesh : Mesh) (d0 d1 : nat)
    (s : MeshConnectivity.t * list nat) : MeshConnectivity.t * list nat :=
  fold_left
    (fun s e1 => fold_left (add_connection e1) (incident mesh d1 e1 d0) s)
    (mesh_entities mesh d1) s.

(** The incidence [(d1, d0)] is read from the mesh as it is on entry: the
    source calls the function with [d0 < d1] only, so the store it fills is
    not the one it iterates over. *)
Definition transpose_rows (mesh : Mesh) (d0 d1 : nat) : MeshConnectivity.t :=
  let tmp := repeat 0 (tsize mesh d0) in
  let tmp := count_connections mesh d0 d1 tmp in
  let connectivity := MeshConnectivity.init tmp in
  let tmp := repeat 0 (length tmp) in
  fst (add_connections mesh d0 d1 (connectivity, tmp)).

Definition compute_from_transpose (mesh : Mesh) (d0 d1 : nat) : outcome unit :=
  bind (dolfin_assert (0 <? MeshConnectivity.size (conn mesh d1 d0)) mesh) (fun _ mesh =>
  Done tt (set_conn mesh d0 d1 (transpose_rows mesh d0 d1))).

(** ** [TopologyComputation::compute_from_intersection] *)

(** The body of the innermost loop: [entities] is the row collected so far
    for [e0], [e1] the candidate. *)
Definition collect (mesh : Mesh) (d0 d1 e0 : nat) (entities : list nat) (e1 : nat) : list nat :=
  if d0 =? d1 then
    if negb (e0 =? e1) && negb (std_find e1 entities)
    then entities ++ [e1] else entities
  else
    if contains_entity mesh d0 e0 d1 e1 && negb (std_find e1 entities)
    then entities ++ [e1] else entities.

(** The candidates of [e0] in the order of the composition walk through the
    intermediate dimension [d]. *)
Definition candidates (mesh : Mesh) (d0 d1 d e0 : nat) : list nat :=
  flat_map (fun e => incident mesh d e d1) (incident mesh d0 e0 d).

(** The two inner loops, run on the row [entities] of [e0]. *)
Definition collect_row (mesh : Mesh) (d0 d1 d e0 : nat) (entities : list nat) : list nat :=
  fold_left
    (fun entities e => fold_left (collect mesh d0 d1 e0) (incident mesh d e d1) entities)
    (incident mesh d0 e0 d) entities.

(** The outer loop over [e0]; [max_size] only sizes a reservation and is left
    out. *)
Definition intersection_rows (mesh : Mesh) (d0 d1 d : nat) : MeshConnectivity.t :=
  fold_left
    (fun connectivity e0 => list_alter (collect_row mesh d0 d1 d e0) e0 connectivity)
    (mesh_entities mesh d0) (repeat [] (tsize mesh d0)).

Definition compute_from_intersection (mesh : Mesh) (d0 d1 d : nat) : outcome unit :=
  bind (dolfin_assert (d1 <=? d0) mesh) (fun _ mesh =>
  bind (dolfin_assert (0 <? MeshConnectivity.size (conn mesh d0 d)) mesh) (fun _ mesh =>
  bind (dolfin_assert (0 <? MeshConnectivity.size (conn mesh d d1)) mesh) (fun _ mesh =>
  Done tt (set_conn mesh d0 d1 (MeshConnectivity.set (intersection_rows mesh d0 d1 d)))))).

(** ** [TopologyComputation::compute_entities]: the loops *)

(** The local variables of the cell loop. *)
Record synthesis : Type := {
  current_entity : nat;
  ce_list : list (list (nat * list nat));
  connectivity_ce : list (list nat);
  connectivity_ev : list (list nat)
}.

(** The scan of [c0_list] for a pair whose vertex list equals [entity]. *)
Fixpoint find_other_entity (c0_list : list (nat * list nat)) (entity : list nat) : option nat :=
  match c0_list with
  | [] => None
  | other_entity :: rest =>
      if vec_eqb (snd other_entity) entity then Some (fst other_entity)
      else find_other_entity rest entity
  end.

(** The loop over the cells [c0] connected to cell [c], of which only those
    visited before [c] are looked at. *)
Fixpoint find_entity (ce_list : list (list (nat * list nat))) (c : nat)
    (cells : list nat) (entity : list nat) : option nat :=
  match cells with
  | [] => None
  | c0 :: rest =>
      if c <=? c0 then find_entity ce_list c rest entity
      else match find_other_entity (nth c0 ce_list []) entity with
           | Some e => Some e
           | None => find_entity ce_list c rest entity
           end
  end.

(** The body of the loop over the entities of cell [c]; [cells] are the
    cells connected to [c]. *)
Definition visit_entity (c : nat) (cells : list nat) (s : synthesis) (entity : list nat)
  : synthesis :=
  let entity := std_sort entity in
  match find_entity (ce_list s) c cells entity with
  | Some e =>
      {| current_entity := current_entity s;
         ce_list := ce_list s;
         connectivity_ce := push_back_at c e (connectivity_ce s);
         connectivity_ev := connectivity_ev s |}
  | None =>
      {| current_entity := S (current_entity s);
         ce_list := push_back_at c (current_entity s, entity) (ce_list s);
         connectivity_ce := push_back_at c (current_entity s) (connectivity_ce s);
         connectivity_ev := connectivity_ev s ++ [entity] |}
  end.

(** The entities of dimension [dim] of cell [c], as [create_entities] writes
    them from the vertices of the cell. *)
Definition cell_entities (mesh : Mesh) (dim c : nat) : list (list nat) :=
  CellType.create_entities (type mesh) dim (entity_vertices mesh (tdim mesh) c).

(** The body of the loop over the cells. *)
Definition visit_cell (mesh : Mesh) (dim : nat) (s : synthesis) (c : nat) : synthesis :=
  fold_left (visit_entity c (incident mesh (tdim mesh) c (tdim mesh)))
            (cell_entities mesh dim c) s.

Definition synthesis_start (mesh : Mesh) : synthesis :=
  {| current_entity := 0;
     ce_list := repeat [] (num_cells mesh);
     connectivity_ce := repeat [] (num_cells mesh);
     connectivity_ev := [] |}.

Definition synthesize (mesh : Mesh) (dim : nat) : synthesis :=
  fold_left (visit_cell mesh dim) (mesh_entities mesh (tdim mesh)) (synthesis_start mesh).

(** The three final statements: [topology.init], [ce.set], [ev.set]. *)
Definition store_entities (mesh : Mesh) (dim : nat) (s : synthesis) : Mesh :=
  let mesh := init_size mesh dim (length (connectivity_ev s)) in
  let mesh := set_conn mesh (tdim mesh) dim (MeshConnectivity.set (connectivity_ce s)) in
  set_conn mesh dim 0 (MeshConnectivity.set (connectivity_ev s)).

(** ** The mutual recursion *)

(** [compute_entities], with the call of [compute_connectivity] it makes
    passed in. *)
Definition compute_entities_body
    (compute_connectivity : Mesh -> nat -> nat -> outcome unit)
    (mesh : Mesh) (dim : nat) : outcome nat :=
  let ce := conn mesh (tdim mesh) dim in
  let ev := conn mesh dim 0 in
  if 0 <? tsize mesh dim then
    if ((MeshConnectivity.size ce =? 0) && negb (dim =? tdim mesh))
       || ((MeshConnectivity.size ev =? 0) && negb (dim =? 0))
    then Fatal (EntitiesWithoutConnectivity dim) mesh
    else Done (tsize mesh dim) mesh
  else if (0 <? MeshConnectivity.size ce) || (0 <? MeshConnectivity.size ev)
  then Fatal (ConnectivityWithoutEntities dim) mesh
  else
    bind (compute_connectivity mesh (tdim mesh) (tdim mesh)) (fun _ mesh =>
    let s := synthesize mesh dim in
    Done (length (connectivity_ev s)) (store_entities mesh dim s)).

(** The intermediate dimension of an intersection. *)
Definition intermediate (mesh : Mesh) (d0 d1 : nat) : nat :=
  if (d0 =? 0) && (d1 =? 0) then tdim mesh else 0.

(** [if (topology.size(d) == 0) compute_entities(mesh, d);] *)
Definition ensure_entities
    (compute_entities : Mesh -> nat -> outcome nat)
    (mesh : Mesh) (d : nat) : outcome unit :=
  if tsize mesh d =? 0
  then bind (compute_entities mesh d) (fun _ mesh => Done tt mesh)
  else Done tt mesh.

(** The part of [compute_connectivity] after the last early return. *)
Definition dispatch
    (compute_connectivity : Mesh -> nat -> nat -> outcome unit)
    (mesh : Mesh) (d0 d1 : nat) : outcome unit :=
  if d0 <? d1 then
    bind (compute_connectivity mesh d1 d0) (fun _ mesh =>
    compute_from_transpose mesh d0 d1)
  else
    bind (dolfin_assert (negb ((0 <? d0) && (d1 =? 0))) mesh) (fun _ mesh =>
    let d := intermediate mesh d0 d1 in
    bind (compute_connectivity mesh d0 d) (fun _ mesh =>
    bind (compute_connectivity mesh d d1) (fun _ mesh =>
    compute_from_intersection mesh d0 d1 d))).

(** [compute_connectivity], with the calls it makes passed in. *)
Definition compute_connectivity_body
    (compute_entities : Mesh -> nat -> outcome nat)
    (compute_connectivity : Mesh -> nat -> nat -> outcome unit)
    (mesh : Mesh) (d0 d1 : nat) : outcome unit :=
  if 0 <? MeshConnectivity.size (conn mesh d0 d1) then Done tt mesh
  else
    bind (ensure_entities compute_entities mesh d0) (fun _ mesh =>
    bind (ensure_entities compute_entities mesh d1) (fun _ mesh =>
    if (tsize mesh d0 =? 0) && (tsize mesh d1 =? 0) then Done tt mesh
    else if 0 <? MeshConnectivity.size (conn mesh d0 d1) then Done tt mesh
    else dispatch compute_connectivity mesh d0 d1)).

(** [fuel] bounds the depth of nested calls. *)
Fixpoint compute_connectivity (fuel : nat) (mesh : Mesh) (d0 d1 : nat) {struct fuel}
  : outcome unit :=
  match fuel with
  | 0 => OutOfFuel
  | S fuel =>
      compute_connectivity_body (compute_entities fuel) (compute_connectivity fuel)
                                mesh d0 d1
  end
with compute_entities (fuel : nat) (mesh : Mesh) (dim : nat) {struct fuel}
  : outcome nat :=
  match fuel with
  | 0 => OutOfFuel
  | S fuel => compute_entities_body (compute_connectivity fuel) mesh dim
  end.

(** ** [TopologyComputation::count_entities] *)

(** The loop over the cells [c] connected to the cell with index
    [cell_index], with its [continue] for the cells not visited before and
    its [goto found]: is [entity] contained in the vertices of a connected
    cell visited before?  The test is [contains(c->entities(0),
    c->num_entities(0), &entities[i][0], entities[i].size())], on the
    vertices of the cell [c]; the two arrays that [contains] asserts to be
    given are a row of the store and the vector of a tuple. *)
Fixpoint found_in_visited_cell (mesh : Mesh) (cell_index : nat) (cells : list nat)
    (entity : list nat) : bool :=
  match cells with
  | [] => false
  | c :: rest =>
      if cell_index <=? c then found_in_visited_cell mesh cell_index rest entity
      else if contains (entity_vertices mesh (tdim mesh) c) entity then true
      else found_in_visited_cell mesh cell_index rest entity
  end.

(** The loop over [entities]: [num_entities++] for every entity that is not
    found. *)
Definition count_new_entities (mesh : Mesh) (cell_dim cell_index : nat)
    (entities : list (list nat)) (num_entities : nat) : nat :=
  fold_left
    (fun num_entities entity =>
       if found_in_visited_cell mesh cell_index
            (incident mesh cell_dim cell_index (tdim mesh)) entity
       then num_entities else S num_entities)
    entities num_entities.

(** [count_entities(mesh, cell, entities, dim)], for the entity [cell] of
    dimension [cell_dim] and index [cell_index]; the source does not use
    [dim]. *)
Definition count_entities (mesh : Mesh) (cell_dim cell_index : nat)
    (entities : list (list nat)) (dim : nat) : outcome nat :=
  bind (dolfin_assert (cell_dim =? tdim mesh) mesh) (fun _ mesh =>
  Done (count_new_entities mesh cell_dim cell_index entities 0) mesh).

(** ** Example meshes *)

(** Modelled from the spec: the cell-shape tables of the triangle
    (TriangleCell is not part of the sources at hand): three vertices, three
    edges of two vertices, local edge [k] opposite local vertex [k], and the
    cell itself. *)
Definition triangle : CellType.t :=
  {| CellType.num_entities := fun d => match d with 0 => 3 | 1 => 3 | 2 => 1 | _ => 0 end;
     CellType.num_vertices := fun d => match d with 0 => 1 | 1 => 2 | 2 => 3 | _ => 0 end;
     CellType.create_entities := fun d v =>
       match d with
       | 1 => [ [nth 1 v 0; nth 2 v 0]; [nth 0 v 0; nth 2 v 0]; [nth 0 v 0; nth 1 v 0] ]
       | _ => []
       end |}.

(** A mesh as it is after construction: the vertices, the cells and the
    incidence [(D, 0)]. *)
Definition build_mesh (T : CellType.t) (D num_vertices : nat) (cells : list (list nat)) : Mesh :=
  {| topology :=
       {| MeshTopology.dim := D;
          MeshTopology.size := fun d =>
            if d =? 0 then num_vertices else if d =? D then length cells else 0;
          MeshTopology.connectivity := fun a b =>
            if (a =? D) && (b =? 0) then cells else MeshConnectivity.absent |};
     type := T |}.

Definition one_triangle : Mesh := build_mesh triangle 2 3 [[0; 1; 2]].

Definition two_triangles : Mesh := build_mesh triangle 2 4 [[0; 1; 2]; [1; 3; 2]].

(** A mesh without cells. *)
Definition empty_mesh : Mesh := build_mesh triangle 2 0 [].

(** The mesh left by a call that returned, and the rows of one of its
    incidences. *)
Definition mesh_of {A : Type} (r : outcome A) (default : Mesh) : Mesh :=
  match r with
  | Done _ mesh => mesh
  | Fatal _ mesh => mesh
  | OutOfFuel => default
  end.

(** ** Predicates on meshes and on the state of the cell loop *)

(** The entities of dimension [d] exist together with the incidences that
    define them. *)
Definition entities_exist (mesh : Mesh) (d : nat) : Prop :=
  0 < tsize mesh d /\
  (d = tdim mesh \/ 0 < MeshConnectivity.size (conn mesh (tdim mesh) d)) /\
  (d = 0 \/ 0 < MeshConnectivity.size (conn mesh d 0)).

(** Slot [k] of cell [c'] has been visited when the loop stands at slot [j]
    of cell [c]. *)
Definition visited (c j c' k : nat) : Prop := c' < c \/ (c' = c /\ k < j).

(** The state of the cell loop of [compute_entities] when it stands at slot
    [j] of cell [c]. *)
Record synth_inv (mesh : Mesh) (dim : nat) (c j : nat) (s : synthesis) : Prop := {
  si_current : current_entity s = length (connectivity_ev s);
  si_len_ce : length (connectivity_ce s) = num_cells mesh;
  si_len_list : length (ce_list s) = num_cells mesh;
  si_rows_done : forall c', c' < c ->
    length (nth c' (connectivity_ce s) []) = length (cell_entities mesh dim c');
  si_row_cur : c < num_cells mesh -> length (nth c (connectivity_ce s) []) = j;
  si_rows_todo : forall c', c < c' ->
    nth c' (connectivity_ce s) [] = [] /\ nth c' (ce_list s) [] = [];
  si_slot : forall c' k, visited c j c' k -> k < length (cell_entities mesh dim c') ->
    nth k (nth c' (connectivity_ce s) []) 0 < length (connectivity_ev s) /\
    nth (nth k (nth c' (connectivity_ce s) []) 0) (connectivity_ev s) []
      = std_sort (nth k (cell_entities mesh dim c') []);
  si_list : forall c' e t, In (e, t) (nth c' (ce_list s) []) ->
    e < length (connectivity_ev s) /\ nth e (connectivity_ev s) [] = t /\
    exists k, visited c j c' k /\ k < length (cell_entities mesh dim c') /\
              t = std_sort (nth k (cell_entities mesh dim c') []);
  si_ev : forall e, e < length (connectivity_ev s) ->
    exists c', In (e, nth e (connectivity_ev s) []) (nth c' (ce_list s) []);
  si_sorted : Forall (StronglySorted le) (connectivity_ev s)
}.

(** ** Meshes after construction and after the first requests *)

(** The dimension of the topology and the cell type of two meshes agree. *)
Definition same_shape (m m' : Mesh) : Prop :=
  tdim m' = tdim m /\ type m' = type m.

(** The mesh has a vertex and a cell, and the incidence from cells to
    vertices is present. *)
Definition constructed (mesh : Mesh) : Prop :=
  0 < tsize mesh 0 /\ 0 < num_cells mesh /\
  0 < MeshConnectivity.size (conn mesh (tdim mesh) 0).

(** A step from [m] to [m'] keeps a constructed mesh constructed. *)
Definition keeps_constructed (m m' : Mesh) : Prop :=
  constructed m -> constructed m' /\ tdim m' = tdim m.

(** The mesh after the request for the incidence from vertices to cells. *)
Definition with_vertex_cells (mesh : Mesh) : Mesh :=
  if 0 <? MeshConnectivity.size (conn mesh 0 (tdim mesh)) then mesh
  else set_conn mesh 0 (tdim mesh) (transpose_rows mesh 0 (tdim mesh)).

(** The mesh after the request for the incidence from cells to cells. *)
Definition with_cell_cells (mesh : Mesh) : Mesh :=
  if 0 <? MeshConnectivity.size (conn mesh (tdim mesh) (tdim mesh)) then mesh
  else set_conn (with_vertex_cells mesh) (tdim mesh) (tdim mesh)
         (intersection_rows (with_vertex_cells mesh) (tdim mesh) (tdim mesh) 0).

(** ** Fuel *)

(** [r'] is the outcome [r] whenever [r] is the outcome of a call that
    returned. *)
Definition refines {A : Type} (r r' : outcome A) : Prop :=
  returned r -> r' = r.

(** Every request [(d0, d1)] with [d0, d1 <= D] returns for some bound on
    the depth of calls. *)
Definition always_returns (mesh : Mesh) : Prop :=
  forall d0 d1, d0 <= tdim mesh -> d1 <= tdim mesh ->
    exists fuel, returned (compute_connectivity fuel mesh d0 d1).

(** ** Transpose and intersection *)

(** The test that [collect] applies to a candidate before it looks the
    candidate up in the row. *)
Definition accepted_candidate (mesh : Mesh) (d0 d1 e0 e1 : nat) : bool :=
  if d0 =? d1 then negb (e0 =? e1) else contains_entity mesh d0 e0 d1 e1.

(** The pairs [(e1, e0)] in the order in which both passes of
    [compute_from_transpose] meet them. *)
Definition incidence_pairs (mesh : Mesh) (d0 d1 : nat) : list (nat * nat) :=
  flat_map (fun e1 => map (pair e1) (incident mesh d1 e1 d0)) (mesh_entities mesh d1).

(** The first components of the pairs whose second component is [e0]. *)
Definition sources_of (e0 : nat) (P : list (nat * nat)) : list nat :=
  map fst (filter (fun p => snd p =? e0) P).

(** The second pass of [compute_from_transpose]: row [e0] of the store holds
    [pre e0] followed by [k e0] entries still to be written, and the cursor
    of [e0] stands behind [pre e0]. *)
Definition fill_inv (n : nat) (pre : nat -> list nat) (k : nat -> nat)
    (s : MeshConnectivity.t * list nat) : Prop :=
  length (fst s) = n /\ length (snd s) = n /\
  forall e0, e0 < n ->
    nth e0 (fst s) [] = pre e0 ++ repeat 0 (k e0) /\ nth e0 (snd s) 0 = length (pre e0).

(** ** Well-formed cells and meshes *)

(** A vector of vertex indices holds no index twice. *)
Fixpoint nat_nodupb (l : list nat) : bool :=
  match l with
  | [] => true
  | x :: r => negb (std_find x r) && nat_nodupb r
  end.

(** A vector of tuples holds no tuple twice. *)
Fixpoint tuples_nodupb (l : list (list nat)) : bool :=
  match l with
  | [] => true
  | t :: r => negb (existsb (vec_eqb t) r) && tuples_nodupb r
  end.

(** A tuple is not empty, is made of vertices of the cell and holds no
    vertex twice. *)
Definition tuple_ok (vertices tuple : list nat) : bool :=
  negb (length tuple =? 0) && contains vertices tuple && nat_nodupb tuple.

(** The tuples of cell [c] are well formed and differ, once sorted, from
    slot to slot. *)
Definition cell_tuples_ok (mesh : Mesh) (dim c : nat) : bool :=
  forallb (tuple_ok (entity_vertices mesh (tdim mesh) c)) (cell_entities mesh dim c)
  && tuples_nodupb (map std_sort (cell_entities mesh dim c)).

Definition tuples_ok (mesh : Mesh) (dim : nat) : bool :=
  forallb (cell_tuples_ok mesh dim) (mesh_entities mesh (tdim mesh)).

(** Two cells share a vertex. *)
Definition share_vertex (mesh : Mesh) (c c0 : nat) : Prop :=
  exists v, In v (entity_vertices mesh (tdim mesh) c0) /\
            In v (entity_vertices mesh (tdim mesh) c).

(** The incidence from cells to cells lists, for every cell, every earlier
    cell that shares a vertex with it. *)
Definition vertex_adjacent (mesh : Mesh) : Prop :=
  forall c c0, c < num_cells mesh -> c0 < c -> share_vertex mesh c c0 ->
    In c0 (incident mesh (tdim mesh) c (tdim mesh)).

(** Every vertex of every cell is a vertex of the mesh. *)
Definition cells_in_range (mesh : Mesh) : bool :=
  forallb (fun c => forallb (fun v => v <? tsize mesh 0)
                            (entity_vertices mesh (tdim mesh) c))
          (mesh_entities mesh (tdim mesh)).

(** The incidence from vertices to cells lists every cell at each of its
    vertices. *)
Definition vertex_cells_complete (mesh : Mesh) : Prop :=
  forall c v, c < num_cells mesh -> In v (entity_vertices mesh (tdim mesh) c) ->
    In c (incident mesh 0 v (tdim mesh)).

(** A constructed mesh of dimension at least one whose cells name vertices
    of the mesh and whose incidences from vertices to cells and from cells
    to cells, where they are present, are complete. *)
Definition well_formed (mesh : Mesh) : Prop :=
  constructed mesh /\
  0 < tdim mesh /\
  cells_in_range mesh = true /\
  (0 < MeshConnectivity.size (conn mesh 0 (tdim mesh)) -> vertex_cells_complete mesh) /\
  (0 < MeshConnectivity.size (conn mesh (tdim mesh) (tdim mesh)) -> vertex_adjacent mesh).

(** Two meshes have the same dimension, the same counts of vertices and
    cells and the same cells. *)
Definition same_cells (m m' : Mesh) : Prop :=
  tdim m' = tdim m /\
  tsize m' 0 = tsize m 0 /\
  tsize m' (tdim m) = tsize m (tdim m) /\
  conn m' (tdim m) 0 = conn m (tdim m) 0.

(** The sorted tuples of all slots of all cells. *)
Definition sorted_tuples (mesh : Mesh) (dim : nat) : list (list nat) :=
  flat_map (fun c => map std_sort (cell_entities mesh dim c))
           (mesh_entities mesh (tdim mesh)).

(** ** The order of the stored tuples, as the specification has it *)

(** The entity at slot [k] of cell [c] occurs at no slot visited before. *)
Definition first_discovered (mesh : Mesh) (dim c k : nat) : Prop :=
  forall c' k', visited c k c' k' ->
    k' < length (incident mesh (tdim mesh) c' dim) ->
    nth k' (incident mesh (tdim mesh) c' dim) 0 <> nth k (incident mesh (tdim mesh) c dim) 0.

(** The row of an entity is the tuple of the cell-shape oracle at the slot
    where the entity was first met. *)
Definition canonical_order_stored (mesh : Mesh) (dim : nat) : Prop :=
  forall c k, c < num_cells mesh -> k < length (cell_entities mesh dim c) ->
    first_discovered mesh dim c k ->
    entity_vertices mesh dim (nth k (incident mesh (tdim mesh) c dim) 0)
      = nth k (cell_entities mesh dim c) [].

(** ** More example meshes *)

(** The mesh of the two triangles once its edges are computed. *)
Definition two_triangles_edges : Mesh :=
  mesh_of (compute_entities 4 two_triangles 1) two_triangles.

(** The mesh of the two triangles with the incidence from vertices to
    cells. *)
Definition two_triangles_vc : Mesh :=
  mesh_of (compute_from_transpose two_triangles 0 2) two_triangles.

(** The same with the incidence from cells to cells. *)
Definition two_triangles_cc : Mesh :=
  mesh_of (compute_from_intersection two_triangles_vc 2 2 0) two_triangles_vc.

(** Edges are counted, and no edge has vertices. *)
Definition edges_without_vertices : Mesh := init_size one_triangle 1 3.

(** An edge has vertices, and no edge is counted. *)
Definition vertices_without_edges : Mesh := set_conn one_triangle 1 0 [[0; 1]].

(** A cell type without entities below the cell. *)
Definition shapeless : CellType.t :=
  {| CellType.num_entities := fun _ => 0;
     CellType.num_vertices := fun _ => 0;
     CellType.create_entities := fun _ _ => [] |}.

(** A mesh of one such cell with four vertices, as it is after
    construction, after the request for its edges, and after the request for
    its faces. *)
Definition one_shapeless_cell : Mesh := build_mesh shapeless 3 4 [[0; 1; 2; 3]].

Definition one_shapeless_cell_1 : Mesh :=
  mesh_of (compute_entities 4 one_shapeless_cell 1) one_shapeless_cell.

Definition one_shapeless_cell_2 : Mesh :=
  mesh_of (compute_entities 4 one_shapeless_cell_1 2) one_shapeless_cell_1.

(** A cell that names a vertex twice. *)
Definition folded_triangle : Mesh := build_mesh triangle 2 2 [[0; 0; 1]].

(** ** Totals, ranges and first occurrences *)

(** The total number of connections of a store: the length of its [values]
    array. *)
Definition num_connections (c : MeshConnectivity.t) : nat := length (concat c).

(** Every entry of every row of the incidence [(d0, d1)] is the index of
    an entity of dimension [d1]. *)
Definition rows_in_range (mesh : Mesh) (d0 d1 : nat) : bool :=
  forallb (fun e0 => forallb (fun e1 => e1 <? tsize mesh d1) (incident mesh d0 e0 d1))
          (mesh_entities mesh d0).

(** The members of [l] in the order of their first occurrence, each once. *)
Fixpoint keep_first (l : list nat) : list nat :=
  match l with
  | [] => []
  | x :: r => x :: filter (fun y => negb (y =? x)) (keep_first r)
  end.

(** The mesh of the two triangles that holds the incidence from vertices to
    cells and no longer the one from cells to vertices. *)
Definition two_triangles_vc_only : Mesh :=
  set_conn two_triangles_vc 2 0 MeshConnectivity.absent.

(** ** The numbering of the entities *)

(** [c->entities(dim)[k]]: the entity of dimension [dim] at slot [k] of
    cell [c]. *)
Definition cell_entity (mesh : Mesh) (dim c k : nat) : nat :=
  nth k (incident mesh (tdim mesh) c dim) 0.

(** The entity index that the cell loop has written for slot [k] of cell
    [c]. *)
Definition slot_index (s : synthesis) (c k : nat) : nat :=
  nth k (nth c (connectivity_ce s) []) 0.

(** Slot [k] of cell [c] either repeats the index of a slot visited before
    it, or carries the least index that no slot before it carries: every
    earlier slot has a smaller index, and every smaller index is carried by
    an earlier slot.  [len c'] is the number of slots of cell [c'] and
    [idx c' k'] the index at slot [k'] of [c']. *)
Definition numbered_in_order (len : nat -> nat) (idx : nat -> nat -> nat) (c k : nat) : Prop :=
  (exists c2 k2, visited c k c2 k2 /\ k2 < len c2 /\ idx c2 k2 = idx c k) \/
  ((forall c2 k2, visited c k c2 k2 -> k2 < len c2 -> idx c2 k2 < idx c k) /\
   (forall e, e < idx c k ->
      exists c2 k2, visited c k c2 k2 /\ k2 < len c2 /\ idx c2 k2 = e)).

(** The state of the cell loop of [compute_entities] at slot [j] of cell
    [c], as far as the numbering goes: a recorded pair carries the index of
    a visited slot, every index handed out is carried by a visited slot,
    and the visited slots are numbered in the order of the walk. *)
Record order_inv (mesh : Mesh) (dim : nat) (c j : nat) (s : synthesis) : Prop := {
  oi_list : forall c' e t, In (e, t) (nth c' (ce_list s) []) ->
    exists k, visited c j c' k /\ k < length (cell_entities mesh dim c') /\
              slot_index s c' k = e;
  oi_onto : forall e, e < current_entity s ->
    exists c' k, visited c j c' k /\ k < length (cell_entities mesh dim c') /\
                 slot_index s c' k = e;
  oi_order : forall c' k, visited c j c' k -> k < length (cell_entities mesh dim c') ->
    numbered_in_order (fun c2 => length (cell_entities mesh dim c2)) (slot_index s) c' k
}.

(** ** Cells that share their tuples *)

(** A tuple of a cell that lies within the vertices of another cell is,
    once sorted, a tuple of that cell too.  This holds in a mesh of
    simplices, where every set of [n] vertices of a cell is an entity of
    the cell. *)
Definition tuples_shared (mesh : Mesh) (dim : nat) : bool :=
  forallb (fun c =>
    forallb (fun t =>
      forallb (fun c0 =>
        negb (contains (entity_vertices mesh (tdim mesh) c0) t)
        || existsb (vec_eqb (std_sort t)) (map std_sort (cell_entities mesh dim c0)))
        (mesh_entities mesh (tdim mesh)))
      (cell_entities mesh dim c))
    (mesh_entities mesh (tdim mesh)).

(** The state of the cell loop of [compute_entities] at slot [j] of cell
    [c], against the counting pass: the entities created so far are as many
    as [count_entities] counts on the cells before [c] and on the first [j]
    tuples of [c]. *)
Definition count_inv (mesh : Mesh) (dim : nat) (c j : nat) (s : synthesis) : Prop :=
  current_entity s =
  list_sum (map (fun c' => count_new_entities mesh (tdim mesh) c'
                             (cell_entities mesh dim c') 0) (seq 0 c))
  + count_new_entities mesh (tdim mesh) c (firstn j (cell_entities mesh dim c)) 0.

(** ** What a call leaves as it was *)

(** From [m] to [m'], every incidence that is present in [m] is left as it
    is. *)
Definition keeps_present (m m' : Mesh) : Prop :=
  forall a b, 0 < MeshConnectivity.size (conn m a b) -> conn m' a b = conn m a b.

(** From [m] to [m'], every count that is known in [m] is left as it is. *)
Definition keeps_counts (m m' : Mesh) : Prop :=
  forall d, 0 < tsize m d -> tsize m' d = tsize m d.

(** From [m] to [m'], what is known of the mesh stays: the incidences that
    are present, the counts that are known, the cell type and the
    dimension. *)
Definition keeps_known (m m' : Mesh) : Prop :=
  keeps_present m m' /\ keeps_counts m m' /\ type m' = type m /\ tdim m' = tdim m.

(** The mesh that a call started on [m] hands back, on its return or with
    a fatal error, keeps what was known of [m]. *)
Definition outcome_keeps_known (A : Type) (m : Mesh) (r : outcome A) : Prop :=
  match r with
  | Done _ m' => keeps_known m m'
  | Fatal _ m' => keeps_known m m'
  | OutOfFuel => True
  end.

(** ** The two triangles with the incidences of their edges *)

(** The mesh of the two triangles with its edges, once the incidence from
    edges to cells, and once the one from edges to edges, is computed. *)
Definition two_triangles_edge_cells : Mesh :=
  mesh_of (compute_connectivity 2 two_triangles_edges 1 2) two_triangles_edges.

Definition two_triangles_edge_edges : Mesh :=
  mesh_of (compute_connectivity 3 two_triangles_edges 1 1) two_triangles_edges.

(** ** Elementary facts *)

Lemma compute_connectivity_S (fuel : nat) (mesh : Mesh) (d0 d1 : nat) :
  compute_connectivity (S fuel) mesh d0 d1 =
  compute_connectivity_body (compute_entities fuel) (compute_connectivity fuel) mesh d0 d1.
Proof. reflexivity. Qed.

Lemma compute_entities_S (fuel : nat) (mesh : Mesh) (dim : nat) :
  compute_entities (S fuel) mesh dim =
  compute_entities_body (compute_connectivity fuel) mesh dim.
Proof. reflexivity. Qed.

Arguments compute_connectivity : simpl never.
Arguments compute_entities : simpl never.

Lemma ltb_0_true (n : nat) : 0 < n -> (0 <? n) = true.
Proof. intros H. apply Nat.ltb_lt. exact H. Qed.

Lemma ltb_0_false (n : nat) : n = 0 -> (0 <? n) = false.
Proof. intros ->. reflexivity. Qed.

Lemma eqb_0_false (n : nat) : 0 < n -> (n =? 0) = false.
Proof. intros H. apply Nat.eqb_neq. lia. Qed.

(** A store that is present is returned as it is. *)
Lemma compute_connectivity_present (fuel : nat) (mesh : Mesh) (d0 d1 : nat) :
  0 < MeshConnectivity.size (conn mesh d0 d1) ->
  compute_connectivity (S fuel) mesh d0 d1 = Done tt mesh.
Proof.
  intros H. rewrite compute_connectivity_S. unfold compute_connectivity_body.
  rewrite (ltb_0_true H). reflexivity.
Qed.

Lemma compute_entities_exist (fuel : nat) (mesh : Mesh) (d : nat) :
  entities_exist mesh d ->
  compute_entities (S fuel) mesh d = Done (tsize mesh d) mesh.
Proof.
  intros (Hn & Hce & Hev). rewrite compute_entities_S. unfold compute_entities_body.
  rewrite (ltb_0_true Hn).
  assert (E1 : (MeshConnectivity.size (conn mesh (tdim mesh) d) =? 0) && negb (d =? tdim mesh) = false).
  { destruct Hce as [-> | Hce].
    - rewrite Nat.eqb_refl. apply andb_false_r.
    - rewrite (eqb_0_false Hce). reflexivity. }
  assert (E2 : (MeshConnectivity.size (conn mesh d 0) =? 0) && negb (d =? 0) = false).
  { destruct Hev as [-> | Hev].
    - apply andb_false_r.
    - rewrite (eqb_0_false Hev). reflexivity. }
  rewrite E1, E2. reflexivity.
Qed.

(** ** Vectors updated by index: lemmas *)

Section ListAlter.
Context {A : Type}.
Variable f : A -> A.

Lemma list_alter_length (i : nat) (l : list A) :
  length (list_alter f i l) = length l.
Proof.
  revert i. induction l as [|x r IH]; intros [|i]; simpl; auto.
Qed.

Lemma nth_list_alter_eq (i : nat) (l : list A) (d : A) :
  i < length l -> nth i (list_alter f i l) d = f (nth i l d).
Proof.
  revert i. induction l as [|x r IH]; intros [|i] H; simpl in *; try lia; auto.
  apply IH. lia.
Qed.

Lemma nth_list_alter_ne (i j : nat) (l : list A) (d : A) :
  i <> j -> nth j (list_alter f i l) d = nth j l d.
Proof.
  revert i j. induction l as [|x r IH]; intros [|i] [|j] H; simpl; auto; try lia.
Qed.

Lemma list_alter_ge (i : nat) (l : list A) :
  length l <= i -> list_alter f i l = l.
Proof.
  revert i. induction l as [|x r IH]; intros [|i] H; simpl in *; auto; try lia.
  f_equal. apply IH. lia.
Qed.
End ListAlter.

Lemma nth_push_back_at_eq {A : Type} (i : nat) (x : A) (v : list (list A)) :
  i < length v -> nth i (push_back_at i x v) [] = nth i v [] ++ [x].
Proof. intros H. unfold push_back_at. now rewrite nth_list_alter_eq. Qed.

Lemma nth_push_back_at_ne {A : Type} (i j : nat) (x : A) (v : list (list A)) :
  i <> j -> nth j (push_back_at i x v) [] = nth j v [].
Proof. intros H. unfold push_back_at. now rewrite nth_list_alter_ne. Qed.

Lemma push_back_at_length {A : Type} (i : nat) (x : A) (v : list (list A)) :
  length (push_back_at i x v) = length v.
Proof. apply list_alter_length. Qed.

Lemma skipn_nth_cons {A : Type} (j : nat) (l : list A) (x : A) (r : list A) (d : A) :
  skipn j l = x :: r -> j < length l /\ nth j l d = x /\ skipn (S j) l = r.
Proof.
  revert j. induction l as [|y l IH]; intros [|j] H; simpl in *; try discriminate.
  - inversion H. subst. repeat split; auto. lia.
  - destruct (IH j H) as (H1 & H2 & H3). repeat split; auto. lia.
Qed.

Lemma nth_repeat_nil {A : Type} (n i : nat) : nth i (repeat (@nil A) n) [] = [].
Proof.
  revert i. induction n as [|n IH]; intros [|i]; simpl; auto.
Qed.

(** ** [std::sort]: the result is ascending and a rearrangement *)

Lemma insert_sorted_perm (x : nat) (l : list nat) :
  Permutation (x :: l) (insert_sorted x l).
Proof.
  induction l as [|y r IH]; simpl.
  - apply Permutation_refl.
  - destruct (x <=? y).
    + apply Permutation_refl.
    + eapply perm_trans; [apply perm_swap|]. apply perm_skip. exact IH.
Qed.

Lemma std_sort_perm (l : list nat) : Permutation l (std_sort l).
Proof.
  induction l as [|x r IH]; simpl.
  - apply perm_nil.
  - eapply perm_trans; [|apply insert_sorted_perm]. apply perm_skip. exact IH.
Qed.

Lemma insert_sorted_ascending (x : nat) (l : list nat) :
  StronglySorted le l -> StronglySorted le (insert_sorted x l).
Proof.
  induction 1 as [|y r Hr IH Hy]; simpl.
  - repeat constructor.
  - destruct (Nat.leb_spec x y) as [Hxy|Hxy].
    + constructor.
      * constructor; assumption.
      * constructor; [exact Hxy|].
        eapply Forall_impl; [|exact Hy]. intros z Hz. simpl in Hz. lia.
    + constructor; [exact IH|].
      eapply Permutation_Forall; [apply insert_sorted_perm|].
      constructor; [lia|exact Hy].
Qed.

Lemma std_sort_ascending (l : list nat) : StronglySorted le (std_sort l).
Proof.
  induction l as [|x r IH]; simpl.
  - constructor.
  - apply insert_sorted_ascending. exact IH.
Qed.

Lemma std_sort_In (l : list nat) (x : nat) : In x (std_sort l) <-> In x l.
Proof.
  split; intros H.
  - eapply Permutation_in; [apply Permutation_sym, std_sort_perm|exact H].
  - eapply Permutation_in; [apply std_sort_perm|exact H].
Qed.

Lemma std_sort_length (l : list nat) : length (std_sort l) = length l.
Proof. symmetry. apply Permutation_length, std_sort_perm. Qed.

Lemma vec_eqb_true (a b : list nat) : vec_eqb a b = true <-> a = b.
Proof.
  unfold vec_eqb. destruct (list_eq_dec Nat.eq_dec a b); split; intros; congruence.
Qed.

Lemma vec_eqb_false (a b : list nat) : vec_eqb a b = false <-> a <> b.
Proof.
  unfold vec_eqb. destruct (list_eq_dec Nat.eq_dec a b); split; intros; congruence.
Qed.

Lemma std_find_In (x : nat) (v : list nat) : std_find x v = true <-> In x v.
Proof.
  unfold std_find. rewrite existsb_exists. split.
  - intros (y & Hy & E). apply Nat.eqb_eq in E. now subst.
  - intros H. exists x. split; [exact H|apply Nat.eqb_refl].
Qed.

Lemma std_find_not_In (x : nat) (v : list nat) : std_find x v = false <-> ~ In x v.
Proof.
  rewrite <- std_find_In. destruct (std_find x v); split; intros; congruence.
Qed.

(** ** The search for an existing entity *)

Lemma find_other_entity_Some (l : list (nat * list nat)) (entity : list nat) (e : nat) :
  find_other_entity l entity = Some e -> In (e, entity) l.
Proof.
  induction l as [|[i t] r IH]; simpl; [discriminate|].
  destruct (vec_eqb t entity) eqn:E.
  - intros H. inversion H. subst. apply vec_eqb_true in E. subst. now left.
  - intros H. right. auto.
Qed.

Lemma find_other_entity_None (l : list (nat * list nat)) (entity : list nat) :
  find_other_entity l entity = None -> forall e, ~ In (e, entity) l.
Proof.
  induction l as [|[i t] r IH]; simpl; [auto|].
  destruct (vec_eqb t entity) eqn:E; [discriminate|].
  intros H e [H1|H1].
  - inversion H1. subst. apply vec_eqb_false in E. congruence.
  - exact (IH H e H1).
Qed.

Lemma find_entity_Some (ce_list : list (list (nat * list nat))) (c : nat)
    (cells : list nat) (entity : list nat) (e : nat) :
  find_entity ce_list c cells entity = Some e ->
  exists c0, In c0 cells /\ c0 < c /\ In (e, entity) (nth c0 ce_list []).
Proof.
  induction cells as [|c0 r IH]; simpl; [discriminate|].
  destruct (Nat.leb_spec c c0) as [Hc|Hc].
  - intros H. destruct (IH H) as (c1 & H1 & H2 & H3). exists c1. auto.
  - destruct (find_other_entity (nth c0 ce_list []) entity) eqn:E.
    + intros H. inversion H. subst. exists c0. repeat split; auto.
      now apply find_other_entity_Some.
    + intros H. destruct (IH H) as (c1 & H1 & H2 & H3). exists c1. auto.
Qed.

Lemma find_entity_None (ce_list : list (list (nat * list nat))) (c : nat)
    (cells : list nat) (entity : list nat) :
  find_entity ce_list c cells entity = None ->
  forall c0 e, In c0 cells -> c0 < c -> ~ In (e, entity) (nth c0 ce_list []).
Proof.
  induction cells as [|c1 r IH]; simpl; [intros _ c0 e []|].
  destruct (Nat.leb_spec c c1) as [Hc|Hc].
  - intros H c0 e [->|Hin] Hlt; [lia|]. now apply IH.
  - destruct (find_other_entity (nth c1 ce_list []) entity) eqn:E; [discriminate|].
    intros H c0 e [->|Hin] Hlt.
    + now apply find_other_entity_None.
    + now apply IH.
Qed.

(** ** Entity synthesis: what the cell loop maintains *)

Section Synthesis.
Variable mesh : Mesh.
Variable dim : nat.

Local Abbreviation N := (num_cells mesh).
Local Abbreviation tuples := (cell_entities mesh dim).
Local Abbreviation cells_of c := (incident mesh (tdim mesh) c (tdim mesh)).
Local Abbreviation synth_inv := (synth_inv mesh dim).

Lemma visited_next_slot (c j c' k : nat) : visited c j c' k -> visited c (S j) c' k.
Proof. unfold visited. intros [H|[H1 H2]]; [left|right]; auto. Qed.

Lemma visited_cases (c j c' k : nat) :
  visited c (S j) c' k -> visited c j c' k \/ (c' = c /\ k = j).
Proof. unfold visited. intros [H|[H1 H2]]; [auto|]. destruct (Nat.eq_dec k j); [auto|]. left. right. lia. Qed.

Lemma synth_inv_start : synth_inv 0 0 (synthesis_start mesh).
Proof.
  constructor; simpl; auto.
  - apply repeat_length.
  - apply repeat_length.
  - intros c' H. lia.
  - intros _. now rewrite nth_repeat_nil.
  - intros c' _. now rewrite !nth_repeat_nil.
  - intros c' k [H|[_ H]]; lia.
  - intros c' e t. rewrite nth_repeat_nil. intros [].
  - intros e H. lia.
Qed.

Lemma synth_inv_visit_entity (c j : nat) (s : synthesis) :
  synth_inv c j s -> c < N -> j < length (tuples c) ->
  synth_inv c (S j) (visit_entity c (cells_of c) s (nth j (tuples c) [])).
Proof.
  intros I Hc Hj. unfold visit_entity.
  set (entity := std_sort (nth j (tuples c) [])).
  pose proof (si_len_ce I) as Lce. pose proof (si_len_list I) as Llist.
  pose proof (si_row_cur I Hc) as Lrow.
  destruct (find_entity (ce_list s) c (cells_of c) entity) as [e|] eqn:F.
  - (* the entity is found among those of an earlier cell *)
    destruct (find_entity_Some _ _ _ _ F) as (c0 & _ & Hc0 & Hin).
    destruct (si_list I _ _ _ Hin) as (He & Hnth & _).
    constructor; simpl.
    + apply (si_current I).
    + now rewrite push_back_at_length.
    + exact Llist.
    + intros c' H. rewrite nth_push_back_at_ne by lia. now apply (si_rows_done I).
    + intros _. rewrite nth_push_back_at_eq by lia. rewrite length_app. simpl. lia.
    + intros c' H. rewrite nth_push_back_at_ne by lia. now apply (si_rows_todo I).
    + intros c' k V Hk. destruct (visited_cases V) as [V'|[-> ->]].
      * destruct (Nat.eq_dec c' c) as [->|Hne].
        -- rewrite nth_push_back_at_eq by lia.
           destruct V' as [V'|[_ V']]; [lia|].
           rewrite app_nth1 by lia. apply (si_slot I); [right; auto|exact Hk].
        -- rewrite nth_push_back_at_ne by lia. now apply (si_slot I).
      * rewrite nth_push_back_at_eq by lia.
        rewrite app_nth2 by lia. rewrite Lrow, Nat.sub_diag. simpl. auto.
    + intros c' e' t H. destruct (si_list I _ _ _ H) as (H1 & H2 & k & V & Hk & Ht).
      repeat split; auto. exists k. repeat split; auto. now apply visited_next_slot.
    + apply (si_ev I).
    + apply (si_sorted I).
  - (* a new entity *)
    pose proof (si_current I) as Hcur.
    constructor; simpl.
    + rewrite length_app. simpl. lia.
    + now rewrite push_back_at_length.
    + now rewrite push_back_at_length.
    + intros c' H. rewrite nth_push_back_at_ne by lia. now apply (si_rows_done I).
    + intros _. rewrite nth_push_back_at_eq by lia. rewrite length_app. simpl. lia.
    + intros c' H. rewrite !nth_push_back_at_ne by lia. now apply (si_rows_todo I).
    + intros c' k V Hk. rewrite length_app. simpl.
      destruct (visited_cases V) as [V'|[-> ->]].
      * assert (Hold : nth k (nth c' (push_back_at c (current_entity s) (connectivity_ce s)) []) 0
                       = nth k (nth c' (connectivity_ce s) []) 0).
        { destruct (Nat.eq_dec c' c) as [->|Hne].
          - rewrite nth_push_back_at_eq by lia.
            destruct V' as [V'|[_ V']]; [lia|]. now rewrite app_nth1 by lia.
          - now rewrite nth_push_back_at_ne by lia. }
        rewrite Hold. destruct (si_slot I V' Hk) as (H1 & H2).
        split; [lia|]. now rewrite app_nth1.
      * rewrite nth_push_back_at_eq by lia.
        rewrite app_nth2 by lia. rewrite Lrow, Nat.sub_diag. simpl.
        split; [lia|]. rewrite Hcur. rewrite app_nth2 by lia.
        now rewrite Nat.sub_diag.
    + intros c' e' t H. rewrite length_app. simpl.
      assert (Hcase : In (e', t) (nth c' (ce_list s) []) \/
                      (c' = c /\ e' = current_entity s /\ t = entity)).
      { destruct (Nat.eq_dec c' c) as [->|Hne].
        - rewrite nth_push_back_at_eq in H by lia.
          apply in_app_or in H. destruct H as [H|[H|[]]]; [auto|].
          inversion H. auto.
        - rewrite nth_push_back_at_ne in H by lia. auto. }
      destruct Hcase as [Hold|(-> & -> & ->)].
      * destruct (si_list I _ _ _ Hold) as (H1 & H2 & k & V & Hk & Ht).
        split; [lia|]. split; [now rewrite app_nth1|].
        exists k. repeat split; auto. now apply visited_next_slot.
      * split; [lia|]. split.
        -- rewrite Hcur. rewrite app_nth2 by lia. now rewrite Nat.sub_diag.
        -- exists j. repeat split; auto. right. auto.
    + intros e He. rewrite length_app in He. simpl in He.
      destruct (Nat.eq_dec e (length (connectivity_ev s))) as [->|Hne].
      * exists c. rewrite nth_push_back_at_eq by lia.
        rewrite app_nth2 by lia. rewrite Nat.sub_diag. simpl.
        apply in_or_app. right. left. now rewrite Hcur.
      * assert (He' : e < length (connectivity_ev s)) by lia.
        destruct (si_ev I He') as (c' & Hin). exists c'.
        rewrite app_nth1 by lia.
        destruct (Nat.eq_dec c' c) as [->|Hc'].
        -- rewrite nth_push_back_at_eq by lia. apply in_or_app. now left.
        -- now rewrite nth_push_back_at_ne by lia.
    + apply Forall_app. split; [apply (si_sorted I)|].
      constructor; [apply std_sort_ascending|constructor].
Qed.

Lemma synth_inv_slots (c : nat) (es : list (list nat)) (j : nat) (s : synthesis) :
  synth_inv c j s -> c < N -> j <= length (tuples c) -> skipn j (tuples c) = es ->
  synth_inv c (length (tuples c)) (fold_left (visit_entity c (cells_of c)) es s).
Proof.
  revert j s. induction es as [|e es IH]; intros j s I Hc Hle Hes; simpl.
  - assert (E : j = length (tuples c)).
    { apply (f_equal (@length _)) in Hes. rewrite length_skipn in Hes. simpl in Hes. lia. }
    now rewrite <- E.
  - destruct (skipn_nth_cons _ _ [] Hes) as (Hj & He & Hes').
    subst e. apply (IH (S j)); auto.
    now apply synth_inv_visit_entity.
Qed.

(** A cell whose slots are all visited is a visited cell. *)
Lemma synth_inv_next_cell (c : nat) (s : synthesis) :
  synth_inv c (length (tuples c)) s -> c < N -> synth_inv (S c) 0 s.
Proof.
  intros I Hc. constructor; try apply I.
  - intros c' H. destruct (Nat.eq_dec c' c) as [->|Hne].
    + now apply (si_row_cur I).
    + apply (si_rows_done I). lia.
  - intros H. destruct (si_rows_todo I (c' := S c)) as [H1 _]; [lia|].
    now rewrite H1.
  - intros c' H. apply (si_rows_todo I). lia.
  - intros c' k V Hk. apply (si_slot I); auto.
    destruct V as [V|[_ V]]; [|lia].
    destruct (Nat.eq_dec c' c) as [->|Hne]; [right; auto|left; lia].
  - intros c' e t H. destruct (si_list I _ _ _ H) as (H1 & H2 & k & V & Hk & Ht).
    repeat split; auto. exists k. repeat split; auto.
    destruct V as [V|[V1 V2]]; left; lia.
Qed.

Lemma synth_inv_visit_cell (c : nat) (s : synthesis) :
  synth_inv c 0 s -> c < N -> synth_inv (S c) 0 (visit_cell mesh dim s c).
Proof.
  intros I Hc. apply synth_inv_next_cell; [|exact Hc].
  unfold visit_cell. apply (synth_inv_slots (j := 0)); auto. lia.
Qed.

Lemma synth_inv_cells (n c : nat) (s : synthesis) :
  synth_inv c 0 s -> c + n = N ->
  synth_inv N 0 (fold_left (visit_cell mesh dim) (seq c n) s).
Proof.
  revert c s. induction n as [|n IH]; intros c s I Hn; simpl.
  - replace N with c by lia. exact I.
  - apply IH; [|lia]. apply synth_inv_visit_cell; [exact I|lia].
Qed.

Theorem synthesize_inv : synth_inv N 0 (synthesize mesh dim).
Proof.
  unfold synthesize, mesh_entities. apply synth_inv_cells.
  - apply synth_inv_start.
  - reflexivity.
Qed.
End Synthesis.

(** ** What [compute_entities] stores *)

Lemma tdim_set_conn (mesh : Mesh) (d0 d1 : nat) (c : MeshConnectivity.t) :
  tdim (set_conn mesh d0 d1 c) = tdim mesh.
Proof. reflexivity. Qed.

Lemma tsize_set_conn (mesh : Mesh) (d0 d1 : nat) (c : MeshConnectivity.t) (d : nat) :
  tsize (set_conn mesh d0 d1 c) d = tsize mesh d.
Proof. reflexivity. Qed.

Lemma conn_set_conn_eq (mesh : Mesh) (d0 d1 : nat) (c : MeshConnectivity.t) :
  conn (set_conn mesh d0 d1 c) d0 d1 = c.
Proof. unfold conn, set_conn. simpl. now rewrite !Nat.eqb_refl. Qed.

Lemma conn_set_conn_ne (mesh : Mesh) (d0 d1 : nat) (c : MeshConnectivity.t) (a b : nat) :
  (a, b) <> (d0, d1) -> conn (set_conn mesh d0 d1 c) a b = conn mesh a b.
Proof.
  intros H. unfold conn, set_conn. simpl.
  destruct (Nat.eqb_spec a d0), (Nat.eqb_spec b d1); simpl; auto. congruence.
Qed.

Lemma conn_init_size (mesh : Mesh) (d n a b : nat) :
  conn (init_size mesh d n) a b = conn mesh a b.
Proof. reflexivity. Qed.

Lemma tsize_init_size_eq (mesh : Mesh) (d n : nat) : tsize (init_size mesh d n) d = n.
Proof. unfold tsize, init_size. simpl. now rewrite Nat.eqb_refl. Qed.

Lemma tsize_init_size_ne (mesh : Mesh) (d n d' : nat) :
  d' <> d -> tsize (init_size mesh d n) d' = tsize mesh d'.
Proof.
  intros H. unfold tsize, init_size. simpl.
  destruct (Nat.eqb_spec d' d); congruence.
Qed.

Lemma store_entities_tdim (mesh : Mesh) (dim : nat) (s : synthesis) :
  tdim (store_entities mesh dim s) = tdim mesh.
Proof. reflexivity. Qed.

Lemma store_entities_type (mesh : Mesh) (dim : nat) (s : synthesis) :
  type (store_entities mesh dim s) = type mesh.
Proof. reflexivity. Qed.

Lemma store_entities_ev (mesh : Mesh) (dim : nat) (s : synthesis) :
  conn (store_entities mesh dim s) dim 0 = connectivity_ev s.
Proof. unfold store_entities. now rewrite conn_set_conn_eq. Qed.

Lemma store_entities_ce (mesh : Mesh) (dim : nat) (s : synthesis) :
  tdim mesh <> dim \/ dim <> 0 ->
  conn (store_entities mesh dim s) (tdim mesh) dim = connectivity_ce s.
Proof.
  intros H. unfold store_entities.
  rewrite conn_set_conn_ne by (intros E; inversion E; lia).
  exact (conn_set_conn_eq _ _ _ _).
Qed.

Lemma store_entities_conn (mesh : Mesh) (dim : nat) (s : synthesis) (a b : nat) :
  (a, b) <> (tdim mesh, dim) -> (a, b) <> (dim, 0) ->
  conn (store_entities mesh dim s) a b = conn mesh a b.
Proof.
  intros H1 H2. unfold store_entities.
  rewrite conn_set_conn_ne by exact H2.
  exact (conn_set_conn_ne _ _ H1).
Qed.

Lemma store_entities_tsize_eq (mesh : Mesh) (dim : nat) (s : synthesis) :
  tsize (store_entities mesh dim s) dim = length (connectivity_ev s).
Proof. unfold store_entities. rewrite !tsize_set_conn. apply tsize_init_size_eq. Qed.

Lemma store_entities_tsize_ne (mesh : Mesh) (dim : nat) (s : synthesis) (d : nat) :
  d <> dim -> tsize (store_entities mesh dim s) d = tsize mesh d.
Proof.
  intros H. unfold store_entities. rewrite !tsize_set_conn.
  now apply tsize_init_size_ne.
Qed.

(** A call that finds no entities of dimension [dim] and returns has run
    the cell loop on the mesh left by [compute_connectivity(D, D)]. *)
Lemma compute_entities_fresh (fuel : nat) (mesh : Mesh) (dim n : nat) (mesh' : Mesh) :
  compute_entities fuel mesh dim = Done n mesh' -> tsize mesh dim = 0 ->
  exists fuel' mesh1,
    fuel = S fuel' /\
    MeshConnectivity.size (conn mesh (tdim mesh) dim) = 0 /\
    MeshConnectivity.size (conn mesh dim 0) = 0 /\
    compute_connectivity fuel' mesh (tdim mesh) (tdim mesh) = Done tt mesh1 /\
    n = length (connectivity_ev (synthesize mesh1 dim)) /\
    mesh' = store_entities mesh1 dim (synthesize mesh1 dim).
Proof.
  destruct fuel as [|fuel]; [discriminate|].
  rewrite compute_entities_S. unfold compute_entities_body.
  intros H H0. rewrite (ltb_0_false H0) in H.
  destruct (MeshConnectivity.size (conn mesh (tdim mesh) dim)) as [|a] eqn:E1;
    [|discriminate].
  destruct (MeshConnectivity.size (conn mesh dim 0)) as [|b] eqn:E2;
    [|discriminate].
  simpl in H.
  destruct (compute_connectivity fuel mesh (tdim mesh) (tdim mesh)) as [[] mesh1| |] eqn:E;
    simpl in H; try discriminate.
  inversion H. exists fuel, mesh1. repeat split; auto.
Qed.

(** A call that finds the entities of dimension [dim] and returns leaves the
    mesh as it is. *)
Lemma compute_entities_cached (fuel : nat) (mesh : Mesh) (dim n : nat) (mesh' : Mesh) :
  compute_entities fuel mesh dim = Done n mesh' -> 0 < tsize mesh dim ->
  mesh' = mesh /\ n = tsize mesh dim /\ entities_exist mesh dim.
Proof.
  destruct fuel as [|fuel]; [discriminate|].
  rewrite compute_entities_S. unfold compute_entities_body.
  intros H H0. rewrite (ltb_0_true H0) in H.
  destruct (Nat.eqb_spec (MeshConnectivity.size (conn mesh (tdim mesh) dim)) 0) as [A|A];
    destruct (Nat.eqb_spec dim (tdim mesh)) as [B|B];
    destruct (Nat.eqb_spec (MeshConnectivity.size (conn mesh dim 0)) 0) as [C|C];
    destruct (Nat.eqb_spec dim 0) as [E|E];
    simpl in H; try discriminate; inversion H; subst mesh';
    (split; [reflexivity|]; split; [reflexivity|]);
    (split; [exact H0|]); (split; [auto; right; lia|auto; right; lia]).
Qed.

(** ** Reading a returned call backwards *)

Lemma bind_Done {A B : Type} (r : outcome A) (k : A -> Mesh -> outcome B)
    (b : B) (mesh' : Mesh) :
  bind r k = Done b mesh' -> exists a mesh1, r = Done a mesh1 /\ k a mesh1 = Done b mesh'.
Proof.
  destruct r as [a mesh1| |]; simpl; try discriminate.
  intros H. exists a, mesh1. auto.
Qed.

Lemma dolfin_assert_Done (b : bool) (mesh : Mesh) (u : unit) (mesh' : Mesh) :
  dolfin_assert b mesh = Done u mesh' -> b = true /\ mesh' = mesh.
Proof.
  unfold dolfin_assert. destruct b; [|discriminate].
  intros H. inversion H. auto.
Qed.

Lemma ensure_entities_Done (ce : Mesh -> nat -> outcome nat) (mesh : Mesh) (d : nat)
    (mesh' : Mesh) :
  ensure_entities ce mesh d = Done tt mesh' ->
  (0 < tsize mesh d /\ mesh' = mesh) \/
  (tsize mesh d = 0 /\ exists n, ce mesh d = Done n mesh').
Proof.
  unfold ensure_entities. destruct (Nat.eqb_spec (tsize mesh d) 0) as [E|E].
  - intros H. right. split; [exact E|].
    destruct (bind_Done _ _ H) as (n & m1 & H1 & H2). inversion H2. subst.
    now exists n.
  - intros H. left. split; [lia|]. inversion H. reflexivity.
Qed.

Lemma compute_from_transpose_Done (mesh : Mesh) (d0 d1 : nat) (mesh' : Mesh) :
  compute_from_transpose mesh d0 d1 = Done tt mesh' ->
  0 < MeshConnectivity.size (conn mesh d1 d0) /\
  mesh' = set_conn mesh d0 d1 (transpose_rows mesh d0 d1).
Proof.
  unfold compute_from_transpose. intros H.
  destruct (bind_Done _ _ H) as (u & m1 & H1 & H2).
  apply dolfin_assert_Done in H1. destruct H1 as [H1 ->].
  apply Nat.ltb_lt in H1. inversion H2. auto.
Qed.

Lemma compute_from_intersection_Done (mesh : Mesh) (d0 d1 d : nat) (mesh' : Mesh) :
  compute_from_intersection mesh d0 d1 d = Done tt mesh' ->
  d1 <= d0 /\
  0 < MeshConnectivity.size (conn mesh d0 d) /\
  0 < MeshConnectivity.size (conn mesh d d1) /\
  mesh' = set_conn mesh d0 d1 (intersection_rows mesh d0 d1 d).
Proof.
  unfold compute_from_intersection. intros H.
  destruct (bind_Done _ _ H) as (u1 & m1 & H1 & H2).
  apply dolfin_assert_Done in H1. destruct H1 as [H1 ->].
  destruct (bind_Done _ _ H2) as (u2 & m2 & H3 & H4).
  apply dolfin_assert_Done in H3. destruct H3 as [H3 ->].
  destruct (bind_Done _ _ H4) as (u3 & m3 & H5 & H6).
  apply dolfin_assert_Done in H5. destruct H5 as [H5 ->].
  apply Nat.leb_le in H1. apply Nat.ltb_lt in H3. apply Nat.ltb_lt in H5.
  inversion H6. auto.
Qed.

Lemma dispatch_Done (cc : Mesh -> nat -> nat -> outcome unit) (mesh : Mesh)
    (d0 d1 : nat) (mesh' : Mesh) :
  dispatch cc mesh d0 d1 = Done tt mesh' ->
  (d0 < d1 /\ exists m1,
     cc mesh d1 d0 = Done tt m1 /\ compute_from_transpose m1 d0 d1 = Done tt mesh') \/
  (d1 <= d0 /\ ~ (0 < d0 /\ d1 = 0) /\ exists m1 m2,
     cc mesh d0 (intermediate mesh d0 d1) = Done tt m1 /\
     cc m1 (intermediate mesh d0 d1) d1 = Done tt m2 /\
     compute_from_intersection m2 d0 d1 (intermediate mesh d0 d1) = Done tt mesh').
Proof.
  unfold dispatch. destruct (Nat.ltb_spec d0 d1) as [L|L]; intros H.
  - left. split; [exact L|].
    destruct (bind_Done _ _ H) as ([] & m1 & H1 & H2). now exists m1.
  - right. split; [exact L|].
    destruct (bind_Done _ _ H) as (u & m0 & H1 & H2).
    apply dolfin_assert_Done in H1. destruct H1 as [H1 ->].
    destruct (bind_Done _ _ H2) as ([] & m1 & H3 & H4).
    destruct (bind_Done _ _ H4) as ([] & m2 & H5 & H6).
    split.
    + intros [Ha Hb]. subst d1. apply Nat.ltb_lt in Ha. rewrite Ha in H1. discriminate.
    + now exists m1, m2.
Qed.

Lemma compute_connectivity_Done (fuel : nat) (mesh : Mesh) (d0 d1 : nat) (mesh' : Mesh) :
  compute_connectivity (S fuel) mesh d0 d1 = Done tt mesh' ->
  (0 < MeshConnectivity.size (conn mesh d0 d1) /\ mesh' = mesh) \/
  (MeshConnectivity.size (conn mesh d0 d1) = 0 /\ exists m1 m2,
     ensure_entities (compute_entities fuel) mesh d0 = Done tt m1 /\
     ensure_entities (compute_entities fuel) m1 d1 = Done tt m2 /\
     ((tsize m2 d0 = 0 /\ tsize m2 d1 = 0 /\ mesh' = m2) \/
      (0 < tsize m2 d0 + tsize m2 d1 /\
       0 < MeshConnectivity.size (conn m2 d0 d1) /\ mesh' = m2) \/
      (0 < tsize m2 d0 + tsize m2 d1 /\
       MeshConnectivity.size (conn m2 d0 d1) = 0 /\
       dispatch (compute_connectivity fuel) m2 d0 d1 = Done tt mesh'))).
Proof.
  rewrite compute_connectivity_S. unfold compute_connectivity_body.
  destruct (Nat.ltb_spec 0 (MeshConnectivity.size (conn mesh d0 d1))) as [P|P]; intros H.
  - left. inversion H; subst. auto.
  - right. split; [lia|].
    destruct (bind_Done _ _ H) as ([] & m1 & H1 & H2).
    destruct (bind_Done _ _ H2) as ([] & m2 & H3 & H4).
    exists m1, m2. split; [exact H1|]. split; [exact H3|].
    destruct (Nat.eqb_spec (tsize m2 d0) 0) as [Z0|Z0];
      destruct (Nat.eqb_spec (tsize m2 d1) 0) as [Z1|Z1]; simpl in H4;
      try (left; inversion H4; subst; now auto);
      right;
      (destruct (Nat.ltb_spec 0 (MeshConnectivity.size (conn m2 d0 d1))) as [Q|Q];
       [left; inversion H4; subst; repeat split; auto; lia
       |right; repeat split; auto; lia]).
Qed.

(** ** A relation kept by every call that returns *)

Section Frame.
Variable R : Mesh -> Mesh -> Prop.
Hypothesis R_refl : forall m, R m m.
Hypothesis R_trans : forall m1 m2 m3, R m1 m2 -> R m2 m3 -> R m1 m3.
Hypothesis R_transpose : forall m d0 d1,
  d0 < d1 -> 0 < MeshConnectivity.size (conn m d1 d0) ->
  R m (set_conn m d0 d1 (transpose_rows m d0 d1)).
Hypothesis R_intersection : forall m d0 d1 d,
  d1 <= d0 -> ~ (0 < d0 /\ d1 = 0) -> d = intermediate m d0 d1 ->
  0 < MeshConnectivity.size (conn m d0 d) ->
  0 < MeshConnectivity.size (conn m d d1) ->
  R m (set_conn m d0 d1 (intersection_rows m d0 d1 d)).
Hypothesis R_store : forall m m1 dim,
  tsize m dim = 0 ->
  MeshConnectivity.size (conn m (tdim m) dim) = 0 ->
  MeshConnectivity.size (conn m dim 0) = 0 ->
  R m m1 -> tdim m1 = tdim m ->
  R m (store_entities m1 dim (synthesize m1 dim)).

Lemma returned_calls_keep (fuel : nat) :
  (forall mesh d0 d1 mesh',
     compute_connectivity fuel mesh d0 d1 = Done tt mesh' ->
     R mesh mesh' /\ tdim mesh' = tdim mesh) /\
  (forall mesh dim n mesh',
     compute_entities fuel mesh dim = Done n mesh' ->
     R mesh mesh' /\ tdim mesh' = tdim mesh).
Proof.
  assert (K_trans : forall m1 m2 m3,
            R m1 m2 /\ tdim m2 = tdim m1 -> R m2 m3 /\ tdim m3 = tdim m2 ->
            R m1 m3 /\ tdim m3 = tdim m1).
  { intros m1 m2 m3 [A1 T1] [A2 T2]. split; [eapply R_trans; eauto|congruence]. }
  induction fuel as [|fuel [IHcc IHce]]; [split; discriminate|].
  assert (Hens : forall mesh d mesh',
             ensure_entities (compute_entities fuel) mesh d = Done tt mesh' ->
             R mesh mesh' /\ tdim mesh' = tdim mesh).
  { intros mesh d mesh' H. destruct (ensure_entities_Done _ _ _ H) as [[_ ->]|[_ [n Hn]]].
    - split; [apply R_refl|reflexivity].
    - eapply IHce. exact Hn. }
  split.
  - intros mesh d0 d1 mesh' H.
    destruct (compute_connectivity_Done _ _ _ _ H)
      as [[_ ->]|(_ & m1 & m2 & E1 & E2 & Hcase)]; [split; [apply R_refl|reflexivity]|].
    apply (K_trans _ _ _ (Hens _ _ _ E1)). apply (K_trans _ _ _ (Hens _ _ _ E2)).
    destruct Hcase as [(_ & _ & ->)|[(_ & _ & ->)|(_ & _ & Hd)]];
      try (split; [apply R_refl|reflexivity]).
    destruct (dispatch_Done _ _ _ _ Hd)
      as [(L & m3 & C1 & T)|(L & NA & m3 & m4 & C1 & C2 & I)].
    + apply (K_trans _ _ _ (IHcc _ _ _ _ C1)).
      destruct (compute_from_transpose_Done _ _ _ T) as (P & ->).
      split; [now apply R_transpose|reflexivity].
    + pose proof (IHcc _ _ _ _ C1) as K1. pose proof (IHcc _ _ _ _ C2) as K2.
      apply (K_trans _ _ _ K1). apply (K_trans _ _ _ K2).
      destruct (compute_from_intersection_Done _ _ _ _ I) as (_ & P1 & P2 & ->).
      split; [|reflexivity]. apply R_intersection; auto.
      unfold intermediate. destruct K1 as [_ T1]. destruct K2 as [_ T2].
      rewrite T2, T1. reflexivity.
  - intros mesh dim n mesh' H.
    destruct (Nat.eq_dec (tsize mesh dim) 0) as [Z|Z].
    + destruct (compute_entities_fresh _ _ _ H Z)
        as (fuel' & mesh1 & E & A1 & A2 & C & _ & ->).
      inversion E. subst fuel'.
      destruct (IHcc _ _ _ _ C) as [K T].
      split; [now apply R_store|]. now rewrite store_entities_tdim.
    + destruct (compute_entities_cached _ _ _ H) as [-> _]; [lia|].
      split; [apply R_refl|reflexivity].
Qed.
End Frame.

Lemma returned_calls_same_shape (fuel : nat) :
  (forall mesh d0 d1 mesh',
     compute_connectivity fuel mesh d0 d1 = Done tt mesh' -> same_shape mesh mesh') /\
  (forall mesh dim n mesh',
     compute_entities fuel mesh dim = Done n mesh' -> same_shape mesh mesh').
Proof.
  assert (K : (forall mesh d0 d1 mesh',
                 compute_connectivity fuel mesh d0 d1 = Done tt mesh' ->
                 type mesh' = type mesh /\ tdim mesh' = tdim mesh) /\
              (forall mesh dim n mesh',
                 compute_entities fuel mesh dim = Done n mesh' ->
                 type mesh' = type mesh /\ tdim mesh' = tdim mesh)).
  { apply (@returned_calls_keep (fun m m' => type m' = type m)).
    - auto.
    - intros m1 m2 m3 A B. congruence.
    - intros. reflexivity.
    - intros. reflexivity.
    - intros m m1 dim _ _ _ A _. now rewrite store_entities_type. }
  destruct K as [K1 K2]. unfold same_shape. split.
  - intros mesh d0 d1 mesh' H. destruct (K1 _ _ _ _ H). auto.
  - intros mesh dim n mesh' H. destruct (K2 _ _ _ _ H). auto.
Qed.

Lemma compute_connectivity_tdim (fuel : nat) (mesh : Mesh) (d0 d1 : nat) (mesh' : Mesh) :
  compute_connectivity fuel mesh d0 d1 = Done tt mesh' ->
  tdim mesh' = tdim mesh /\ type mesh' = type mesh.
Proof. apply (proj1 (returned_calls_same_shape fuel)). Qed.

(** ** The entity-to-vertex incidence stored by [compute_entities] *)

Lemma nth_Forall {A : Type} (P : A -> Prop) (l : list A) (d : A) (i : nat) :
  Forall P l -> P d -> P (nth i l d).
Proof.
  intros H Hd. revert i. induction H as [|x r Hx Hr IH]; intros [|i]; simpl; auto.
Qed.

Lemma two_triangles_edges_computed :
  compute_entities 4 two_triangles 1 = Done 5 two_triangles_edges.
Proof. vm_compute. reflexivity. Qed.

(** C1, as stated, fails: the edge first met at slot 0 of the second of the
    two triangles [0,1,2] and [1,3,2] has the canonical tuple (3,2), and the
    stored row is (2,3). *)
Lemma canonical_order_not_stored :
  compute_entities 4 two_triangles 1 = Done 5 two_triangles_edges /\
  ~ canonical_order_stored two_triangles_edges 1.
Proof.
  split; [exact two_triangles_edges_computed|].
  intros H. specialize (H 1 0).
  assert (H1 : 1 < num_cells two_triangles_edges) by (vm_compute; lia).
  assert (H2 : 0 < length (cell_entities two_triangles_edges 1 1)) by (vm_compute; lia).
  assert (H3 : first_discovered two_triangles_edges 1 1 0).
  { intros c' k' [V|[_ V]] Hk; [|lia].
    assert (c' = 0) by lia. subst c'.
    change (length (incident two_triangles_edges (tdim two_triangles_edges) 0 1))
      with 3 in Hk.
    destruct k' as [|[|[|k']]]; try lia; vm_compute; discriminate. }
  specialize (H H1 H2 H3). vm_compute in H. discriminate.
Qed.

(** C1, amended: for [0 < d < D] the row stored in [Conn[d][0]] for the
    entity at slot [k] of cell [c] (the slot where it is first met, and any
    later one) is the tuple of the cell-shape oracle at that slot sorted
    ascending, the order used for the duplicate lookup; it has the vertices
    of the canonical tuple, and not its order. *)
Theorem compute_entities_stores_sorted_tuple
    (fuel : nat) (mesh : Mesh) (dim n : nat) (mesh' : Mesh) :
  compute_entities fuel mesh dim = Done n mesh' ->
  tsize mesh dim = 0 ->
  0 < dim < tdim mesh ->
  forall c k, c < num_cells mesh' -> k < length (cell_entities mesh' dim c) ->
    entity_vertices mesh' dim (nth k (incident mesh' (tdim mesh') c dim) 0)
      = std_sort (nth k (cell_entities mesh' dim c) []) /\
    forall v,
      In v (entity_vertices mesh' dim (nth k (incident mesh' (tdim mesh') c dim) 0))
      <-> In v (nth k (cell_entities mesh' dim c) []).
Proof.
  intros H Z Hd c k Hc Hk.
  assert (G : entity_vertices mesh' dim (nth k (incident mesh' (tdim mesh') c dim) 0)
              = std_sort (nth k (cell_entities mesh' dim c) [])).
  { destruct (compute_entities_fresh _ _ _ H Z)
      as (fuel' & mesh1 & -> & _ & _ & C & _ & ->).
    destruct (compute_connectivity_tdim _ _ _ _ C) as [D1 _].
    set (s := synthesize mesh1 dim) in *.
    assert (Ecells : forall c, cell_entities (store_entities mesh1 dim s) dim c
                               = cell_entities mesh1 dim c).
    { intros c0. unfold cell_entities, entity_vertices.
      rewrite store_entities_type, store_entities_tdim.
      rewrite store_entities_conn; [reflexivity| |]; intros E; inversion E; lia. }
    assert (Ecount : num_cells (store_entities mesh1 dim s) = num_cells mesh1).
    { unfold num_cells. rewrite store_entities_tdim.
      apply store_entities_tsize_ne. lia. }
    rewrite Ecells in *. rewrite Ecount in Hc.
    unfold entity_vertices, incident.
    rewrite store_entities_tdim, store_entities_ev, store_entities_ce by lia.
    pose proof (synthesize_inv mesh1 dim) as I. fold s in I.
    apply (si_slot I); [left; exact Hc|exact Hk]. }
  split; [exact G|]. intros v. rewrite G. apply std_sort_In.
Qed.

Lemma compute_entities_stores_sorted_tuple_witness :
  entity_vertices two_triangles_edges 1
    (nth 0 (incident two_triangles_edges (tdim two_triangles_edges) 1 1) 0)
  = std_sort (nth 0 (cell_entities two_triangles_edges 1 1) []) /\
  forall v,
    In v (entity_vertices two_triangles_edges 1
            (nth 0 (incident two_triangles_edges (tdim two_triangles_edges) 1 1) 0))
    <-> In v (nth 0 (cell_entities two_triangles_edges 1 1) []).
Proof.
  apply (@compute_entities_stores_sorted_tuple 4 two_triangles 1 5 two_triangles_edges).
  - exact two_triangles_edges_computed.
  - reflexivity.
  - vm_compute. lia.
  - vm_compute. lia.
  - vm_compute. lia.
Defined.

(** C10: every row of the incidence [Conn[d][0]] that [compute_entities(d)]
    builds holds the vertex indices of its entity in ascending order: the
    incidence has one row per entity counted, and each row is the sorted
    tuple of a slot of a cell, as the cell loop found it on the mesh left by
    the request for the incidence [(D, D)]. *)
Theorem compute_entities_rows_ascending
    (fuel : nat) (mesh : Mesh) (dim n : nat) (mesh' : Mesh) :
  compute_entities fuel mesh dim = Done n mesh' ->
  tsize mesh dim = 0 ->
  MeshConnectivity.size (conn mesh' dim 0) = n /\
  (forall e, StronglySorted le (entity_vertices mesh' dim e)) /\
  exists fuel' mesh1,
    compute_connectivity fuel' mesh (tdim mesh) (tdim mesh) = Done tt mesh1 /\
    forall e, e < n -> exists c k,
      c < num_cells mesh1 /\ k < length (cell_entities mesh1 dim c) /\
      entity_vertices mesh' dim e = std_sort (nth k (cell_entities mesh1 dim c) []).
Proof.
  intros H Z.
  destruct (compute_entities_fresh _ _ _ H Z)
    as (fuel' & mesh1 & -> & _ & _ & C & -> & ->).
  pose proof (synthesize_inv mesh1 dim) as I.
  unfold entity_vertices. rewrite store_entities_ev.
  split; [reflexivity|]. split.
  - intros e. unfold MeshConnectivity.row. apply nth_Forall.
    + apply (si_sorted I).
    + constructor.
  - exists fuel', mesh1. split; [exact C|]. intros e He.
    destruct (si_ev I He) as (c & Hin).
    destruct (si_list I _ _ _ Hin) as (_ & _ & k & V & Hk & Ht).
    exists c, k. destruct V as [V|[_ V]]; [|lia].
    repeat split; assumption.
Qed.

Lemma compute_entities_rows_ascending_witness :
  MeshConnectivity.size (conn two_triangles_edges 1 0) = 5 /\
  (forall e, StronglySorted le (entity_vertices two_triangles_edges 1 e)) /\
  exists fuel' mesh1,
    compute_connectivity fuel' two_triangles (tdim two_triangles) (tdim two_triangles)
      = Done tt mesh1 /\
    forall e, e < 5 -> exists c k,
      c < num_cells mesh1 /\ k < length (cell_entities mesh1 1 c) /\
      entity_vertices two_triangles_edges 1 e
        = std_sort (nth k (cell_entities mesh1 1 c) []).
Proof.
  apply (@compute_entities_rows_ascending 4 two_triangles 1 5 two_triangles_edges).
  - exact two_triangles_edges_computed.
  - reflexivity.
Defined.

(** ** Requests that are already answered *)

Lemma synthesize_no_cells (mesh : Mesh) (dim : nat) :
  num_cells mesh = 0 -> connectivity_ev (synthesize mesh dim) = [].
Proof.
  intros H. unfold synthesize, mesh_entities. fold (num_cells mesh).
  rewrite H. reflexivity.
Qed.

(** Entities that were counted exist afterwards with their incidences. *)
Lemma compute_entities_then_exist (fuel : nat) (mesh : Mesh) (dim n : nat) (mesh' : Mesh) :
  compute_entities fuel mesh dim = Done n mesh' -> 0 < n ->
  entities_exist mesh' dim /\ tsize mesh' dim = n.
Proof.
  intros H Hn. destruct (Nat.eq_dec (tsize mesh dim) 0) as [Z|Z].
  - destruct (compute_entities_fresh _ _ _ H Z)
      as (fuel' & mesh1 & -> & _ & _ & C & -> & ->).
    set (s := synthesize mesh1 dim) in *.
    assert (T : tsize (store_entities mesh1 dim s) dim = length (connectivity_ev s))
      by apply store_entities_tsize_eq.
    split; [|exact T]. split; [lia|]. split.
    + rewrite store_entities_tdim.
      destruct (Nat.eq_dec dim (tdim mesh1)) as [E|E]; [left; exact E|right].
      rewrite store_entities_ce by (left; congruence).
      unfold MeshConnectivity.size, s.
      rewrite (si_len_ce (synthesize_inv mesh1 dim)).
      destruct (num_cells mesh1) eqn:E0; [|lia].
      unfold s in Hn. rewrite (synthesize_no_cells _ _ E0) in Hn. simpl in Hn. lia.
    + right. rewrite store_entities_ev. exact Hn.
  - destruct (compute_entities_cached _ _ _ H) as (-> & -> & Hex); [lia|]. auto.
Qed.

(** C7: a request for an incidence that is present, or for entities that
    exist together with their incidences, returns the mesh unchanged; in
    particular a request repeated after a call that produced the incidence
    (or counted at least one entity) returns the very mesh the first call
    left. *)
Theorem recomputation_is_noop (fuel : nat) (mesh : Mesh) :
  (forall d0 d1, 0 < MeshConnectivity.size (conn mesh d0 d1) ->
     compute_connectivity (S fuel) mesh d0 d1 = Done tt mesh) /\
  (forall d, entities_exist mesh d ->
     compute_entities (S fuel) mesh d = Done (tsize mesh d) mesh) /\
  (forall fuel0 d0 d1 mesh', compute_connectivity fuel0 mesh d0 d1 = Done tt mesh' ->
     0 < MeshConnectivity.size (conn mesh' d0 d1) ->
     compute_connectivity (S fuel) mesh' d0 d1 = Done tt mesh') /\
  (forall fuel0 d n mesh', compute_entities fuel0 mesh d = Done n mesh' -> 0 < n ->
     compute_entities (S fuel) mesh' d = Done n mesh').
Proof.
  split; [|split; [|split]].
  - intros d0 d1. apply compute_connectivity_present.
  - intros d. apply compute_entities_exist.
  - intros fuel0 d0 d1 mesh' _. apply compute_connectivity_present.
  - intros fuel0 d n mesh' H Hn.
    destruct (compute_entities_then_exist _ _ _ H Hn) as [Hex <-].
    now apply compute_entities_exist.
Qed.

Lemma recomputation_is_noop_witness :
  compute_connectivity 1 two_triangles_edges 2 1 = Done tt two_triangles_edges /\
  compute_entities 1 two_triangles_edges 1 = Done 5 two_triangles_edges.
Proof.
  split.
  - apply (proj1 (recomputation_is_noop 0 two_triangles_edges)).
    vm_compute. lia.
  - apply (proj2 (proj2 (proj2 (recomputation_is_noop 0 two_triangles))) 4 1 5).
    + exact two_triangles_edges_computed.
    + lia.
Defined.

(** ** Inconsistent topologies *)

(** C8: when the entities of dimension [dim] exist and a connectivity that
    defines them is missing, or when such a connectivity exists and the
    entities do not, [compute_entities] stops with a fatal error and the mesh
    it hands back is the mesh it was given. *)
Theorem compute_entities_inconsistent_is_fatal (fuel : nat) (mesh : Mesh) (dim : nat) :
  (0 < tsize mesh dim ->
   (MeshConnectivity.size (conn mesh (tdim mesh) dim) = 0 /\ dim <> tdim mesh) \/
   (MeshConnectivity.size (conn mesh dim 0) = 0 /\ dim <> 0) ->
   compute_entities (S fuel) mesh dim = Fatal (EntitiesWithoutConnectivity dim) mesh) /\
  (tsize mesh dim = 0 ->
   0 < MeshConnectivity.size (conn mesh (tdim mesh) dim) \/
   0 < MeshConnectivity.size (conn mesh dim 0) ->
   compute_entities (S fuel) mesh dim = Fatal (ConnectivityWithoutEntities dim) mesh).
Proof.
  split; intros Hn H; rewrite compute_entities_S; unfold compute_entities_body.
  - rewrite (ltb_0_true Hn).
    destruct H as [[H1 H2]|[H1 H2]].
    + rewrite H1. apply Nat.eqb_neq in H2. rewrite H2. reflexivity.
    + rewrite H1. apply Nat.eqb_neq in H2. rewrite H2. simpl.
      rewrite orb_true_r. reflexivity.
  - rewrite (ltb_0_false Hn).
    destruct H as [H|H]; rewrite (ltb_0_true H); [reflexivity|].
    rewrite orb_true_r. reflexivity.
Qed.

Lemma compute_entities_inconsistent_is_fatal_witness :
  compute_entities 1 edges_without_vertices 1
    = Fatal (EntitiesWithoutConnectivity 1) edges_without_vertices /\
  compute_entities 1 vertices_without_edges 1
    = Fatal (ConnectivityWithoutEntities 1) vertices_without_edges.
Proof.
  split.
  - apply (proj1 (compute_entities_inconsistent_is_fatal 0 edges_without_vertices 1)).
    + vm_compute. lia.
    + left. split; [reflexivity|]. vm_compute. lia.
  - apply (proj2 (compute_entities_inconsistent_is_fatal 0 vertices_without_edges 1)).
    + reflexivity.
    + right. vm_compute. lia.
Defined.

(** ** The strategy of [compute_connectivity] *)

Lemma ensure_entities_same_shape (fuel : nat) (mesh : Mesh) (d : nat) (mesh' : Mesh) :
  ensure_entities (compute_entities fuel) mesh d = Done tt mesh' ->
  same_shape mesh mesh'.
Proof.
  intros H. destruct (ensure_entities_Done _ _ _ H) as [[_ ->]|[_ [n Hn]]].
  - split; reflexivity.
  - eapply (proj2 (returned_calls_same_shape fuel)). exact Hn.
Qed.

(** The part of [compute_connectivity] that follows the early returns, for a
    request that is not answered from the store. *)
Lemma compute_connectivity_miss (fuel : nat) (mesh : Mesh) (d0 d1 : nat) (m1 m2 : Mesh) :
  MeshConnectivity.size (conn mesh d0 d1) = 0 ->
  ensure_entities (compute_entities fuel) mesh d0 = Done tt m1 ->
  ensure_entities (compute_entities fuel) m1 d1 = Done tt m2 ->
  compute_connectivity (S fuel) mesh d0 d1 =
    if (tsize m2 d0 =? 0) && (tsize m2 d1 =? 0) then Done tt m2
    else if 0 <? MeshConnectivity.size (conn m2 d0 d1) then Done tt m2
    else dispatch (compute_connectivity fuel) m2 d0 d1.
Proof.
  intros A E1 E2. rewrite compute_connectivity_S. unfold compute_connectivity_body.
  rewrite (ltb_0_false A), E1. simpl. rewrite E2. reflexivity.
Qed.

(** C3: on a request that is not answered from the store (the incidence is
    absent before and after the entities of both dimensions are ensured, and
    the two counts are not both zero), [compute_connectivity(d0, d1)] with
    [d0 < d1] computes [(d1, d0)] and takes the transpose; otherwise, under
    the assertion of the source that the request is not [(d0 > 0, 0)], it
    computes [(d0, d)] and [(d, d1)] and takes the intersection, where [d] is
    [D] when [d0 = d1 = 0] and [0] in every other case. *)
Theorem compute_connectivity_strategy
    (fuel : nat) (mesh : Mesh) (d0 d1 : nat) (m1 m2 : Mesh) :
  MeshConnectivity.size (conn mesh d0 d1) = 0 ->
  ensure_entities (compute_entities fuel) mesh d0 = Done tt m1 ->
  ensure_entities (compute_entities fuel) m1 d1 = Done tt m2 ->
  0 < tsize m2 d0 + tsize m2 d1 ->
  MeshConnectivity.size (conn m2 d0 d1) = 0 ->
  (d0 < d1 ->
   compute_connectivity (S fuel) mesh d0 d1 =
     bind (compute_connectivity fuel m2 d1 d0) (fun _ m =>
     compute_from_transpose m d0 d1)) /\
  (d1 <= d0 -> ~ (0 < d0 /\ d1 = 0) ->
   exists d,
     (d0 = 0 /\ d1 = 0 -> d = tdim mesh) /\
     (~ (d0 = 0 /\ d1 = 0) -> d = 0) /\
     compute_connectivity (S fuel) mesh d0 d1 =
       bind (compute_connectivity fuel m2 d0 d) (fun _ m =>
       bind (compute_connectivity fuel m d d1) (fun _ m =>
       compute_from_intersection m d0 d1 d))).
Proof.
  intros A E1 E2 Hn B.
  rewrite (@compute_connectivity_miss fuel mesh d0 d1 m1 m2 A E1 E2).
  assert (Z : (tsize m2 d0 =? 0) && (tsize m2 d1 =? 0) = false).
  { destruct (Nat.eqb_spec (tsize m2 d0) 0), (Nat.eqb_spec (tsize m2 d1) 0);
      simpl; auto; lia. }
  rewrite Z, (ltb_0_false B). unfold dispatch.
  split.
  - intros L. apply Nat.ltb_lt in L. rewrite L. reflexivity.
  - intros L NA.
    assert (L' : (d0 <? d1) = false) by (apply Nat.ltb_ge; exact L).
    assert (NA' : negb ((0 <? d0) && (d1 =? 0)) = true).
    { destruct (Nat.ltb_spec 0 d0), (Nat.eqb_spec d1 0); simpl; auto;
        exfalso; apply NA; auto. }
    rewrite L', NA'. simpl.
    exists (intermediate m2 d0 d1). split; [|split; [|reflexivity]].
    + intros [-> ->]. unfold intermediate. simpl.
      destruct (ensure_entities_same_shape _ _ _ E1) as [T1 _].
      destruct (ensure_entities_same_shape _ _ _ E2) as [T2 _].
      congruence.
    + intros N. unfold intermediate.
      destruct (Nat.eqb_spec d0 0), (Nat.eqb_spec d1 0); simpl; auto;
        exfalso; apply N; auto.
Qed.

Lemma compute_connectivity_strategy_witness :
  (0 < 2 ->
   compute_connectivity 3 two_triangles 0 2 =
     bind (compute_connectivity 2 two_triangles 2 0) (fun _ m =>
     compute_from_transpose m 0 2)) /\
  (2 <= 0 -> ~ (0 < 0 /\ 2 = 0) ->
   exists d,
     (0 = 0 /\ 2 = 0 -> d = tdim two_triangles) /\
     (~ (0 = 0 /\ 2 = 0) -> d = 0) /\
     compute_connectivity 3 two_triangles 0 2 =
       bind (compute_connectivity 2 two_triangles 0 d) (fun _ m =>
       bind (compute_connectivity 2 m d 2) (fun _ m =>
       compute_from_intersection m 0 2 d))).
Proof.
  apply (@compute_connectivity_strategy 2 two_triangles 0 2 two_triangles two_triangles).
  - reflexivity.
  - reflexivity.
  - reflexivity.
  - vm_compute. lia.
  - reflexivity.
Defined.

(** ** Intersection *)

Lemma fold_left_flat_map {A B C : Type} (f : A -> C -> A) (g : B -> list C)
    (l : list B) (a : A) :
  fold_left (fun a x => fold_left f (g x) a) l a = fold_left f (flat_map g l) a.
Proof.
  revert a. induction l as [|x l IH]; intros a; simpl; [reflexivity|].
  rewrite fold_left_app. apply IH.
Qed.

(** A loop that rewrites entry [e] of a vector at step [e], for [e] running
    over a range, leaves in every entry of the range what its own step
    wrote. *)
Lemma nth_fold_alter_seq {A : Type} (F : nat -> A -> A) (d : A) (i k a : nat) (l : list A) :
  nth i (fold_left (fun acc e => list_alter (F e) e acc) (seq a k) l) d =
  if (a <=? i) && (i <? a + k) && (i <? length l) then F i (nth i l d) else nth i l d.
Proof.
  revert a l. induction k as [|k IH]; intros a l; simpl.
  - replace (i <? a + 0) with (i <? a) by (f_equal; lia).
    destruct (Nat.leb_spec a i), (Nat.ltb_spec i a); simpl; auto; lia.
  - rewrite IH. rewrite list_alter_length.
    destruct (Nat.eq_dec i a) as [->|Hne].
    + replace (S a <=? a) with false by (symmetry; apply Nat.leb_gt; lia).
      simpl. rewrite Nat.leb_refl.
      replace (a <? a + S k) with true by (symmetry; apply Nat.ltb_lt; lia).
      simpl. destruct (Nat.ltb_spec a (length l)) as [L|L].
      * now apply nth_list_alter_eq.
      * now rewrite list_alter_ge.
    + rewrite nth_list_alter_ne by auto.
      replace (i <? S a + k) with (i <? a + S k) by (f_equal; lia).
      destruct (Nat.leb_spec (S a) i), (Nat.leb_spec a i); simpl; auto; lia.
Qed.

Lemma intersection_rows_row (mesh : Mesh) (d0 d1 d e0 : nat) :
  MeshConnectivity.row (intersection_rows mesh d0 d1 d) e0 =
  if e0 <? tsize mesh d0 then collect_row mesh d0 d1 d e0 [] else [].
Proof.
  unfold MeshConnectivity.row, intersection_rows, mesh_entities.
  rewrite nth_fold_alter_seq. rewrite repeat_length, nth_repeat_nil. simpl.
  destruct (Nat.ltb_spec e0 (tsize mesh d0)); reflexivity.
Qed.

Lemma intersection_rows_length (mesh : Mesh) (d0 d1 d : nat) :
  length (intersection_rows mesh d0 d1 d) = tsize mesh d0.
Proof.
  unfold intersection_rows.
  assert (G : forall l acc,
             length (fold_left (fun connectivity e0 =>
                       list_alter (collect_row mesh d0 d1 d e0) e0 connectivity) l acc)
             = length acc).
  { induction l as [|x l IH]; intros acc; simpl; [reflexivity|].
    rewrite IH. apply list_alter_length. }
  rewrite G. apply repeat_length.
Qed.

Lemma collect_unfold (mesh : Mesh) (d0 d1 e0 : nat) (entities : list nat) (e1 : nat) :
  collect mesh d0 d1 e0 entities e1 =
  if accepted_candidate mesh d0 d1 e0 e1 && negb (std_find e1 entities)
  then entities ++ [e1] else entities.
Proof.
  unfold collect, accepted_candidate. destruct (d0 =? d1); reflexivity.
Qed.

Lemma collect_fold_spec (mesh : Mesh) (d0 d1 e0 : nat) (cands entities : list nat) :
  NoDup entities ->
  NoDup (fold_left (collect mesh d0 d1 e0) cands entities) /\
  forall e1, In e1 (fold_left (collect mesh d0 d1 e0) cands entities) <->
             In e1 entities \/ (In e1 cands /\ accepted_candidate mesh d0 d1 e0 e1 = true).
Proof.
  revert entities. induction cands as [|x cands IH]; intros entities ND; simpl.
  - split; [exact ND|]. intros e1. tauto.
  - rewrite collect_unfold.
    destruct (accepted_candidate mesh d0 d1 e0 x) eqn:K; simpl.
    + destruct (std_find x entities) eqn:F; simpl.
      * destruct (IH entities ND) as [H1 H2]. split; [exact H1|].
        intros e1. rewrite H2. apply std_find_In in F.
        split; [tauto|]. intros [H|[[->|H] H']]; auto.
      * apply std_find_not_In in F.
        assert (ND' : NoDup (entities ++ [x])).
        { apply NoDup_app; [exact ND|repeat constructor; auto|].
          intros y Hy [<-|[]]. auto. }
        destruct (IH _ ND') as [H1 H2]. split; [exact H1|].
        intros e1. rewrite H2. rewrite in_app_iff. simpl.
        split; [intros [[H|[<-|[]]]|[H H']]; auto|].
        intros [H|[[->|H] H']]; auto.
    + destruct (IH entities ND) as [H1 H2]. split; [exact H1|].
      intros e1. rewrite H2. split; [tauto|].
      intros [H|[[->|H] H']]; auto. congruence.
Qed.

Lemma contains_spec (v0 v1 : list nat) :
  contains v0 v1 = true <-> forall v, In v v1 -> In v v0.
Proof.
  unfold contains. rewrite forallb_forall. split; intros H v Hv.
  - specialize (H v Hv). apply existsb_exists in H.
    destruct H as (x & Hx & E). apply Nat.eqb_eq in E. now subst.
  - apply existsb_exists. exists v. split; [now apply H|apply Nat.eqb_refl].
Qed.

Lemma collect_row_candidates (mesh : Mesh) (d0 d1 d e0 : nat) (entities : list nat) :
  collect_row mesh d0 d1 d e0 entities =
  fold_left (collect mesh d0 d1 e0) (candidates mesh d0 d1 d e0) entities.
Proof. unfold collect_row, candidates. apply fold_left_flat_map. Qed.

(** C5: in the incidence that [compute_from_intersection(d0, d1, d)] stores,
    the row of a source entity [e0] has no entity twice and holds exactly
    the candidates [e1] of the composition walk that differ from [e0], when
    [d0 = d1], or whose vertices all are vertices of [e0], when [d0 > d1];
    when [d0 = d1] the row does not hold [e0] itself. *)
Theorem compute_from_intersection_rows
    (mesh : Mesh) (d0 d1 d : nat) (mesh' : Mesh) :
  compute_from_intersection mesh d0 d1 d = Done tt mesh' ->
  forall e0, e0 < tsize mesh d0 ->
    NoDup (incident mesh' d0 e0 d1) /\
    (forall e1, In e1 (incident mesh' d0 e0 d1) <->
       In e1 (candidates mesh d0 d1 d e0) /\
       (d0 = d1 -> e1 <> e0) /\
       (d1 < d0 -> forall v, In v (entity_vertices mesh d1 e1) ->
                             In v (entity_vertices mesh d0 e0))) /\
    (d0 = d1 -> ~ In e0 (incident mesh' d0 e0 d1)).
Proof.
  intros H e0 He0.
  destruct (compute_from_intersection_Done _ _ _ _ H) as (L & _ & _ & ->).
  unfold incident. rewrite conn_set_conn_eq, intersection_rows_row.
  apply Nat.ltb_lt in He0. rewrite He0.
  rewrite collect_row_candidates.
  destruct (collect_fold_spec mesh d0 d1 e0 (candidates mesh d0 d1 d e0) (NoDup_nil _))
    as [ND M].
  assert (K : forall e1, accepted_candidate mesh d0 d1 e0 e1 = true <->
                (d0 = d1 -> e1 <> e0) /\
                (d1 < d0 -> forall v, In v (entity_vertices mesh d1 e1) ->
                                      In v (entity_vertices mesh d0 e0))).
  { intros e1. unfold accepted_candidate.
    destruct (Nat.eqb_spec d0 d1) as [E|E].
    - rewrite negb_true_iff, Nat.eqb_neq. split.
      + intros Hne. split; [intros _; congruence|intros; lia].
      + intros [Hne _]. specialize (Hne E). congruence.
    - unfold contains_entity. rewrite contains_spec. split.
      + intros Hc. split; [intros; congruence|intros _; exact Hc].
      + intros [_ Hc]. apply Hc. lia. }
  split; [exact ND|]. split.
  - intros e1. rewrite M, K. simpl. tauto.
  - intros E Hin. apply M in Hin. destruct Hin as [[]|[_ Hin]].
    apply K in Hin. destruct Hin as [Hne _]. now apply Hne.
Qed.

(** ** Transpose *)

Lemma fold_left_map {A B C : Type} (f : A -> C -> A) (g : B -> C) (l : list B) (a : A) :
  fold_left f (map g l) a = fold_left (fun a x => f a (g x)) l a.
Proof.
  revert a. induction l as [|x l IH]; intros a; simpl; auto.
Qed.

Lemma count_connections_pairs (mesh : Mesh) (d0 d1 : nat) (tmp : list nat) :
  count_connections mesh d0 d1 tmp =
  fold_left (fun tmp p => incr_at (snd p) tmp) (incidence_pairs mesh d0 d1) tmp.
Proof.
  unfold count_connections, incidence_pairs.
  rewrite <- fold_left_flat_map. revert tmp.
  induction (mesh_entities mesh d1) as [|e1 l IH]; intros tmp; simpl; [reflexivity|].
  rewrite fold_left_map. simpl. apply IH.
Qed.

Lemma add_connections_pairs (mesh : Mesh) (d0 d1 : nat) (s : MeshConnectivity.t * list nat) :
  add_connections mesh d0 d1 s =
  fold_left (fun s p => add_connection (fst p) s (snd p)) (incidence_pairs mesh d0 d1) s.
Proof.
  unfold add_connections, incidence_pairs.
  rewrite <- fold_left_flat_map. revert s.
  induction (mesh_entities mesh d1) as [|e1 l IH]; intros s; simpl; [reflexivity|].
  rewrite fold_left_map. simpl. apply IH.
Qed.

Lemma sources_of_cons (e0 : nat) (p : nat * nat) (P : list (nat * nat)) :
  sources_of e0 (p :: P) = (if snd p =? e0 then [fst p] else []) ++ sources_of e0 P.
Proof. unfold sources_of. simpl. destruct (snd p =? e0); reflexivity. Qed.

(** First pass: the counter of [e0] grows by the number of pairs of [e0]. *)
Lemma count_fold (P : list (nat * nat)) (tmp : list nat) :
  length (fold_left (fun tmp p => incr_at (snd p) tmp) P tmp) = length tmp /\
  forall e0, e0 < length tmp ->
    nth e0 (fold_left (fun tmp p => incr_at (snd p) tmp) P tmp) 0
    = nth e0 tmp 0 + length (sources_of e0 P).
Proof.
  revert tmp. induction P as [|p P IH]; intros tmp; simpl.
  - split; [reflexivity|]. intros. lia.
  - destruct (IH (incr_at (snd p) tmp)) as [L H].
    unfold incr_at in *. rewrite list_alter_length in *.
    split; [exact L|]. intros e0 He0. rewrite (H e0 He0).
    rewrite sources_of_cons, length_app.
    destruct (Nat.eqb_spec (snd p) e0) as [->|Hne]; simpl.
    + rewrite nth_list_alter_eq by exact He0. lia.
    + now rewrite nth_list_alter_ne by exact Hne.
Qed.

Lemma fill_inv_ext (n : nat) (pre pre' : nat -> list nat) (k k' : nat -> nat)
    (s : MeshConnectivity.t * list nat) :
  (forall e0, e0 < n -> pre e0 = pre' e0 /\ k e0 = k' e0) ->
  fill_inv n pre k s -> fill_inv n pre' k' s.
Proof.
  intros E (L1 & L2 & H). split; [exact L1|]. split; [exact L2|].
  intros e0 He0. destruct (E e0 He0) as [<- <-]. now apply H.
Qed.

Lemma list_alter_write {A : Type} (x y : A) (pre post : list A) :
  list_alter (fun _ => x) (length pre) (pre ++ y :: post) = pre ++ x :: post.
Proof. induction pre as [|z pre IH]; simpl; [reflexivity|]. now rewrite IH. Qed.

Lemma fill_step (n : nat) (pre : nat -> list nat) (k : nat -> nat)
    (s : MeshConnectivity.t * list nat) (p : nat * nat) :
  fill_inv n pre k s ->
  (forall e0, e0 < n -> length (sources_of e0 [p]) <= k e0) ->
  fill_inv n (fun e0 => pre e0 ++ sources_of e0 [p])
             (fun e0 => k e0 - length (sources_of e0 [p]))
             (add_connection (fst p) s (snd p)).
Proof.
  intros (L1 & L2 & H) Hk. unfold add_connection, MeshConnectivity.set_entry, incr_at.
  split; [simpl; now rewrite list_alter_length|].
  split; [simpl; now rewrite list_alter_length|].
  intros e0 He0. simpl. destruct (H e0 He0) as [Hrow Hcur].
  specialize (Hk e0 He0). rewrite sources_of_cons in *. simpl in *.
  destruct (Nat.eqb_spec (snd p) e0) as [->|Hne]; simpl in *.
  - rewrite !nth_list_alter_eq by lia. rewrite Hrow, Hcur, length_app. simpl.
    destruct (k e0) as [|k0]; [lia|]. simpl.
    rewrite list_alter_write. rewrite <- app_assoc. simpl.
    rewrite Nat.sub_0_r. split; [reflexivity|lia].
  - rewrite !nth_list_alter_ne by exact Hne.
    rewrite !app_nil_r, Nat.sub_0_r. auto.
Qed.

Lemma fill_fold (n : nat) (P : list (nat * nat)) :
  forall (pre : nat -> list nat) (k : nat -> nat) (s : MeshConnectivity.t * list nat),
  fill_inv n pre k s ->
  (forall e0, e0 < n -> length (sources_of e0 P) <= k e0) ->
  fill_inv n (fun e0 => pre e0 ++ sources_of e0 P)
             (fun e0 => k e0 - length (sources_of e0 P))
             (fold_left (fun s p => add_connection (fst p) s (snd p)) P s).
Proof.
  induction P as [|p P IH]; intros pre k s I Hk; simpl.
  - apply (@fill_inv_ext n pre _ k _ s); [|exact I].
    intros e0 _. unfold sources_of. simpl. rewrite app_nil_r. split; [reflexivity|lia].
  - assert (Hsplit : forall e0, sources_of e0 (p :: P) = sources_of e0 [p] ++ sources_of e0 P).
    { intros e0. rewrite !sources_of_cons. unfold sources_of at 3. simpl.
      now rewrite app_nil_r. }
    eapply fill_inv_ext; [|apply IH; [apply (@fill_step n pre k s p I)|]].
    + intros e0 He0. simpl. rewrite Hsplit, length_app, app_assoc. split; [reflexivity|lia].
    + intros e0 He0. specialize (Hk e0 He0). rewrite Hsplit, length_app in Hk. lia.
    + intros e0 He0. simpl. specialize (Hk e0 He0). rewrite Hsplit, length_app in Hk. lia.
Qed.

(** The two passes together write, into the row of [e0], the sources of the
    pairs of [e0] in the order of the iteration. *)
Lemma transpose_rows_row (mesh : Mesh) (d0 d1 e0 : nat) :
  MeshConnectivity.row (transpose_rows mesh d0 d1) e0 =
  if e0 <? tsize mesh d0 then sources_of e0 (incidence_pairs mesh d0 d1) else [].
Proof.
  unfold transpose_rows. rewrite add_connections_pairs, count_connections_pairs.
  set (P := incidence_pairs mesh d0 d1). set (n := tsize mesh d0).
  destruct (count_fold P (repeat 0 n)) as [L C]. rewrite repeat_length in L, C.
  set (counts := fold_left (fun tmp p => incr_at (snd p) tmp) P (repeat 0 n)) in *.
  assert (I : fill_inv n (fun _ => []) (fun e0 => length (sources_of e0 P))
                (MeshConnectivity.init counts, repeat 0 (length counts))).
  { unfold MeshConnectivity.init. split; [simpl; now rewrite length_map|].
    split; [simpl; now rewrite repeat_length|].
    intros e He. simpl. split.
    - rewrite (nth_indep _ [] (repeat 0 0)) by (rewrite length_map; lia).
      rewrite map_nth. rewrite (C e He). f_equal.
      rewrite nth_repeat. reflexivity.
    - now rewrite nth_repeat. }
  pose proof (@fill_fold n P _ _ _ I (fun e _ => Nat.le_refl _)) as (L1 & _ & H).
  unfold MeshConnectivity.row.
  destruct (Nat.ltb_spec e0 n) as [He|He].
  - destruct (H e0 He) as [Hrow _]. rewrite Hrow. simpl.
    rewrite Nat.sub_diag. simpl. apply app_nil_r.
  - apply nth_overflow. lia.
Qed.

Lemma transpose_rows_length (mesh : Mesh) (d0 d1 : nat) :
  length (transpose_rows mesh d0 d1) = tsize mesh d0.
Proof.
  unfold transpose_rows. rewrite add_connections_pairs, count_connections_pairs.
  set (P := incidence_pairs mesh d0 d1). set (n := tsize mesh d0).
  destruct (count_fold P (repeat 0 n)) as [L C]. rewrite repeat_length in L.
  assert (G : forall Q s, length (fst (fold_left
                (fun s p => add_connection (fst p) s (snd p)) Q s)) = length (fst s)).
  { induction Q as [|q Q IH]; intros s; simpl; [reflexivity|].
    rewrite IH. unfold add_connection, MeshConnectivity.set_entry. simpl.
    apply list_alter_length. }
  rewrite G. simpl. unfold MeshConnectivity.init. now rewrite length_map.
Qed.

Lemma sources_of_app (e0 : nat) (P Q : list (nat * nat)) :
  sources_of e0 (P ++ Q) = sources_of e0 P ++ sources_of e0 Q.
Proof. unfold sources_of. now rewrite filter_app, map_app. Qed.

Lemma sources_of_row (e0 e1 : nat) (row : list nat) :
  sources_of e0 (map (pair e1) row) = repeat e1 (count_occ Nat.eq_dec row e0).
Proof.
  induction row as [|x row IH]; simpl; [reflexivity|].
  rewrite sources_of_cons, IH. simpl.
  destruct (Nat.eqb_spec x e0) as [E|E]; destruct (Nat.eq_dec x e0); try congruence;
    reflexivity.
Qed.

Lemma sources_of_incidence_pairs (mesh : Mesh) (d0 d1 e0 : nat) :
  sources_of e0 (incidence_pairs mesh d0 d1) =
  flat_map (fun e1 => repeat e1 (count_occ Nat.eq_dec (incident mesh d1 e1 d0) e0))
           (mesh_entities mesh d1).
Proof.
  unfold incidence_pairs.
  induction (mesh_entities mesh d1) as [|e1 l IH]; simpl; [reflexivity|].
  now rewrite sources_of_app, sources_of_row, IH.
Qed.

Lemma In_sources_of (e0 e1 : nat) (P : list (nat * nat)) :
  In e1 (sources_of e0 P) <-> In (e1, e0) P.
Proof.
  unfold sources_of. rewrite in_map_iff. split.
  - intros ([a b] & E & H). apply filter_In in H. destruct H as [H1 H2].
    simpl in *. apply Nat.eqb_eq in H2. now subst.
  - intros H. exists (e1, e0). split; [reflexivity|].
    apply filter_In. split; [exact H|]. simpl. apply Nat.eqb_refl.
Qed.

Lemma In_incidence_pairs (mesh : Mesh) (d0 d1 e0 e1 : nat) :
  In (e1, e0) (incidence_pairs mesh d0 d1) <->
  e1 < tsize mesh d1 /\ In e0 (incident mesh d1 e1 d0).
Proof.
  unfold incidence_pairs, mesh_entities. rewrite in_flat_map. split.
  - intros (x & Hx & H). apply in_seq in Hx. apply in_map_iff in H.
    destruct H as (y & E & Hy). inversion E. subst. split; [lia|exact Hy].
  - intros [H1 H2]. exists e1. split; [apply in_seq; lia|].
    apply in_map_iff. now exists e0.
Qed.

(** The transpose holds [e1] in the row of [e0] exactly when the incidence
    it is taken from holds [e0] in the row of [e1]. *)
Lemma transpose_rows_In (mesh : Mesh) (d0 d1 e0 e1 : nat) :
  e0 < tsize mesh d0 ->
  (In e1 (MeshConnectivity.row (transpose_rows mesh d0 d1) e0) <->
   e1 < tsize mesh d1 /\ In e0 (incident mesh d1 e1 d0)).
Proof.
  intros H. rewrite transpose_rows_row. apply Nat.ltb_lt in H. rewrite H.
  rewrite In_sources_of. apply In_incidence_pairs.
Qed.

Lemma flat_map_repeat_lower (cnt : nat -> nat) (a n x : nat) :
  In x (flat_map (fun e => repeat e (cnt e)) (seq a n)) -> a <= x.
Proof.
  rewrite in_flat_map. intros (e & He & Hx). apply in_seq in He.
  apply repeat_spec in Hx. lia.
Qed.

Lemma flat_map_repeat_ascending (cnt : nat -> nat) (n a : nat) :
  (forall e, a <= e < a + n -> cnt e <= 1) ->
  StronglySorted lt (flat_map (fun e => repeat e (cnt e)) (seq a n)).
Proof.
  revert a. induction n as [|n IH]; intros a H; simpl; [constructor|].
  assert (IH' : StronglySorted lt (flat_map (fun e => repeat e (cnt e)) (seq (S a) n))).
  { apply IH. intros e He. apply H. lia. }
  assert (Ha : cnt a <= 1) by (apply H; lia).
  destruct (cnt a) as [|[|c]]; simpl; [exact IH'| |lia].
  constructor; [exact IH'|].
  apply Forall_forall. intros x Hx. apply flat_map_repeat_lower in Hx. lia.
Qed.

Lemma NoDup_count_occ_le (l : list nat) (x : nat) :
  NoDup l -> count_occ Nat.eq_dec l x <= 1.
Proof. intros H. now apply (proj1 (NoDup_count_occ Nat.eq_dec l)). Qed.

Lemma flat_map_repeat_nondecreasing (cnt : nat -> nat) (n a : nat) :
  StronglySorted le (flat_map (fun e => repeat e (cnt e)) (seq a n)).
Proof.
  revert a. induction n as [|n IH]; intros a; simpl; [constructor|].
  induction (cnt a) as [|c IHc]; simpl; [apply IH|].
  constructor; [exact IHc|].
  apply Forall_forall. intros x Hx. apply in_app_or in Hx. destruct Hx as [Hx|Hx].
  - apply repeat_spec in Hx. lia.
  - apply flat_map_repeat_lower in Hx. lia.
Qed.

(** Whatever the incidence it is taken from, the rows of the transpose are
    in ascending order; an entity that a source row holds twice is held
    twice. *)
Lemma compute_from_transpose_rows_nondecreasing
    (mesh : Mesh) (d0 d1 : nat) (mesh' : Mesh) :
  compute_from_transpose mesh d0 d1 = Done tt mesh' ->
  forall e0, StronglySorted le (incident mesh' d0 e0 d1).
Proof.
  intros H e0.
  destruct (compute_from_transpose_Done _ _ _ H) as (_ & ->).
  unfold incident. rewrite conn_set_conn_eq, transpose_rows_row.
  destruct (e0 <? tsize mesh d0); [|constructor].
  rewrite sources_of_incidence_pairs. unfold mesh_entities.
  apply flat_map_repeat_nondecreasing.
Qed.

(** C6: in the incidence that [compute_from_transpose(d0, d1)] stores from
    an incidence [(d1, d0)] whose rows hold no entity twice, the entries of
    every row are in strictly ascending order.  (The source calls the
    function with [d0 < d1] only.) *)
Theorem compute_from_transpose_rows_ascending
    (mesh : Mesh) (d0 d1 : nat) (mesh' : Mesh) :
  compute_from_transpose mesh d0 d1 = Done tt mesh' ->
  d0 < d1 ->
  (forall e1, e1 < tsize mesh d1 -> NoDup (incident mesh d1 e1 d0)) ->
  forall e0, StronglySorted lt (incident mesh' d0 e0 d1).
Proof.
  intros H L ND e0.
  destruct (compute_from_transpose_Done _ _ _ H) as (_ & ->).
  unfold incident at 1. rewrite conn_set_conn_eq, transpose_rows_row.
  destruct (e0 <? tsize mesh d0); [|constructor].
  rewrite sources_of_incidence_pairs. unfold mesh_entities.
  apply flat_map_repeat_ascending. intros e He.
  apply NoDup_count_occ_le. apply ND. lia.
Qed.

Lemma compute_from_transpose_rows_ascending_witness :
  StronglySorted lt (incident two_triangles_vc 0 1 2).
Proof.
  apply (@compute_from_transpose_rows_ascending two_triangles 0 2 two_triangles_vc).
  - vm_compute. reflexivity.
  - lia.
  - intros e1 H. change (tsize two_triangles 2) with 2 in H.
    destruct e1 as [|[|e1]]; [| |lia]; vm_compute; repeat constructor; simpl;
      intuition discriminate.
Defined.

Lemma compute_from_intersection_rows_witness :
  NoDup (incident two_triangles_cc 2 0 2) /\
  (forall e1, In e1 (incident two_triangles_cc 2 0 2) <->
     In e1 (candidates two_triangles_vc 2 2 0 0) /\
     (2 = 2 -> e1 <> 0) /\
     (2 < 2 -> forall v, In v (entity_vertices two_triangles_vc 2 e1) ->
                         In v (entity_vertices two_triangles_vc 2 0))) /\
  (2 = 2 -> ~ In 0 (incident two_triangles_cc 2 0 2)).
Proof.
  apply (@compute_from_intersection_rows two_triangles_vc 2 2 0 two_triangles_cc).
  - vm_compute. reflexivity.
  - vm_compute. lia.
Defined.

(** ** Meshes as they are after construction *)

Lemma constructed_set_conn (m : Mesh) (d0 d1 : nat) (c : MeshConnectivity.t) :
  constructed m ->
  ((d0, d1) = (tdim m, 0) -> 0 < length c) ->
  constructed (set_conn m d0 d1 c).
Proof.
  intros (H0 & HD & HC) Hc. split; [exact H0|]. split; [exact HD|].
  rewrite tdim_set_conn.
  destruct (Nat.eq_dec d0 (tdim m)) as [->|E0].
  - destruct (Nat.eq_dec d1 0) as [->|E1].
    + rewrite conn_set_conn_eq. now apply Hc.
    + rewrite conn_set_conn_ne by congruence. exact HC.
  - rewrite conn_set_conn_ne by congruence. exact HC.
Qed.

Lemma constructed_store_entities (m : Mesh) (dim : nat) (s : synthesis) :
  constructed m -> dim <> 0 -> dim <> tdim m ->
  constructed (store_entities m dim s).
Proof.
  intros (C0 & CD & CC) H0 HD. split; [|split].
  - rewrite store_entities_tsize_ne by auto. exact C0.
  - unfold num_cells. rewrite store_entities_tdim.
    rewrite store_entities_tsize_ne by congruence. exact CD.
  - rewrite store_entities_tdim.
    rewrite store_entities_conn; [exact CC| |]; intros E; inversion E; congruence.
Qed.

Lemma returned_calls_keep_constructed (fuel : nat) :
  (forall mesh d0 d1 mesh',
     compute_connectivity fuel mesh d0 d1 = Done tt mesh' -> keeps_constructed mesh mesh') /\
  (forall mesh dim n mesh',
     compute_entities fuel mesh dim = Done n mesh' -> keeps_constructed mesh mesh').
Proof.
  assert (K : (forall mesh d0 d1 mesh',
                 compute_connectivity fuel mesh d0 d1 = Done tt mesh' ->
                 (constructed mesh -> constructed mesh') /\ tdim mesh' = tdim mesh) /\
              (forall mesh dim n mesh',
                 compute_entities fuel mesh dim = Done n mesh' ->
                 (constructed mesh -> constructed mesh') /\ tdim mesh' = tdim mesh)).
  { apply (@returned_calls_keep (fun m m' => constructed m -> constructed m')).
    - auto.
    - auto.
    - intros m d0 d1 L _ C.
      apply constructed_set_conn; [exact C|]. intros E. inversion E. lia.
    - intros m d0 d1 d L NA _ _ _ C.
      apply constructed_set_conn; [exact C|]. intros E. inversion E. subst.
      rewrite intersection_rows_length.
      assert (tdim m = 0)
        by (destruct (tdim m); [reflexivity|exfalso; apply NA; split; [lia|reflexivity]]).
      destruct C as (C0 & _). congruence.
    - intros m m1 dim Z _ _ H T C.
      assert (dim <> 0) by (destruct C as (A & _); intros ->; lia).
      assert (dim <> tdim m).
      { destruct C as (_ & A & _). unfold num_cells in A. intros ->. lia. }
      apply constructed_store_entities; [now apply H|assumption|congruence]. }
  destruct K as [K1 K2]. unfold keeps_constructed. split.
  - intros mesh d0 d1 mesh' H C. destruct (K1 _ _ _ _ H). auto.
  - intros mesh dim n mesh' H C. destruct (K2 _ _ _ _ H). auto.
Qed.

(** ** Termination *)

Lemma returned_bind {A B : Type} (r : outcome A) (k : A -> Mesh -> outcome B) :
  returned r -> (forall a m, r = Done a m -> returned (k a m)) -> returned (bind r k).
Proof.
  destruct r as [a m| |]; simpl; auto.
Qed.

Lemma returned_assert (b : bool) (mesh : Mesh) : returned (dolfin_assert b mesh).
Proof. destruct b; exact I. Qed.

Lemma compute_from_transpose_returned (mesh : Mesh) (d0 d1 : nat) :
  returned (compute_from_transpose mesh d0 d1).
Proof.
  unfold compute_from_transpose. apply returned_bind; [apply returned_assert|].
  intros. exact I.
Qed.

Lemma compute_from_intersection_returned (mesh : Mesh) (d0 d1 d : nat) :
  returned (compute_from_intersection mesh d0 d1 d).
Proof.
  unfold compute_from_intersection.
  repeat (apply returned_bind; [apply returned_assert|intros]).
  exact I.
Qed.

(** [compute_entities] returns as soon as the request for the incidence
    [(D, D)] that it makes does. *)
Lemma compute_entities_returned_step (fuel : nat) (mesh : Mesh) (dim : nat) :
  returned (compute_connectivity fuel mesh (tdim mesh) (tdim mesh)) ->
  returned (compute_entities (S fuel) mesh dim).
Proof.
  intros H. rewrite compute_entities_S. unfold compute_entities_body.
  destruct (0 <? tsize mesh dim).
  - match goal with |- returned (if ?b then _ else _) => destruct b end; exact I.
  - match goal with |- returned (if ?b then _ else _) => destruct b end; [exact I|].
    apply returned_bind; [exact H|]. intros. exact I.
Qed.

(** [compute_connectivity] returns as soon as the calls it makes do. *)
Lemma compute_connectivity_returned_step (fuel : nat) (mesh : Mesh) (d0 d1 : nat) :
  constructed mesh ->
  (forall m dim, constructed m -> returned (compute_entities fuel m dim)) ->
  (forall m, constructed m -> tdim m = tdim mesh ->
     MeshConnectivity.size (conn m d0 d1) = 0 ->
     returned (dispatch (compute_connectivity fuel) m d0 d1)) ->
  returned (compute_connectivity (S fuel) mesh d0 d1).
Proof.
  intros C Hce Hd. rewrite compute_connectivity_S. unfold compute_connectivity_body.
  destruct (0 <? MeshConnectivity.size (conn mesh d0 d1)); [exact I|].
  assert (Hens : forall m d, constructed m -> tdim m = tdim mesh ->
            returned (ensure_entities (compute_entities fuel) m d) /\
            forall u m', ensure_entities (compute_entities fuel) m d = Done u m' ->
                         constructed m' /\ tdim m' = tdim mesh).
  { intros m d Cm Tm. split.
    - unfold ensure_entities. destruct (tsize m d =? 0); [|exact I].
      apply returned_bind; [now apply Hce|]. intros. exact I.
    - intros [] m' E. destruct (ensure_entities_Done _ _ _ E) as [[_ ->]|[_ [n Hn]]].
      + auto.
      + destruct (proj2 (returned_calls_keep_constructed fuel) _ _ _ _ Hn Cm).
        split; [assumption|congruence]. }
  destruct (Hens mesh d0 C eq_refl) as [R1 K1].
  apply returned_bind; [exact R1|]. intros u1 m1 E1.
  destruct (K1 _ _ E1) as [C1 T1].
  destruct (Hens m1 d1 C1 T1) as [R2 K2].
  apply returned_bind; [exact R2|]. intros u2 m2 E2.
  destruct (K2 _ _ E2) as [C2 T2].
  destruct ((tsize m2 d0 =? 0) && (tsize m2 d1 =? 0)); [exact I|].
  destruct (Nat.ltb_spec 0 (MeshConnectivity.size (conn m2 d0 d1))); [exact I|].
  apply Hd; auto. lia.
Qed.

(** The request for an incidence that is present returns at once. *)
Lemma compute_connectivity_present_returned (fuel : nat) (mesh : Mesh) (d0 d1 : nat) :
  0 < MeshConnectivity.size (conn mesh d0 d1) ->
  returned (compute_connectivity (S fuel) mesh d0 d1).
Proof. intros H. now rewrite compute_connectivity_present. Qed.

Unset Implicit Arguments.

Lemma ensure_entities_known (ce : Mesh -> nat -> outcome nat) (mesh : Mesh) (d : nat) :
  0 < tsize mesh d -> ensure_entities ce mesh d = Done tt mesh.
Proof. intros H. unfold ensure_entities. now rewrite (eqb_0_false H). Qed.

(** A request between dimensions whose entities are counted goes straight
    to the store and, failing that, to the strategy. *)
Lemma compute_connectivity_known (fuel : nat) (mesh : Mesh) (d0 d1 : nat) :
  0 < tsize mesh d0 -> 0 < tsize mesh d1 ->
  compute_connectivity (S fuel) mesh d0 d1 =
    if 0 <? MeshConnectivity.size (conn mesh d0 d1) then Done tt mesh
    else dispatch (compute_connectivity fuel) mesh d0 d1.
Proof.
  intros H0 H1. rewrite compute_connectivity_S. unfold compute_connectivity_body.
  destruct (0 <? MeshConnectivity.size (conn mesh d0 d1)) eqn:P; [reflexivity|].
  rewrite (ensure_entities_known _ _ _ H0). simpl.
  rewrite (ensure_entities_known _ _ _ H1). simpl.
  rewrite (eqb_0_false H0), P. reflexivity.
Qed.

Lemma compute_connectivity_vertex_cells (fuel : nat) (mesh : Mesh) :
  constructed mesh ->
  compute_connectivity (S (S fuel)) mesh 0 (tdim mesh) = Done tt (with_vertex_cells mesh).
Proof.
  intros (C0 & CD & CC). unfold with_vertex_cells.
  rewrite compute_connectivity_known by assumption.
  destruct (Nat.ltb_spec 0 (MeshConnectivity.size (conn mesh 0 (tdim mesh)))) as [P|P];
    [reflexivity|].
  assert (L : 0 < tdim mesh).
  { destruct (tdim mesh); [lia|lia]. }
  unfold dispatch. apply Nat.ltb_lt in L. rewrite L.
  rewrite compute_connectivity_present by exact CC. simpl.
  unfold compute_from_transpose. rewrite (ltb_0_true CC). reflexivity.
Qed.

Lemma with_vertex_cells_present (mesh : Mesh) :
  constructed mesh ->
  0 < MeshConnectivity.size (conn (with_vertex_cells mesh) 0 (tdim mesh)).
Proof.
  intros (C0 & _). unfold with_vertex_cells.
  destruct (Nat.ltb_spec 0 (MeshConnectivity.size (conn mesh 0 (tdim mesh)))) as [P|P];
    [exact P|].
  rewrite conn_set_conn_eq. unfold MeshConnectivity.size.
  now rewrite transpose_rows_length.
Qed.

Lemma with_vertex_cells_conn (mesh : Mesh) (a b : nat) :
  (a, b) <> (0, tdim mesh) -> conn (with_vertex_cells mesh) a b = conn mesh a b.
Proof.
  intros H. unfold with_vertex_cells.
  destruct (0 <? MeshConnectivity.size (conn mesh 0 (tdim mesh))); [reflexivity|].
  now apply conn_set_conn_ne.
Qed.

Lemma with_vertex_cells_shape (mesh : Mesh) :
  tdim (with_vertex_cells mesh) = tdim mesh /\
  type (with_vertex_cells mesh) = type mesh /\
  forall d, tsize (with_vertex_cells mesh) d = tsize mesh d.
Proof.
  unfold with_vertex_cells.
  destruct (0 <? MeshConnectivity.size (conn mesh 0 (tdim mesh))); auto.
Qed.

Lemma compute_connectivity_cell_cells (fuel : nat) (mesh : Mesh) :
  constructed mesh ->
  compute_connectivity (S (S (S fuel))) mesh (tdim mesh) (tdim mesh)
    = Done tt (with_cell_cells mesh).
Proof.
  intros C. pose proof C as (C0 & CD & CC). unfold with_cell_cells.
  rewrite compute_connectivity_known by assumption.
  destruct (Nat.ltb_spec 0 (MeshConnectivity.size (conn mesh (tdim mesh) (tdim mesh))))
    as [P|P]; [reflexivity|].
  assert (L : 0 < tdim mesh).
  { destruct (tdim mesh); [lia|lia]. }
  unfold dispatch. rewrite Nat.ltb_irrefl.
  assert (E : (tdim mesh =? 0) = false) by (apply Nat.eqb_neq; lia).
  unfold intermediate. rewrite E, andb_false_r. simpl.
  rewrite compute_connectivity_present by exact CC. simpl.
  rewrite compute_connectivity_vertex_cells by exact C. simpl.
  destruct (with_vertex_cells_shape mesh) as (T & _ & _).
  unfold compute_from_intersection.
  rewrite Nat.leb_refl. simpl.
  rewrite with_vertex_cells_conn by (intros X; inversion X; lia).
  rewrite (ltb_0_true CC). simpl.
  rewrite (ltb_0_true (with_vertex_cells_present _ C)). simpl.
  reflexivity.
Qed.

Lemma compute_entities_returned (fuel : nat) (mesh : Mesh) (dim : nat) :
  constructed mesh -> returned (compute_entities (4 + fuel) mesh dim).
Proof.
  intros C. apply compute_entities_returned_step.
  now rewrite compute_connectivity_cell_cells.
Qed.

Lemma dispatch_returned (cc : Mesh -> nat -> nat -> outcome unit) (mesh : Mesh) (d0 d1 : nat) :
  (d0 < d1 -> returned (cc mesh d1 d0)) ->
  (d1 <= d0 -> ~ (0 < d0 /\ d1 = 0) ->
   returned (cc mesh d0 (intermediate mesh d0 d1)) /\
   forall m1, cc mesh d0 (intermediate mesh d0 d1) = Done tt m1 ->
              returned (cc m1 (intermediate mesh d0 d1) d1)) ->
  returned (dispatch cc mesh d0 d1).
Proof.
  intros H1 H2. unfold dispatch. destruct (Nat.ltb_spec d0 d1) as [L|L].
  - apply returned_bind; [now apply H1|]. intros. apply compute_from_transpose_returned.
  - destruct (negb ((0 <? d0) && (d1 =? 0))) eqn:NA; [|exact I]. simpl.
    assert (NA' : ~ (0 < d0 /\ d1 = 0)).
    { intros [A ->]. apply Nat.ltb_lt in A. rewrite A in NA. discriminate. }
    destruct (H2 L NA') as [R1 R2].
    apply returned_bind; [exact R1|]. intros [] m1 E1.
    apply returned_bind; [now apply R2|]. intros.
    apply compute_from_intersection_returned.
Qed.

(** The request for the vertices of the entities of a dimension [d > 0]. *)
Lemma compute_connectivity_returned_to_vertices (fuel : nat) (mesh : Mesh) (d : nat) :
  constructed mesh -> 0 < d ->
  returned (compute_connectivity (5 + fuel) mesh d 0).
Proof.
  intros C Hd. apply compute_connectivity_returned_step; [exact C| |].
  - intros. now apply compute_entities_returned.
  - intros m Cm _ _. unfold dispatch.
    replace (d <? 0) with false by (symmetry; apply Nat.ltb_ge; lia).
    apply Nat.ltb_lt in Hd. rewrite Hd. exact I.
Qed.

(** The request for the entities of a dimension [d > 0] around the
    vertices. *)
Lemma compute_connectivity_returned_from_vertices (fuel : nat) (mesh : Mesh) (d : nat) :
  constructed mesh -> 0 < d ->
  returned (compute_connectivity (6 + fuel) mesh 0 d).
Proof.
  intros C Hd. apply compute_connectivity_returned_step; [exact C| |].
  - intros. now apply (compute_entities_returned (S fuel)).
  - intros m Cm _ _. apply dispatch_returned; [|lia].
    intros _. now apply compute_connectivity_returned_to_vertices.
Qed.

(** A request [(d0, d1)] with [d0 >= d1]. *)
Lemma compute_connectivity_returned_down (fuel : nat) (mesh : Mesh) (d0 d1 : nat) :
  constructed mesh -> d1 <= d0 ->
  returned (compute_connectivity (7 + fuel) mesh d0 d1).
Proof.
  intros C L. apply compute_connectivity_returned_step; [exact C| |].
  - intros. now apply (compute_entities_returned (2 + fuel)).
  - intros m Cm Tm Absent. apply dispatch_returned; [lia|].
    intros _ NA. unfold intermediate.
    destruct (Nat.eqb_spec d0 0) as [->|E0]; destruct (Nat.eqb_spec d1 0) as [->|E1];
      simpl.
    + (* vertices to vertices, through the cells *)
      assert (0 < tdim m).
      { destruct Cm as (_ & _ & Cc). destruct (tdim m); [lia|lia]. }
      split.
      * now apply compute_connectivity_returned_from_vertices.
      * intros m1 E.
        destruct (proj1 (returned_calls_keep_constructed _) _ _ _ _ E Cm) as [(_ & _ & Cc) T].
        apply (compute_connectivity_present_returned (5 + fuel)). now rewrite <- T.
    + lia.
    + exfalso. apply NA. split; [lia|reflexivity].
    + split.
      * apply (compute_connectivity_returned_to_vertices (1 + fuel)); [exact Cm|lia].
      * intros m1 E.
        destruct (proj1 (returned_calls_keep_constructed _) _ _ _ _ E Cm) as [C1 _].
        apply compute_connectivity_returned_from_vertices; [exact C1|lia].
Qed.

(** Every request returns within a call depth of eight. *)
Lemma compute_connectivity_returned (fuel : nat) (mesh : Mesh) (d0 d1 : nat) :
  constructed mesh -> returned (compute_connectivity (8 + fuel) mesh d0 d1).
Proof.
  intros C. destruct (Nat.le_gt_cases d1 d0) as [L|L].
  - now apply (compute_connectivity_returned_down (1 + fuel)).
  - apply compute_connectivity_returned_step; [exact C| |].
    + intros. now apply (compute_entities_returned (3 + fuel)).
    + intros m Cm _ _. apply dispatch_returned; [|lia].
      intros _. apply compute_connectivity_returned_down; [exact Cm|lia].
Qed.

(** On a mesh without cells the request for the incidence [(D, D)] and the
    request for the cells call each other without end. *)
Lemma empty_mesh_out_of_fuel (fuel : nat) :
  compute_connectivity fuel empty_mesh 2 2 = OutOfFuel /\
  compute_entities fuel empty_mesh 2 = OutOfFuel.
Proof.
  induction fuel as [|fuel [IH1 IH2]]; [split; reflexivity|]. split.
  - rewrite compute_connectivity_S. unfold compute_connectivity_body. simpl.
    unfold ensure_entities. simpl. now rewrite IH2.
  - rewrite compute_entities_S. unfold compute_entities_body. simpl.
    change (tdim empty_mesh) with 2. now rewrite IH1.
Qed.

(** ** More fuel does not change a call that returned *)

Lemma refines_refl {A : Type} (r : outcome A) : refines r r.
Proof. intros _. reflexivity. Qed.

Lemma refines_bind {A B : Type} (r r' : outcome A) (k k' : A -> Mesh -> outcome B) :
  refines r r' -> (forall a m, refines (k a m) (k' a m)) ->
  refines (bind r k) (bind r' k').
Proof.
  intros Hr Hk H. destruct r as [a m| |]; simpl in *.
  - rewrite (Hr I). simpl. now apply Hk.
  - now rewrite (Hr I).
  - contradiction.
Qed.

Lemma refines_if {A : Type} (b : bool) (r1 r1' r2 r2' : outcome A) :
  refines r1 r1' -> refines r2 r2' ->
  refines (if b then r1 else r2) (if b then r1' else r2').
Proof. destruct b; auto. Qed.

Section FuelBodies.
Variables ce ce' : Mesh -> nat -> outcome nat.
Variables cc cc' : Mesh -> nat -> nat -> outcome unit.
Hypothesis Hce : forall m d, refines (ce m d) (ce' m d).
Hypothesis Hcc : forall m d0 d1, refines (cc m d0 d1) (cc' m d0 d1).

Lemma compute_entities_body_refines (mesh : Mesh) (dim : nat) :
  refines (compute_entities_body cc mesh dim) (compute_entities_body cc' mesh dim).
Proof.
  unfold compute_entities_body.
  repeat (apply refines_if; try apply refines_refl).
  apply refines_bind; [apply Hcc|]. intros. apply refines_refl.
Qed.

Lemma ensure_entities_refines (mesh : Mesh) (d : nat) :
  refines (ensure_entities ce mesh d) (ensure_entities ce' mesh d).
Proof.
  unfold ensure_entities. apply refines_if; [|apply refines_refl].
  apply refines_bind; [apply Hce|]. intros. apply refines_refl.
Qed.

Lemma dispatch_refines (mesh : Mesh) (d0 d1 : nat) :
  refines (dispatch cc mesh d0 d1) (dispatch cc' mesh d0 d1).
Proof.
  unfold dispatch. apply refines_if.
  - apply refines_bind; [apply Hcc|]. intros. apply refines_refl.
  - apply refines_bind; [apply refines_refl|]. intros _ m.
    apply refines_bind; [apply Hcc|]. intros _ m1.
    apply refines_bind; [apply Hcc|]. intros. apply refines_refl.
Qed.

Lemma compute_connectivity_body_refines (mesh : Mesh) (d0 d1 : nat) :
  refines (compute_connectivity_body ce cc mesh d0 d1)
          (compute_connectivity_body ce' cc' mesh d0 d1).
Proof.
  unfold compute_connectivity_body. apply refines_if; [apply refines_refl|].
  apply refines_bind; [apply ensure_entities_refines|]. intros _ m1.
  apply refines_bind; [apply ensure_entities_refines|]. intros _ m2.
  apply refines_if; [apply refines_refl|].
  apply refines_if; [apply refines_refl|].
  apply dispatch_refines.
Qed.
End FuelBodies.

Lemma fuel_step (fuel : nat) :
  (forall m d0 d1, refines (compute_connectivity fuel m d0 d1)
                           (compute_connectivity (S fuel) m d0 d1)) /\
  (forall m d, refines (compute_entities fuel m d) (compute_entities (S fuel) m d)).
Proof.
  induction fuel as [|fuel [IH1 IH2]].
  - split; intros; intros [].
  - split; intros.
    + rewrite (compute_connectivity_S (S fuel)), (compute_connectivity_S fuel).
      now apply compute_connectivity_body_refines.
    + rewrite (compute_entities_S (S fuel)), (compute_entities_S fuel).
      now apply compute_entities_body_refines.
Qed.

Lemma fuel_more (k fuel : nat) :
  (forall m d0 d1, refines (compute_connectivity fuel m d0 d1)
                           (compute_connectivity (k + fuel) m d0 d1)) /\
  (forall m d, refines (compute_entities fuel m d) (compute_entities (k + fuel) m d)).
Proof.
  induction k as [|k [IH1 IH2]]; simpl.
  - split; intros; apply refines_refl.
  - split; intros; intros H.
    + rewrite <- (IH1 m d0 d1 H). apply (proj1 (fuel_step (k + fuel))).
      now rewrite (IH1 m d0 d1 H).
    + rewrite <- (IH2 m d H). apply (proj2 (fuel_step (k + fuel))).
      now rewrite (IH2 m d H).
Qed.

(** On a constructed mesh the request for the incidence [(D, D)] returns
    the mesh [with_cell_cells]. *)
Lemma compute_connectivity_cell_cells_inv (fuel : nat) (mesh mesh' : Mesh) :
  constructed mesh ->
  compute_connectivity fuel mesh (tdim mesh) (tdim mesh) = Done tt mesh' ->
  mesh' = with_cell_cells mesh.
Proof.
  intros C H.
  pose proof (proj1 (fuel_more 3 fuel) mesh (tdim mesh) (tdim mesh)) as M.
  unfold refines in M. rewrite H in M. specialize (M I).
  replace (3 + fuel) with (S (S (S fuel))) in M by lia.
  rewrite compute_connectivity_cell_cells in M by exact C.
  congruence.
Qed.

(** What a returned [compute_entities] leaves of a constructed mesh. *)
Lemma compute_entities_constructed (fuel : nat) (mesh : Mesh) (dim n : nat) (mesh' : Mesh) :
  constructed mesh ->
  compute_entities fuel mesh dim = Done n mesh' ->
  (0 < tsize mesh dim /\ mesh' = mesh) \/
  (tsize mesh dim = 0 /\
   mesh' = store_entities (with_cell_cells mesh) dim (synthesize (with_cell_cells mesh) dim)).
Proof.
  intros C H. destruct (Nat.eq_dec (tsize mesh dim) 0) as [Z|Z].
  - right. split; [exact Z|].
    destruct (compute_entities_fresh _ _ _ H Z) as (f & m1 & _ & _ & _ & E & _ & ->).
    now rewrite (compute_connectivity_cell_cells_inv _ _ _ C E).
  - left. split; [lia|].
    destruct (compute_entities_cached _ _ _ H) as (-> & _); [lia|reflexivity].
Qed.

(** On a constructed mesh without entities of dimension [dim] and without
    the incidences that define them, [compute_entities] returns, within a call
    depth of four, what the cell loop finds on the mesh left by the request
    for the incidence [(D, D)]. *)
Lemma compute_entities_computes (fuel : nat) (mesh : Mesh) (dim : nat) :
  constructed mesh ->
  tsize mesh dim = 0 ->
  MeshConnectivity.size (conn mesh (tdim mesh) dim) = 0 ->
  MeshConnectivity.size (conn mesh dim 0) = 0 ->
  compute_entities (4 + fuel) mesh dim =
    Done (length (connectivity_ev (synthesize (with_cell_cells mesh) dim)))
         (store_entities (with_cell_cells mesh) dim (synthesize (with_cell_cells mesh) dim)).
Proof.
  intros C Z A1 A2. change (4 + fuel) with (S (S (S (S fuel)))).
  rewrite compute_entities_S. unfold compute_entities_body.
  rewrite (ltb_0_false Z), (ltb_0_false A1), (ltb_0_false A2). simpl.
  rewrite compute_connectivity_cell_cells by exact C. reflexivity.
Qed.

Lemma with_cell_cells_shape (mesh : Mesh) :
  tdim (with_cell_cells mesh) = tdim mesh /\
  type (with_cell_cells mesh) = type mesh /\
  forall d, tsize (with_cell_cells mesh) d = tsize mesh d.
Proof.
  unfold with_cell_cells.
  destruct (0 <? MeshConnectivity.size (conn mesh (tdim mesh) (tdim mesh))); auto.
  destruct (with_vertex_cells_shape mesh) as (A & B & C). auto.
Qed.

Lemma with_cell_cells_conn (mesh : Mesh) (a b : nat) :
  (a, b) <> (0, tdim mesh) -> (a, b) <> (tdim mesh, tdim mesh) ->
  conn (with_cell_cells mesh) a b = conn mesh a b.
Proof.
  intros H1 H2. unfold with_cell_cells.
  destruct (0 <? MeshConnectivity.size (conn mesh (tdim mesh) (tdim mesh)));
    [reflexivity|].
  rewrite conn_set_conn_ne by exact H2. now apply with_vertex_cells_conn.
Qed.

(** C4, as stated, fails on a mesh without cells: the request [(D, D)]
    calls [compute_entities(D)], which calls the request [(D, D)], on the
    same mesh. *)
Lemma recursion_without_cells_never_returns : ~ always_returns empty_mesh.
Proof.
  intros H. destruct (H 2 2) as [fuel Hf]; [vm_compute; lia|vm_compute; lia|].
  rewrite (proj1 (empty_mesh_out_of_fuel fuel)) in Hf. exact Hf.
Qed.

(** A request [(d0, d1)] with [d0 < d1] calls the request [(d1, d0)], whose
    larger dimension is the same. *)
Lemma transpose_request_keeps_max
    (cc : Mesh -> nat -> nat -> outcome unit) (mesh : Mesh) (d0 d1 : nat) :
  d0 < d1 ->
  dispatch cc mesh d0 d1 = bind (cc mesh d1 d0) (fun _ m => compute_from_transpose m d0 d1)
  /\ Nat.max d1 d0 = Nat.max d0 d1.
Proof.
  intros L. unfold dispatch. apply Nat.ltb_lt in L. rewrite L.
  split; [reflexivity|apply Nat.max_comm].
Qed.

(** C4, amended: on a mesh with a vertex, a cell and the incidence [(D, 0)],
    every request of [compute_connectivity] returns (with the incidence or
    with a fatal error) within a depth of eight nested calls, and every
    request of [compute_entities] within a depth of four. *)
Theorem compute_connectivity_terminates (mesh : Mesh) :
  constructed mesh ->
  always_returns mesh /\
  (forall d0 d1 fuel, returned (compute_connectivity (8 + fuel) mesh d0 d1)) /\
  (forall dim fuel, returned (compute_entities (4 + fuel) mesh dim)).
Proof.
  intros C. split; [|split].
  - intros d0 d1 _ _. exists 8. now apply (compute_connectivity_returned 0).
  - intros d0 d1 fuel. now apply compute_connectivity_returned.
  - intros dim fuel. now apply compute_entities_returned.
Qed.

Lemma compute_connectivity_terminates_witness :
  always_returns two_triangles /\
  (forall d0 d1 fuel, returned (compute_connectivity (8 + fuel) two_triangles d0 d1)) /\
  (forall dim fuel, returned (compute_entities (4 + fuel) two_triangles dim)).
Proof.
  apply (compute_connectivity_terminates two_triangles).
  vm_compute. repeat split; lia.
Defined.

(** ** Dimensions without entities *)

Lemma ensure_entities_keeps_constructed (fuel : nat) (mesh : Mesh) (d : nat) (mesh' : Mesh) :
  ensure_entities (compute_entities fuel) mesh d = Done tt mesh' ->
  keeps_constructed mesh mesh'.
Proof.
  intros H. destruct (ensure_entities_Done _ _ _ H) as [[_ ->]|[_ [n Hn]]].
  - intros C. auto.
  - eapply (proj2 (returned_calls_keep_constructed fuel)). exact Hn.
Qed.

(** Ensuring the entities of a dimension [d] leaves every incidence
    [(a, b)] with [a] other than [0] and [D] and [b] other than [0] and [d]
    as it is. *)
Lemma ensure_entities_conn (fuel : nat) (mesh : Mesh) (d : nat) (mesh' : Mesh) (a b : nat) :
  constructed mesh ->
  ensure_entities (compute_entities fuel) mesh d = Done tt mesh' ->
  a <> 0 -> a <> tdim mesh -> b <> 0 ->
  conn mesh' a b = conn mesh a b.
Proof.
  intros C H A0 AD B0.
  destruct (ensure_entities_Done _ _ _ H) as [[_ ->]|[_ [n Hn]]]; [reflexivity|].
  destruct (compute_entities_constructed _ _ _ _ _ C Hn) as [[_ ->]|[_ ->]];
    [reflexivity|].
  destruct (with_cell_cells_shape mesh) as (T & _ & _).
  rewrite store_entities_conn.
  - apply with_cell_cells_conn; intros E; inversion E; congruence.
  - rewrite T. intros E. inversion E. congruence.
  - intros E. inversion E. congruence.
Qed.

(** C9: on a constructed mesh, when after the entities of both dimensions
    are ensured both counts are zero, the request returns the mesh left by
    these two steps, in which the incidence [(d0, d1)] is still absent; when
    a count is not zero the request goes on to look the incidence up again
    and then to the strategy. *)
Theorem compute_connectivity_without_entities
    (fuel : nat) (mesh : Mesh) (d0 d1 : nat) (m1 m2 : Mesh) :
  constructed mesh ->
  MeshConnectivity.size (conn mesh d0 d1) = 0 ->
  ensure_entities (compute_entities fuel) mesh d0 = Done tt m1 ->
  ensure_entities (compute_entities fuel) m1 d1 = Done tt m2 ->
  (tsize m2 d0 = 0 /\ tsize m2 d1 = 0 ->
   compute_connectivity (S fuel) mesh d0 d1 = Done tt m2 /\
   MeshConnectivity.size (conn m2 d0 d1) = 0) /\
  (0 < tsize m2 d0 + tsize m2 d1 ->
   compute_connectivity (S fuel) mesh d0 d1 =
     if 0 <? MeshConnectivity.size (conn m2 d0 d1) then Done tt m2
     else dispatch (compute_connectivity fuel) m2 d0 d1).
Proof.
  intros C A E1 E2.
  rewrite (@compute_connectivity_miss fuel mesh d0 d1 m1 m2 A E1 E2).
  split.
  - intros [Z0 Z1]. rewrite Z0, Z1. simpl. split; [reflexivity|].
    destruct (ensure_entities_keeps_constructed _ _ _ _ E1 C) as [C1 T1].
    destruct (ensure_entities_keeps_constructed _ _ _ _ E2 C1) as [C2 T2].
    pose proof C2 as (V & N & _). unfold num_cells in N.
    assert (d0 <> 0) by (intros ->; lia).
    assert (d1 <> 0) by (intros ->; lia).
    assert (d0 <> tdim m2) by (intros ->; lia).
    rewrite (ensure_entities_conn _ _ _ _ d0 d1 C1 E2) by congruence.
    rewrite (ensure_entities_conn _ _ _ _ d0 d1 C E1) by congruence.
    exact A.
  - intros H.
    destruct (Nat.eqb_spec (tsize m2 d0) 0), (Nat.eqb_spec (tsize m2 d1) 0);
      simpl; try reflexivity. lia.
Qed.

Lemma compute_connectivity_without_entities_witness :
  compute_connectivity 5 one_shapeless_cell 1 2 = Done tt one_shapeless_cell_2 /\
  MeshConnectivity.size (conn one_shapeless_cell_2 1 2) = 0.
Proof.
  apply (proj1 (compute_connectivity_without_entities 4 one_shapeless_cell 1 2
                  one_shapeless_cell_1 one_shapeless_cell_2
                  ltac:(vm_compute; repeat split; lia)
                  ltac:(reflexivity)
                  ltac:(vm_compute; reflexivity)
                  ltac:(vm_compute; reflexivity))).
  vm_compute. split; reflexivity.
Defined.

(** ** Entity synthesis: one index per vertex set *)

Lemma nat_nodupb_NoDup (l : list nat) : nat_nodupb l = true -> NoDup l.
Proof.
  induction l as [|x r IH]; simpl; [constructor|].
  intros H. apply andb_true_iff in H. destruct H as [H1 H2].
  constructor; [|now apply IH].
  apply negb_true_iff in H1. now apply std_find_not_In.
Qed.

Lemma tuples_nodupb_NoDup (l : list (list nat)) : tuples_nodupb l = true -> NoDup l.
Proof.
  induction l as [|t r IH]; simpl; [constructor|].
  intros H. apply andb_true_iff in H. destruct H as [H1 H2].
  constructor; [|now apply IH].
  apply negb_true_iff in H1. intros Hin.
  assert (E : existsb (vec_eqb t) r = true).
  { apply existsb_exists. exists t. split; [exact Hin|now apply vec_eqb_true]. }
  congruence.
Qed.

Lemma tuples_ok_cell (mesh : Mesh) (dim c : nat) :
  tuples_ok mesh dim = true -> c < num_cells mesh ->
  NoDup (map std_sort (cell_entities mesh dim c)) /\
  forall t, In t (cell_entities mesh dim c) ->
    t <> [] /\ NoDup t /\ forall v, In v t -> In v (entity_vertices mesh (tdim mesh) c).
Proof.
  intros H Hc. unfold tuples_ok in H. rewrite forallb_forall in H.
  specialize (H c). unfold cell_tuples_ok in H.
  assert (Hin : In c (mesh_entities mesh (tdim mesh))).
  { unfold mesh_entities. apply in_seq. unfold num_cells in Hc. lia. }
  apply H in Hin. apply andb_true_iff in Hin. destruct Hin as [H1 H2].
  split.
  - now apply tuples_nodupb_NoDup.
  - intros t Ht. rewrite forallb_forall in H1. specialize (H1 t Ht).
    unfold tuple_ok in H1. apply andb_true_iff in H1. destruct H1 as [H1 H3].
    apply andb_true_iff in H1. destruct H1 as [H0 H1].
    split; [|split].
    + intros ->. discriminate.
    + now apply nat_nodupb_NoDup.
    + now apply contains_spec.
Qed.

Section SynthesisDistinct.
Variable mesh : Mesh.
Variable dim : nat.
Hypothesis Htuples : tuples_ok mesh dim = true.
Hypothesis Hadjacent : vertex_adjacent mesh.

Local Abbreviation N := (num_cells mesh).
Local Abbreviation tuples := (cell_entities mesh dim).
Local Abbreviation cells_of c := (incident mesh (tdim mesh) c (tdim mesh)).

(** A tuple that sorts like a tuple of an earlier cell is found by the
    search. *)
Lemma sorted_tuple_nonempty (c k : nat) :
  c < N -> k < length (tuples c) -> std_sort (nth k (tuples c) []) <> [].
Proof.
  intros Hc Hk E. destruct (tuples_ok_cell _ _ _ Htuples Hc) as [_ H].
  destruct (H (nth k (tuples c) []) (nth_In _ _ Hk)) as (H1 & _).
  apply H1. apply (f_equal (@length _)) in E. rewrite std_sort_length in E.
  now apply length_zero_iff_nil.
Qed.

Lemma same_tuple_share_vertex (c k c0 k0 : nat) :
  c < N -> k < length (tuples c) -> c0 < N -> k0 < length (tuples c0) ->
  std_sort (nth k0 (tuples c0) []) = std_sort (nth k (tuples c) []) ->
  share_vertex mesh c c0.
Proof.
  intros Hc Hk Hc0 Hk0 E.
  destruct (tuples_ok_cell _ _ _ Htuples Hc) as [_ H].
  destruct (tuples_ok_cell _ _ _ Htuples Hc0) as [_ H0].
  destruct (H _ (nth_In _ [] Hk)) as (_ & _ & Hv).
  destruct (H0 _ (nth_In _ [] Hk0)) as (_ & _ & Hv0).
  pose proof (sorted_tuple_nonempty c k Hc Hk) as NE.
  destruct (std_sort (nth k (tuples c) [])) as [|v r] eqn:S; [congruence|].
  exists v. split.
  - apply Hv0. apply std_sort_In. rewrite E. now left.
  - apply Hv. apply std_sort_In. rewrite S. now left.
Qed.

Lemma synth_distinct_visit_entity (c j : nat) (s : synthesis) :
  synth_inv mesh dim c j s -> NoDup (connectivity_ev s) ->
  c < N -> j < length (tuples c) ->
  NoDup (connectivity_ev (visit_entity c (cells_of c) s (nth j (tuples c) []))).
Proof.
  intros I ND Hc Hj. unfold visit_entity.
  set (entity := std_sort (nth j (tuples c) [])).
  destruct (find_entity (ce_list s) c (cells_of c) entity) as [e|] eqn:F; simpl;
    [exact ND|].
  apply NoDup_app; [exact ND|repeat constructor; auto|].
  intros t Hin [<-|[]].
  (* the tuple would be the one of an entity met before *)
  destruct (In_nth _ _ [] Hin) as (e & He & Hnth).
  destruct (si_ev I He) as (c0 & Hlist). rewrite Hnth in Hlist.
  destruct (si_list I _ _ _ Hlist) as (_ & _ & k0 & V & Hk0 & Ht).
  destruct V as [V|[-> V]].
  - (* in an earlier cell, which shares a vertex with this one *)
    eapply (@find_entity_None _ _ _ _ F); [|exact V|exact Hlist].
    apply Hadjacent; [exact Hc|exact V|].
    apply (same_tuple_share_vertex c j c0 k0); auto; lia.
  - (* at an earlier slot of this cell *)
    destruct (tuples_ok_cell _ _ _ Htuples Hc) as [NDc _].
    assert (E : nth k0 (map std_sort (tuples c)) [] = nth j (map std_sort (tuples c)) []).
    { pose proof (map_nth std_sort (tuples c) [] k0) as M0.
      pose proof (map_nth std_sort (tuples c) [] j) as M1.
      simpl in M0, M1. rewrite M0, M1. now rewrite <- Ht. }
    apply (proj1 (NoDup_nth _ []) NDc) in E; rewrite ?length_map; lia.
Qed.

Lemma synth_distinct_slots (c : nat) (es : list (list nat)) (j : nat) (s : synthesis) :
  synth_inv mesh dim c j s -> NoDup (connectivity_ev s) ->
  c < N -> j <= length (tuples c) -> skipn j (tuples c) = es ->
  NoDup (connectivity_ev (fold_left (visit_entity c (cells_of c)) es s)).
Proof.
  revert j s. induction es as [|e es IH]; intros j s I ND Hc Hle Hes; simpl.
  - exact ND.
  - destruct (skipn_nth_cons _ _ [] Hes) as (Hj & He & Hes').
    subst e. apply (IH (S j)); auto.
    + now apply synth_inv_visit_entity.
    + now apply synth_distinct_visit_entity.
Qed.

Lemma synth_distinct_cells (n c : nat) (s : synthesis) :
  synth_inv mesh dim c 0 s -> NoDup (connectivity_ev s) -> c + n = N ->
  NoDup (connectivity_ev (fold_left (visit_cell mesh dim) (seq c n) s)).
Proof.
  revert c s. induction n as [|n IH]; intros c s I ND Hn; simpl.
  - exact ND.
  - apply IH; [| |lia].
    + apply synth_inv_visit_cell; [exact I|lia].
    + unfold visit_cell. apply (@synth_distinct_slots c _ 0); auto; lia.
Qed.

Theorem synthesize_distinct : NoDup (connectivity_ev (synthesize mesh dim)).
Proof.
  unfold synthesize, mesh_entities. apply synth_distinct_cells.
  - apply synth_inv_start.
  - constructor.
  - reflexivity.
Qed.
End SynthesisDistinct.

(** ** Well-formed meshes *)

Lemma cells_in_range_iff (mesh : Mesh) :
  cells_in_range mesh = true <->
  forall c v, c < num_cells mesh ->
    In v (entity_vertices mesh (tdim mesh) c) -> v < tsize mesh 0.
Proof.
  unfold cells_in_range, mesh_entities, num_cells. rewrite forallb_forall. split.
  - intros H c v Hc Hv.
    assert (Hin : In c (seq 0 (tsize mesh (tdim mesh)))) by (apply in_seq; lia).
    specialize (H c Hin). rewrite forallb_forall in H.
    apply Nat.ltb_lt. now apply H.
  - intros H c Hc. apply in_seq in Hc. apply forallb_forall. intros v Hv.
    apply Nat.ltb_lt. apply (H c v); [lia|exact Hv].
Qed.

Lemma cells_in_range_spec (mesh : Mesh) (c v : nat) :
  cells_in_range mesh = true -> c < num_cells mesh ->
  In v (entity_vertices mesh (tdim mesh) c) -> v < tsize mesh 0.
Proof. intros H. now apply cells_in_range_iff. Qed.

Lemma same_cells_vertices (m m' : Mesh) (c : nat) :
  same_cells m m' ->
  entity_vertices m' (tdim m') c = entity_vertices m (tdim m) c.
Proof.
  intros (T & _ & _ & E). unfold entity_vertices. now rewrite T, E.
Qed.

Lemma same_cells_num_cells (m m' : Mesh) :
  same_cells m m' -> num_cells m' = num_cells m.
Proof. intros (T & _ & S & _). unfold num_cells. now rewrite T. Qed.

Lemma same_cells_set_conn (m : Mesh) (a b : nat) (c : MeshConnectivity.t) :
  (a, b) <> (tdim m, 0) -> same_cells m (set_conn m a b c).
Proof.
  intros H. repeat split. now apply conn_set_conn_ne.
Qed.

Lemma same_cells_store_entities (m : Mesh) (dim : nat) (s : synthesis) :
  dim <> 0 -> dim <> tdim m -> same_cells m (store_entities m dim s).
Proof.
  intros H0 HD. split; [apply store_entities_tdim|]. split; [|split].
  - apply store_entities_tsize_ne. congruence.
  - apply store_entities_tsize_ne. congruence.
  - apply store_entities_conn; intros E; inversion E; congruence.
Qed.

Lemma vertex_cells_complete_same (m m' : Mesh) :
  same_cells m m' -> conn m' 0 (tdim m) = conn m 0 (tdim m) ->
  vertex_cells_complete m -> vertex_cells_complete m'.
Proof.
  intros Sc E H c v Hc Hv.
  rewrite (same_cells_num_cells _ _ Sc) in Hc.
  rewrite (same_cells_vertices _ _ c Sc) in Hv.
  destruct Sc as (T & _). unfold incident. rewrite T, E. now apply H.
Qed.

Lemma vertex_adjacent_same (m m' : Mesh) :
  same_cells m m' -> conn m' (tdim m) (tdim m) = conn m (tdim m) (tdim m) ->
  vertex_adjacent m -> vertex_adjacent m'.
Proof.
  intros Sc E H c c0 Hc Hc0 (v & Hv0 & Hv).
  rewrite (same_cells_num_cells _ _ Sc) in Hc.
  rewrite (same_cells_vertices _ _ c0 Sc) in Hv0.
  rewrite (same_cells_vertices _ _ c Sc) in Hv.
  destruct Sc as (T & _). unfold incident. rewrite T, E.
  apply H; auto. now exists v.
Qed.

(** The cells stay, and the two incidences built on them stay or are
    complete. *)
Lemma well_formed_change (m m' : Mesh) :
  well_formed m -> same_cells m m' ->
  (conn m' 0 (tdim m) = conn m 0 (tdim m) \/ vertex_cells_complete m') ->
  (conn m' (tdim m) (tdim m) = conn m (tdim m) (tdim m) \/ vertex_adjacent m') ->
  well_formed m'.
Proof.
  intros ((C0 & CD & CC) & HD & R & VC & A) Sc Hvc Ha.
  pose proof Sc as (T & S0 & SD & E).
  split; [|split; [|split; [|split]]].
  - split; [lia|]. split.
    + rewrite (same_cells_num_cells _ _ Sc). exact CD.
    + rewrite T, E. exact CC.
  - now rewrite T.
  - apply cells_in_range_iff. intros c v Hc Hv.
    rewrite (same_cells_num_cells _ _ Sc) in Hc.
    rewrite (same_cells_vertices _ _ _ Sc) in Hv.
    rewrite S0. now apply (cells_in_range_spec m c v).
  - rewrite T. intros P. destruct Hvc as [E0|Hvc]; [|exact Hvc].
    apply (vertex_cells_complete_same m m' Sc E0). apply VC. now rewrite <- E0.
  - rewrite T. intros P. destruct Ha as [E0|Ha]; [|exact Ha].
    apply (vertex_adjacent_same m m' Sc E0). apply A. now rewrite <- E0.
Qed.

(** The transpose of the cells is complete. *)
Lemma transpose_complete (m : Mesh) :
  0 < tdim m -> cells_in_range m = true ->
  vertex_cells_complete (set_conn m 0 (tdim m) (transpose_rows m 0 (tdim m))).
Proof.
  intros HD R.
  assert (Sc : same_cells m (set_conn m 0 (tdim m) (transpose_rows m 0 (tdim m)))).
  { apply same_cells_set_conn. intros E. inversion E. lia. }
  intros c v Hc Hv.
  rewrite (same_cells_num_cells _ _ Sc) in Hc.
  rewrite (same_cells_vertices _ _ _ Sc) in Hv.
  unfold incident. rewrite tdim_set_conn, conn_set_conn_eq.
  apply transpose_rows_In.
  - now apply (cells_in_range_spec m c v).
  - split; assumption.
Qed.

(** The intersection of the cells with themselves through the vertices
    lists every other cell that shares a vertex. *)
Lemma intersection_adjacent (m : Mesh) :
  0 < tdim m -> vertex_cells_complete m ->
  vertex_adjacent (set_conn m (tdim m) (tdim m) (intersection_rows m (tdim m) (tdim m) 0)).
Proof.
  intros HD VC.
  assert (Sc : same_cells m
            (set_conn m (tdim m) (tdim m) (intersection_rows m (tdim m) (tdim m) 0))).
  { apply same_cells_set_conn. intros E. inversion E. lia. }
  intros c c0 Hc Hc0 (v & Hv0 & Hv).
  rewrite (same_cells_num_cells _ _ Sc) in Hc.
  rewrite (same_cells_vertices _ _ c0 Sc) in Hv0.
  rewrite (same_cells_vertices _ _ c Sc) in Hv.
  unfold incident. rewrite tdim_set_conn, conn_set_conn_eq, intersection_rows_row.
  unfold num_cells in Hc. apply Nat.ltb_lt in Hc. rewrite Hc. apply Nat.ltb_lt in Hc.
  rewrite collect_row_candidates.
  apply (proj2 (collect_fold_spec m (tdim m) (tdim m) c
                  (candidates m (tdim m) (tdim m) 0 c) (NoDup_nil _))).
  right. split.
  - unfold candidates. apply in_flat_map. exists v. split; [exact Hv|].
    apply VC; [unfold num_cells; lia|exact Hv0].
  - unfold accepted_candidate. rewrite Nat.eqb_refl.
    apply negb_true_iff. apply Nat.eqb_neq. lia.
Qed.

(** Every call that returns keeps a well-formed mesh well formed. *)
Lemma returned_calls_keep_well_formed (fuel : nat) :
  (forall mesh d0 d1 mesh',
     compute_connectivity fuel mesh d0 d1 = Done tt mesh' ->
     well_formed mesh -> well_formed mesh') /\
  (forall mesh dim n mesh',
     compute_entities fuel mesh dim = Done n mesh' ->
     well_formed mesh -> well_formed mesh').
Proof.
  assert (K : (forall mesh d0 d1 mesh',
                 compute_connectivity fuel mesh d0 d1 = Done tt mesh' ->
                 (well_formed mesh -> well_formed mesh') /\ tdim mesh' = tdim mesh) /\
              (forall mesh dim n mesh',
                 compute_entities fuel mesh dim = Done n mesh' ->
                 (well_formed mesh -> well_formed mesh') /\ tdim mesh' = tdim mesh)).
  { apply (@returned_calls_keep (fun m m' => well_formed m -> well_formed m')).
    - auto.
    - auto.
    - (* transpose *)
      intros m d0 d1 L _ W. pose proof W as (_ & HD & R & _).
      apply (well_formed_change m); [exact W| | |].
      + apply same_cells_set_conn. intros E. inversion E. lia.
      + destruct (Nat.eq_dec d0 0) as [->|N0];
          [destruct (Nat.eq_dec d1 (tdim m)) as [->|N1]|].
        * right. now apply transpose_complete.
        * left. apply conn_set_conn_ne. congruence.
        * left. apply conn_set_conn_ne. congruence.
      + left. apply conn_set_conn_ne. intros E. inversion E. lia.
    - (* intersection *)
      intros m d0 d1 d L NA Hd P1 P2 W. pose proof W as (_ & HD & _ & VC & _).
      apply (well_formed_change m); [exact W| | |].
      + apply same_cells_set_conn. intros E. inversion E. subst.
        apply NA. split; [lia|reflexivity].
      + left. apply conn_set_conn_ne. intros E. inversion E. lia.
      + destruct (Nat.eq_dec d0 (tdim m)) as [->|N0];
          [destruct (Nat.eq_dec d1 (tdim m)) as [->|N1]|].
        * right. assert (Hd0 : intermediate m (tdim m) (tdim m) = 0).
          { unfold intermediate.
            replace (tdim m =? 0) with false by (symmetry; apply Nat.eqb_neq; lia).
            reflexivity. }
          rewrite Hd0 in Hd. rewrite Hd in *.
          apply intersection_adjacent; [exact HD|]. now apply VC.
        * left. apply conn_set_conn_ne. congruence.
        * left. apply conn_set_conn_ne. congruence.
    - (* the entities of a dimension *)
      intros m m1 dim Z _ _ H T W. pose proof W as ((C0 & CD & _) & _).
      assert (dim <> 0) by (intros ->; lia).
      assert (dim <> tdim m) by (unfold num_cells in CD; intros ->; lia).
      apply (well_formed_change m1); [now apply H| | |].
      + apply same_cells_store_entities; congruence.
      + left. apply store_entities_conn; intros E; inversion E; congruence.
      + left. apply store_entities_conn; intros E; inversion E; congruence. }
  destruct K as [K1 K2]. split.
  - intros mesh d0 d1 mesh' H. now destruct (K1 _ _ _ _ H).
  - intros mesh dim n mesh' H. now destruct (K2 _ _ _ _ H).
Qed.

Lemma with_cell_cells_well_formed (mesh : Mesh) :
  well_formed mesh -> well_formed (with_cell_cells mesh).
Proof.
  intros W. pose proof W as (C & _).
  apply (proj1 (returned_calls_keep_well_formed 3) mesh (tdim mesh) (tdim mesh)); [|exact W].
  now apply compute_connectivity_cell_cells.
Qed.

Lemma with_cell_cells_present (mesh : Mesh) :
  constructed mesh ->
  0 < MeshConnectivity.size (conn (with_cell_cells mesh) (tdim mesh) (tdim mesh)).
Proof.
  intros (_ & CD & _). unfold with_cell_cells.
  destruct (Nat.ltb_spec 0 (MeshConnectivity.size (conn mesh (tdim mesh) (tdim mesh))))
    as [P|P]; [exact P|].
  rewrite conn_set_conn_eq. unfold MeshConnectivity.size.
  rewrite intersection_rows_length.
  destruct (with_vertex_cells_shape mesh) as (_ & _ & S). now rewrite S.
Qed.

Lemma with_cell_cells_adjacent (mesh : Mesh) :
  well_formed mesh -> vertex_adjacent (with_cell_cells mesh).
Proof.
  intros W. pose proof W as (C & _).
  destruct (with_cell_cells_well_formed mesh W) as (_ & _ & _ & _ & A).
  apply A. destruct (with_cell_cells_shape mesh) as (T & _). rewrite T.
  now apply with_cell_cells_present.
Qed.

Lemma with_vertex_cells_vertices (mesh : Mesh) (c : nat) :
  constructed mesh ->
  entity_vertices (with_vertex_cells mesh) (tdim mesh) c = entity_vertices mesh (tdim mesh) c.
Proof.
  intros (_ & _ & CC). unfold with_vertex_cells.
  destruct (Nat.ltb_spec 0 (MeshConnectivity.size (conn mesh 0 (tdim mesh)))) as [P|P];
    [reflexivity|].
  unfold entity_vertices. rewrite conn_set_conn_ne; [reflexivity|].
  intros E. inversion E as [[E0 E1]]. rewrite E0 in CC, P. lia.
Qed.

Lemma with_cell_cells_vertices (mesh : Mesh) (c : nat) :
  constructed mesh ->
  entity_vertices (with_cell_cells mesh) (tdim mesh) c = entity_vertices mesh (tdim mesh) c.
Proof.
  intros C. pose proof C as (_ & _ & CC). unfold with_cell_cells.
  destruct (Nat.ltb_spec 0 (MeshConnectivity.size (conn mesh (tdim mesh) (tdim mesh))))
    as [P|P]; [reflexivity|].
  unfold entity_vertices at 1. rewrite conn_set_conn_ne.
  - now apply with_vertex_cells_vertices.
  - intros E. inversion E as [E1]. rewrite <- E1 in P, CC. lia.
Qed.

(** A mesh just built from its cells is well formed when its cells name
    vertices of the mesh. *)
Lemma build_mesh_well_formed (T : CellType.t) (D num_vertices : nat) (cells : list (list nat)) :
  0 < D -> 0 < num_vertices -> 0 < length cells ->
  cells_in_range (build_mesh T D num_vertices cells) = true ->
  well_formed (build_mesh T D num_vertices cells).
Proof.
  intros HD HV HC R.
  assert (E : (D =? 0) = false) by (apply Nat.eqb_neq; lia).
  split; [|split; [exact HD|split; [exact R|split]]].
  - unfold constructed, num_cells, tsize, tdim, conn. simpl.
    rewrite E, !Nat.eqb_refl. simpl. repeat split; assumption.
  - unfold conn, tdim. simpl. destruct D; [lia|]. simpl. intros H. inversion H.
  - unfold conn, tdim. simpl. rewrite Nat.eqb_refl, E. simpl. intros H. inversion H.
Qed.

(** ** Sorted tuples as vertex sets *)

Lemma ascending_nodup_strict (l : list nat) :
  StronglySorted le l -> NoDup l -> StronglySorted lt l.
Proof.
  induction 1 as [|x l Hl IH Hx]; intros ND; [constructor|].
  inversion ND as [|? ? Hnin ND']. subst.
  constructor; [now apply IH|].
  rewrite Forall_forall in *. intros y Hy.
  specialize (Hx y Hy). assert (x <> y) by (intros ->; contradiction). lia.
Qed.

Lemma strict_same_members (l1 l2 : list nat) :
  StronglySorted lt l1 -> StronglySorted lt l2 ->
  (forall v, In v l1 <-> In v l2) -> l1 = l2.
Proof.
  intros S1. revert l2. induction S1 as [|x l1 S1 IH Hx]; intros l2 S2 M.
  - destruct l2 as [|y l2]; [reflexivity|].
    exfalso. apply (proj2 (M y)). now left.
  - destruct S2 as [|y l2 S2 Hy].
    + exfalso. apply (proj1 (M x)). now left.
    + rewrite Forall_forall in Hx, Hy.
      assert (x = y).
      { destruct (proj1 (M x) (or_introl eq_refl)) as [E|Hin]; [auto|].
        destruct (proj2 (M y) (or_introl eq_refl)) as [E|Hin']; [auto|].
        specialize (Hx y Hin'). specialize (Hy x Hin). lia. }
      subst y. f_equal. apply IH; [exact S2|].
      intros v. split; intros Hv.
      * destruct (proj1 (M v) (or_intror Hv)) as [E|Hin]; [|exact Hin].
        subst v. specialize (Hx x Hv). lia.
      * destruct (proj2 (M v) (or_intror Hv)) as [E|Hin]; [|exact Hin].
        subst v. specialize (Hy x Hv). lia.
Qed.

Lemma std_sort_strict (t : list nat) : NoDup t -> StronglySorted lt (std_sort t).
Proof.
  intros ND. apply ascending_nodup_strict; [apply std_sort_ascending|].
  eapply Permutation_NoDup; [apply std_sort_perm|exact ND].
Qed.

Lemma cell_entities_with_cell_cells (mesh : Mesh) (dim c : nat) :
  constructed mesh ->
  cell_entities (with_cell_cells mesh) dim c = cell_entities mesh dim c.
Proof.
  intros C. destruct (with_cell_cells_shape mesh) as (T & Ty & _).
  unfold cell_entities. rewrite T, Ty. now rewrite with_cell_cells_vertices.
Qed.

Lemma tuples_ok_with_cell_cells (mesh : Mesh) (dim : nat) :
  constructed mesh -> tuples_ok mesh dim = true ->
  tuples_ok (with_cell_cells mesh) dim = true.
Proof.
  intros C H. destruct (with_cell_cells_shape mesh) as (T & _ & S).
  unfold tuples_ok in *. rewrite forallb_forall in *. intros c Hc.
  unfold mesh_entities in *. rewrite T, S in Hc. specialize (H c Hc).
  unfold cell_tuples_ok in *.
  rewrite cell_entities_with_cell_cells by exact C.
  rewrite T.
  replace (tuple_ok (entity_vertices (with_cell_cells mesh) (tdim mesh) c))
    with (tuple_ok (entity_vertices mesh (tdim mesh) c));
    [exact H|now rewrite with_cell_cells_vertices].
Qed.

(** C2: on a well-formed mesh whose cells have well-formed tuples, after
    [compute_entities(d)] two slots carry the same entity index exactly when
    their sorted vertex tuples are equal; two distinct entities have
    different sets of vertices; and the count returned is the number of
    distinct sorted tuples over all cells and slots.  The call returns this
    result within every call depth from four on. *)
Theorem compute_entities_one_index_per_vertex_set
    (fuel : nat) (mesh : Mesh) (dim n : nat) (mesh' : Mesh) :
  compute_entities fuel mesh dim = Done n mesh' ->
  tsize mesh dim = 0 ->
  well_formed mesh ->
  tuples_ok mesh dim = true ->
  (forall c k c' k',
     c < num_cells mesh -> k < length (cell_entities mesh dim c) ->
     c' < num_cells mesh -> k' < length (cell_entities mesh dim c') ->
     (nth k (incident mesh' (tdim mesh) c dim) 0
        = nth k' (incident mesh' (tdim mesh) c' dim) 0
      <-> std_sort (nth k (cell_entities mesh dim c) [])
            = std_sort (nth k' (cell_entities mesh dim c') []))) /\
  (forall e1 e2, e1 < n -> e2 < n -> e1 <> e2 ->
     ~ (forall v, In v (entity_vertices mesh' dim e1)
                  <-> In v (entity_vertices mesh' dim e2))) /\
  n = length (nodup (list_eq_dec Nat.eq_dec) (sorted_tuples mesh dim)) /\
  (forall fuel', compute_entities (4 + fuel') mesh dim = Done n mesh').
Proof.
  intros H Z W Tok. pose proof W as (C & _).
  destruct (compute_entities_fresh _ _ _ H Z) as (f & m1 & _ & A1 & A2 & E & -> & ->).
  pose proof (compute_connectivity_cell_cells_inv _ _ _ C E) as ->. clear E H.
  assert (Total : forall fuel', compute_entities (4 + fuel') mesh dim =
            Done (length (connectivity_ev (synthesize (with_cell_cells mesh) dim)))
              (store_entities (with_cell_cells mesh) dim
                 (synthesize (with_cell_cells mesh) dim))).
  { intros fuel'. now apply compute_entities_computes. }
  revert Total.
  destruct (with_cell_cells_shape mesh) as (T & _ & S).
  set (m := with_cell_cells mesh) in *.
  set (s := synthesize m dim) in *.
  assert (D0 : dim <> 0) by (destruct C as (A & _); intros ->; lia).
  assert (DD : dim <> tdim mesh).
  { destruct C as (_ & A & _). unfold num_cells in A. intros ->. lia. }
  assert (Ncells : num_cells m = num_cells mesh).
  { unfold num_cells. now rewrite T, S. }
  pose proof (synthesize_inv m dim) as I. fold s in I. rewrite Ncells in I.
  pose proof (synthesize_distinct m dim (tuples_ok_with_cell_cells _ _ C Tok)
                (with_cell_cells_adjacent _ W)) as ND. fold s in ND.
  assert (Etup : forall c, cell_entities m dim c = cell_entities mesh dim c).
  { intros c. now apply cell_entities_with_cell_cells. }
  assert (Slot : forall c k, c < num_cells mesh -> k < length (cell_entities mesh dim c) ->
            nth k (nth c (connectivity_ce s) []) 0 < length (connectivity_ev s) /\
            nth (nth k (nth c (connectivity_ce s) []) 0) (connectivity_ev s) []
              = std_sort (nth k (cell_entities mesh dim c) [])).
  { intros c k Hc Hk. rewrite <- Etup in *. apply (si_slot I); [left; exact Hc|exact Hk]. }
  assert (Row : forall e, e < length (connectivity_ev s) ->
            exists c k, c < num_cells mesh /\ k < length (cell_entities mesh dim c) /\
              nth e (connectivity_ev s) [] = std_sort (nth k (cell_entities mesh dim c) [])).
  { intros e He. destruct (si_ev I He) as (c & Hin).
    destruct (si_list I _ _ _ Hin) as (_ & _ & k & V & Hk & Ht).
    exists c, k. rewrite Etup in *. destruct V as [V|[_ V]]; [|lia]. auto. }
  unfold incident, entity_vertices, MeshConnectivity.row.
  rewrite store_entities_ev.
  assert (Ece : conn (store_entities m dim s) (tdim mesh) dim = connectivity_ce s).
  { rewrite <- T. apply store_entities_ce. left. congruence. }
  rewrite Ece. intros Total.
  split; [|split; [|split; [|exact Total]]].
  - intros c k c' k' Hc Hk Hc' Hk'.
    destruct (Slot c k Hc Hk) as [L1 R1]. destruct (Slot c' k' Hc' Hk') as [L2 R2].
    split.
    + intros Eq. rewrite <- R1, <- R2. now rewrite Eq.
    + intros Eq. apply (proj1 (NoDup_nth _ []) ND); auto. congruence.
  - intros e1 e2 H1 H2 Hne M.
    destruct (Row e1 H1) as (c1 & k1 & Hc1 & Hk1 & R1).
    destruct (Row e2 H2) as (c2 & k2 & Hc2 & Hk2 & R2).
    destruct (tuples_ok_cell _ _ _ Tok Hc1) as [_ Q1].
    destruct (tuples_ok_cell _ _ _ Tok Hc2) as [_ Q2].
    destruct (Q1 _ (nth_In _ [] Hk1)) as (_ & N1 & _).
    destruct (Q2 _ (nth_In _ [] Hk2)) as (_ & N2 & _).
    apply Hne. apply (proj1 (NoDup_nth _ []) ND); auto.
    apply strict_same_members; [| |exact M].
    + rewrite R1. now apply std_sort_strict.
    + rewrite R2. now apply std_sort_strict.
  - apply Permutation_length. apply NoDup_Permutation; [exact ND|apply NoDup_nodup|].
    intros t. rewrite nodup_In. unfold sorted_tuples, mesh_entities.
    rewrite in_flat_map. split.
    + intros Hin. destruct (In_nth _ _ [] Hin) as (e & He & <-).
      destruct (Row e He) as (c & k & Hc & Hk & R). exists c. split.
      * apply in_seq. unfold num_cells in Hc. lia.
      * rewrite R. apply in_map. now apply nth_In.
    + intros (c & Hc & Hin). apply in_seq in Hc. apply in_map_iff in Hin.
      destruct Hin as (t0 & <- & Hin). destruct (In_nth _ _ [] Hin) as (k & Hk & <-).
      destruct (Slot c k) as [L1 R1]; [unfold num_cells; lia|exact Hk|].
      rewrite <- R1. now apply nth_In.
Qed.

Lemma two_triangles_well_formed : well_formed two_triangles.
Proof.
  apply build_mesh_well_formed; try (simpl; lia).
  vm_compute. reflexivity.
Qed.

Lemma compute_entities_one_index_per_vertex_set_witness :
  (forall c k c' k',
     c < num_cells two_triangles -> k < length (cell_entities two_triangles 1 c) ->
     c' < num_cells two_triangles -> k' < length (cell_entities two_triangles 1 c') ->
     (nth k (incident two_triangles_edges (tdim two_triangles) c 1) 0
        = nth k' (incident two_triangles_edges (tdim two_triangles) c' 1) 0
      <-> std_sort (nth k (cell_entities two_triangles 1 c) [])
            = std_sort (nth k' (cell_entities two_triangles 1 c') []))) /\
  (forall e1 e2, e1 < 5 -> e2 < 5 -> e1 <> e2 ->
     ~ (forall v, In v (entity_vertices two_triangles_edges 1 e1)
                  <-> In v (entity_vertices two_triangles_edges 1 e2))) /\
  5 = length (nodup (list_eq_dec Nat.eq_dec) (sorted_tuples two_triangles 1)) /\
  (forall fuel', compute_entities (4 + fuel') two_triangles 1 = Done 5 two_triangles_edges).
Proof.
  apply (compute_entities_one_index_per_vertex_set 4 two_triangles 1 5 two_triangles_edges).
  - exact two_triangles_edges_computed.
  - reflexivity.
  - exact two_triangles_well_formed.
  - vm_compute. reflexivity.
Defined.

(** ** The scenarios of the specification *)

(** A single triangle has three edges; edge [k] of the cell is opposite
    vertex [k]. *)
Example single_triangle_edges :
  exists mesh', compute_entities 4 one_triangle 1 = Done 3 mesh' /\
    conn mesh' 2 1 = [[0; 1; 2]] /\
    conn mesh' 1 0 = [[1; 2]; [0; 2]; [0; 1]].
Proof.
  exists (mesh_of (compute_entities 4 one_triangle 1) one_triangle).
  vm_compute. repeat split; reflexivity.
Qed.

(** Two triangles that share an edge have five edges, and one edge index
    is in the rows of both cells. *)
Example two_triangles_share_one_edge :
  conn two_triangles_edges 2 1 = [[0; 1; 2]; [3; 0; 4]] /\
  conn two_triangles_edges 1 0 = [[1; 2]; [0; 2]; [0; 1]; [2; 3]; [1; 3]].
Proof. vm_compute. split; reflexivity. Qed.

(** The neighbours of the vertices of the two triangles, through the
    cells. *)
Example two_triangles_vertex_neighbours :
  exists mesh', compute_connectivity 4 two_triangles 0 0 = Done tt mesh' /\
    conn mesh' 0 0 = [[1; 2]; [0; 2; 3]; [0; 1; 3]; [1; 2]].
Proof.
  exists (mesh_of (compute_connectivity 4 two_triangles 0 0) two_triangles).
  vm_compute. split; reflexivity.
Qed.

Example folded_triangle_edges :
  tuples_ok folded_triangle 1 = false /\
  exists mesh', compute_entities 4 folded_triangle 1 = Done 3 mesh' /\
    conn mesh' 2 1 = [[0; 1; 2]] /\
    conn mesh' 1 0 = [[0; 1]; [0; 1]; [0; 0]].
Proof.
  split; [vm_compute; reflexivity|].
  exists (mesh_of (compute_entities 4 folded_triangle 1) folded_triangle).
  vm_compute. repeat split; reflexivity.
Qed.

(** ** [contains] compares sets of vertices *)

Lemma contains_false (v0 v1 : list nat) :
  contains v0 v1 = false <-> exists v, In v v1 /\ ~ In v v0.
Proof.
  split.
  - unfold contains. induction v1 as [|x v1 IH]; simpl; [discriminate|].
    destruct (existsb (fun x0 => x0 =? x) v0) eqn:E; simpl.
    + intros H. destruct (IH H) as (v & Hv & Hn). exists v. auto.
    + intros _. exists x. split; [now left|].
      intros Hin. apply Bool.not_true_iff_false in E. apply E.
      apply existsb_exists. exists x. split; [exact Hin|apply Nat.eqb_refl].
  - intros (v & Hv & Hn). apply Bool.not_true_iff_false. intros H.
    apply Hn. now apply (proj1 (contains_spec v0 v1) H).
Qed.

(** X1: [contains(v0, v1)] is true exactly when every vertex of [v1] occurs
    in [v0], and false exactly when some vertex of [v1] is missing from
    [v0]; so it is reflexive and transitive, true for an empty [v1], false
    for an empty [v0] unless [v1] is empty too, and blind to the order of
    the vertices in both arguments. *)
Theorem contains_compares_vertex_sets (v0 v1 : list nat) :
  (contains v0 v1 = true <-> forall v, In v v1 -> In v v0) /\
  (contains v0 v1 = false <-> exists v, In v v1 /\ ~ In v v0) /\
  contains v0 v0 = true /\
  (forall v2, contains v0 v1 = true -> contains v1 v2 = true -> contains v0 v2 = true) /\
  contains v0 [] = true /\
  (contains [] v1 = true <-> v1 = []) /\
  contains (std_sort v0) (std_sort v1) = contains v0 v1.
Proof.
  split; [apply contains_spec|]. split; [apply contains_false|].
  split; [apply contains_spec; auto|].
  split.
  { intros v2 H1 H2. apply contains_spec. intros v Hv.
    apply (proj1 (contains_spec v0 v1) H1). now apply (proj1 (contains_spec v1 v2) H2). }
  split; [reflexivity|]. split.
  - split.
    + intros H. destruct v1 as [|x v1]; [reflexivity|].
      exfalso. apply (proj1 (contains_spec [] (x :: v1)) H x). now left.
    + intros ->. reflexivity.
  - apply Bool.eq_true_iff_eq. rewrite !contains_spec. split; intros H v Hv.
    + apply std_sort_In. apply H. now apply std_sort_In.
    + apply std_sort_In. apply H. now apply std_sort_In.
Qed.

(** ** The transpose as a relation, with multiplicities *)

Lemma count_occ_flat_map_repeat (cnt : nat -> nat) (n a x : nat) :
  count_occ Nat.eq_dec (flat_map (fun e => repeat e (cnt e)) (seq a n)) x =
  if (a <=? x) && (x <? a + n) then cnt x else 0.
Proof.
  revert a. induction n as [|n IH]; intros a; simpl.
  - destruct (Nat.leb_spec a x); destruct (Nat.ltb_spec x (a + 0)); simpl; auto; lia.
  - rewrite count_occ_app, IH.
    destruct (Nat.eq_dec a x) as [->|Hne].
    + rewrite count_occ_repeat_eq by reflexivity.
      destruct (Nat.leb_spec (S x) x); [lia|].
      destruct (Nat.leb_spec x x); [|lia].
      destruct (Nat.ltb_spec x (x + S n)); [|lia]. simpl. lia.
    + rewrite count_occ_repeat_neq by congruence.
      destruct (Nat.leb_spec (S a) x); destruct (Nat.leb_spec a x);
        destruct (Nat.ltb_spec x (S a + n)); destruct (Nat.ltb_spec x (a + S n));
        simpl; auto; lia.
Qed.

Lemma transpose_rows_count (mesh : Mesh) (d0 d1 e0 e1 : nat) :
  e0 < tsize mesh d0 ->
  count_occ Nat.eq_dec (MeshConnectivity.row (transpose_rows mesh d0 d1) e0) e1 =
  if e1 <? tsize mesh d1 then count_occ Nat.eq_dec (incident mesh d1 e1 d0) e0 else 0.
Proof.
  intros H0. rewrite transpose_rows_row.
  rewrite (proj2 (Nat.ltb_lt _ _) H0).
  rewrite sources_of_incidence_pairs. unfold mesh_entities.
  rewrite count_occ_flat_map_repeat. reflexivity.
Qed.

(** X2: the store that [compute_from_transpose(d0, d1)] leaves has one row
    per entity of dimension [d0], and it is the transpose of the incidence
    [(d1, d0)]: [e1] is in the row of [e0] exactly when [e1] is an entity of
    dimension [d1] whose row holds [e0], and as often as that row holds
    it. *)
Theorem compute_from_transpose_is_transpose
    (mesh : Mesh) (d0 d1 : nat) (mesh' : Mesh) :
  compute_from_transpose mesh d0 d1 = Done tt mesh' ->
  MeshConnectivity.size (conn mesh' d0 d1) = tsize mesh d0 /\
  forall e0 e1, e0 < tsize mesh d0 ->
    (In e1 (incident mesh' d0 e0 d1) <->
     e1 < tsize mesh d1 /\ In e0 (incident mesh d1 e1 d0)) /\
    (e1 < tsize mesh d1 ->
     count_occ Nat.eq_dec (incident mesh' d0 e0 d1) e1
       = count_occ Nat.eq_dec (incident mesh d1 e1 d0) e0).
Proof.
  intros H. destruct (compute_from_transpose_Done _ _ _ H) as (_ & ->).
  unfold incident at 1 3. rewrite conn_set_conn_eq.
  split; [apply transpose_rows_length|].
  intros e0 e1 H0. split; [now apply transpose_rows_In|].
  intros H1. rewrite transpose_rows_count by exact H0.
  now rewrite (proj2 (Nat.ltb_lt _ _) H1).
Qed.

Lemma compute_from_transpose_is_transpose_witness :
  MeshConnectivity.size (conn two_triangles_vc 0 2) = tsize two_triangles 0 /\
  forall e0 e1, e0 < tsize two_triangles 0 ->
    (In e1 (incident two_triangles_vc 0 e0 2) <->
     e1 < tsize two_triangles 2 /\ In e0 (incident two_triangles 2 e1 0)) /\
    (e1 < tsize two_triangles 2 ->
     count_occ Nat.eq_dec (incident two_triangles_vc 0 e0 2) e1
       = count_occ Nat.eq_dec (incident two_triangles 2 e1 0) e0).
Proof.
  apply (compute_from_transpose_is_transpose two_triangles 0 2 two_triangles_vc).
  vm_compute. reflexivity.
Defined.

(** ** The transpose keeps the number of connections *)

Lemma map_nth_seq {A : Type} (l : list A) (d : A) :
  map (fun i => nth i l d) (seq 0 (length l)) = l.
Proof.
  induction l as [|x l IH]; simpl; [reflexivity|].
  f_equal. rewrite <- seq_shift, map_map. exact IH.
Qed.

Lemma list_sum_indicator (x n : nat) :
  list_sum (map (fun e => if x =? e then 1 else 0) (seq 0 n)) = if x <? n then 1 else 0.
Proof.
  induction n as [|n IH]; [reflexivity|].
  rewrite seq_S, map_app, list_sum_app, IH. simpl.
  destruct (Nat.eqb_spec x n); destruct (Nat.ltb_spec x n); destruct (Nat.ltb_spec x (S n));
    simpl; lia.
Qed.

Lemma list_sum_map_add {A : Type} (f g : A -> nat) (l : list A) :
  list_sum (map (fun a => f a + g a) l) = list_sum (map f l) + list_sum (map g l).
Proof. induction l as [|a l IH]; simpl; [reflexivity|]. rewrite IH. lia. Qed.

Lemma sources_of_total (P : list (nat * nat)) (n : nat) :
  list_sum (map (fun e0 => length (sources_of e0 P)) (seq 0 n))
  = length (filter (fun p => snd p <? n) P).
Proof.
  induction P as [|p P IH].
  - simpl. induction (seq 0 n) as [|a l IHl]; simpl; auto.
  - rewrite (map_ext _ (fun e0 => (if snd p =? e0 then 1 else 0) + length (sources_of e0 P))).
    + rewrite list_sum_map_add, list_sum_indicator, IH. simpl.
      destruct (snd p <? n); reflexivity.
    + intros e0. rewrite sources_of_cons, length_app.
      destruct (snd p =? e0); reflexivity.
Qed.

Lemma transpose_rows_eq (mesh : Mesh) (d0 d1 : nat) :
  transpose_rows mesh d0 d1 =
  map (fun e0 => sources_of e0 (incidence_pairs mesh d0 d1)) (seq 0 (tsize mesh d0)).
Proof.
  rewrite <- (map_nth_seq (transpose_rows mesh d0 d1) []) at 1.
  rewrite transpose_rows_length. apply map_ext_in. intros e0 Hin.
  apply in_seq in Hin.
  change (nth e0 (transpose_rows mesh d0 d1) [])
    with (MeshConnectivity.row (transpose_rows mesh d0 d1) e0).
  rewrite transpose_rows_row.
  destruct (Nat.ltb_spec e0 (tsize mesh d0)); [reflexivity|lia].
Qed.

Lemma rows_in_range_spec (mesh : Mesh) (d0 d1 e0 e1 : nat) :
  rows_in_range mesh d0 d1 = true -> e0 < tsize mesh d0 ->
  In e1 (incident mesh d0 e0 d1) -> e1 < tsize mesh d1.
Proof.
  intros H H0 H1. unfold rows_in_range in H. rewrite forallb_forall in H.
  assert (Hin : In e0 (mesh_entities mesh d0)) by (apply in_seq; lia).
  specialize (H e0 Hin). rewrite forallb_forall in H.
  apply Nat.ltb_lt. now apply H.
Qed.

Lemma incidence_pairs_length (mesh : Mesh) (d0 d1 : nat) :
  MeshConnectivity.size (conn mesh d1 d0) = tsize mesh d1 ->
  length (incidence_pairs mesh d0 d1) = num_connections (conn mesh d1 d0).
Proof.
  intros S. unfold incidence_pairs, num_connections, mesh_entities.
  rewrite length_flat_map, length_concat.
  transitivity (list_sum (map (@length nat)
                  (map (fun i => nth i (conn mesh d1 d0) [])
                       (seq 0 (length (conn mesh d1 d0)))))); [|now rewrite map_nth_seq].
  unfold MeshConnectivity.size in S. rewrite S, map_map.
  f_equal. apply map_ext. intros e1. now rewrite length_map.
Qed.

(** X3: when the incidence [(d1, d0)] has a row for every entity of
    dimension [d1] and its entries are indices of entities of dimension
    [d0], [compute_from_transpose(d0, d1)] leaves a store with as many
    connections as [(d1, d0)] has: no connection is lost and none is
    invented. *)
Theorem compute_from_transpose_keeps_num_connections
    (mesh : Mesh) (d0 d1 : nat) (mesh' : Mesh) :
  compute_from_transpose mesh d0 d1 = Done tt mesh' ->
  MeshConnectivity.size (conn mesh d1 d0) = tsize mesh d1 ->
  rows_in_range mesh d1 d0 = true ->
  num_connections (conn mesh' d0 d1) = num_connections (conn mesh d1 d0).
Proof.
  intros H S R. destruct (compute_from_transpose_Done _ _ _ H) as (_ & ->).
  rewrite conn_set_conn_eq. rewrite <- incidence_pairs_length by exact S.
  unfold num_connections at 1. rewrite length_concat, transpose_rows_eq, map_map.
  rewrite sources_of_total. f_equal. apply forallb_filter_id.
  apply forallb_forall. intros [e1 e0] Hin. simpl.
  apply In_incidence_pairs in Hin. destruct Hin as [H1 H0].
  apply Nat.ltb_lt. now apply (rows_in_range_spec mesh d1 d0 e1 e0).
Qed.

Lemma compute_from_transpose_keeps_num_connections_witness :
  num_connections (conn two_triangles_vc 0 2) = num_connections (conn two_triangles 2 0).
Proof.
  apply (compute_from_transpose_keeps_num_connections two_triangles 0 2 two_triangles_vc).
  - vm_compute. reflexivity.
  - vm_compute. reflexivity.
  - vm_compute. reflexivity.
Defined.

(** ** The transpose of the transpose *)

Lemma ascending_perm_eq (l1 l2 : list nat) :
  StronglySorted le l1 -> StronglySorted le l2 -> Permutation l1 l2 -> l1 = l2.
Proof.
  intros S1. revert l2. induction S1 as [|x l1 S1 IH Hx]; intros l2 S2 P.
  - apply Permutation_nil in P. now subst.
  - destruct S2 as [|y l2 S2 Hy].
    + apply Permutation_sym, Permutation_nil in P. discriminate.
    + rewrite Forall_forall in Hx, Hy.
      assert (x = y).
      { assert (I1 : In x (y :: l2)) by (apply (Permutation_in _ P); now left).
        assert (I2 : In y (x :: l1))
          by (apply (Permutation_in _ (Permutation_sym P)); now left).
        destruct I1 as [E|I1]; [auto|]. destruct I2 as [E|I2]; [auto|].
        specialize (Hx y I2). specialize (Hy x I1). lia. }
      subst y. f_equal. apply IH; [exact S2|].
      now apply Permutation_cons_inv in P.
Qed.

(** X4: the transpose of a transpose is the incidence it started from with
    every row sorted.  Let [compute_from_transpose(d0, d1)] compute
    [Conn[d0][d1]] from an incidence [(d1, d0)] whose entries are indices of
    entities of dimension [d0]; on any mesh with the same counts that holds
    this [Conn[d0][d1]], [compute_from_transpose(d1, d0)] leaves for every
    entity of dimension [d1] its row of the first [(d1, d0)] in ascending
    order. *)
Theorem compute_from_transpose_round_trip
    (mesh : Mesh) (d0 d1 : nat) (mesh1 mesh2 mesh3 : Mesh) :
  compute_from_transpose mesh d0 d1 = Done tt mesh1 ->
  d0 <> d1 ->
  rows_in_range mesh d1 d0 = true ->
  tsize mesh2 d0 = tsize mesh d0 ->
  tsize mesh2 d1 = tsize mesh d1 ->
  conn mesh2 d0 d1 = conn mesh1 d0 d1 ->
  compute_from_transpose mesh2 d1 d0 = Done tt mesh3 ->
  forall e1, e1 < tsize mesh d1 ->
    incident mesh3 d1 e1 d0 = std_sort (incident mesh d1 e1 d0).
Proof.
  intros H1 Hne R T0 T1 E H2 e1 He1.
  destruct (compute_from_transpose_Done _ _ _ H1) as (_ & ->).
  destruct (compute_from_transpose_Done _ _ _ H2) as (_ & ->).
  rewrite conn_set_conn_eq in E.
  unfold incident at 1. rewrite conn_set_conn_eq.
  apply ascending_perm_eq.
  - rewrite transpose_rows_row, sources_of_incidence_pairs.
    destruct (e1 <? tsize mesh2 d1); [|constructor].
    apply flat_map_repeat_nondecreasing.
  - apply std_sort_ascending.
  - apply Permutation_trans with (incident mesh d1 e1 d0); [|apply std_sort_perm].
    apply (Permutation_count_occ Nat.eq_dec). intros e0.
    rewrite transpose_rows_count by (rewrite T1; exact He1). rewrite T0.
    destruct (Nat.ltb_spec e0 (tsize mesh d0)) as [L|L].
    + unfold incident at 1. rewrite E.
      rewrite transpose_rows_count by exact L.
      now rewrite (proj2 (Nat.ltb_lt _ _) He1).
    + symmetry. apply count_occ_not_In. intros Hin.
      pose proof (rows_in_range_spec mesh d1 d0 e1 e0 R He1 Hin). lia.
Qed.

Lemma compute_from_transpose_round_trip_witness :
  incident (mesh_of (compute_from_transpose two_triangles_vc_only 2 0)
                    two_triangles_vc_only) 2 1 0
  = std_sort (incident two_triangles 2 1 0).
Proof.
  apply (compute_from_transpose_round_trip two_triangles 0 2 two_triangles_vc
           two_triangles_vc_only).
  - vm_compute. reflexivity.
  - lia.
  - vm_compute. reflexivity.
  - reflexivity.
  - reflexivity.
  - vm_compute. reflexivity.
  - vm_compute. reflexivity.
  - vm_compute. lia.
Defined.

(** ** The order of the rows of an intersection *)

Lemma filter_filter {A : Type} (f g : A -> bool) (l : list A) :
  filter f (filter g l) = filter (fun a => g a && f a) l.
Proof.
  induction l as [|a l IH]; simpl; [reflexivity|].
  destruct (g a); simpl; [destruct (f a)|]; now rewrite IH.
Qed.

Lemma collect_fold_keep_first (mesh : Mesh) (d0 d1 e0 : nat) (cands entities : list nat) :
  fold_left (collect mesh d0 d1 e0) cands entities =
  entities ++ filter (fun y => negb (std_find y entities))
                     (keep_first (filter (accepted_candidate mesh d0 d1 e0) cands)).
Proof.
  revert entities. induction cands as [|x cands IH]; intros entities; simpl.
  - now rewrite app_nil_r.
  - rewrite collect_unfold.
    destruct (accepted_candidate mesh d0 d1 e0 x) eqn:A; simpl; [|apply IH].
    destruct (std_find x entities) eqn:F; simpl; rewrite IH.
    + f_equal. rewrite filter_filter. apply filter_ext. intros y.
      destruct (Nat.eqb_spec y x) as [->|Hne]; simpl; [now rewrite F|reflexivity].
    + rewrite <- app_assoc. simpl. f_equal. f_equal.
      rewrite filter_filter. apply filter_ext. intros y.
      unfold std_find. rewrite existsb_app. simpl.
      rewrite orb_false_r, negb_orb. apply andb_comm.
Qed.

(** X5: the store that [compute_from_intersection(d0, d1, d)] leaves has one
    row per entity of dimension [d0]; the row of [e0] lists the candidates
    that pass the test (distinct from [e0] when [d0 = d1], contained in
    [e0] otherwise) in the order in which the walk through dimension [d]
    first meets them, each once. *)
Theorem compute_from_intersection_row_order
    (mesh : Mesh) (d0 d1 d : nat) (mesh' : Mesh) :
  compute_from_intersection mesh d0 d1 d = Done tt mesh' ->
  MeshConnectivity.size (conn mesh' d0 d1) = tsize mesh d0 /\
  forall e0, e0 < tsize mesh d0 ->
    incident mesh' d0 e0 d1 =
    keep_first (filter (accepted_candidate mesh d0 d1 e0) (candidates mesh d0 d1 d e0)).
Proof.
  intros H. destruct (compute_from_intersection_Done _ _ _ _ H) as (_ & _ & _ & ->).
  unfold incident at 1. rewrite conn_set_conn_eq.
  split; [apply intersection_rows_length|].
  intros e0 H0. rewrite intersection_rows_row.
  rewrite (proj2 (Nat.ltb_lt _ _) H0).
  rewrite collect_row_candidates, collect_fold_keep_first. simpl.
  apply filter_true.
Qed.

Lemma compute_from_intersection_row_order_witness :
  MeshConnectivity.size (conn two_triangles_cc 2 2) = tsize two_triangles_vc 2 /\
  forall e0, e0 < tsize two_triangles_vc 2 ->
    incident two_triangles_cc 2 e0 2 =
    keep_first (filter (accepted_candidate two_triangles_vc 2 2 e0)
                       (candidates two_triangles_vc 2 2 0 e0)).
Proof.
  apply (compute_from_intersection_row_order two_triangles_vc 2 2 0 two_triangles_cc).
  vm_compute. reflexivity.
Defined.

(** ** The incidences from vertices to cells, from cells to cells and from
       vertices to vertices *)

Lemma intersection_rows_In (mesh : Mesh) (d0 d1 d e0 : nat) :
  e0 < tsize mesh d0 ->
  NoDup (MeshConnectivity.row (intersection_rows mesh d0 d1 d) e0) /\
  forall e1, In e1 (MeshConnectivity.row (intersection_rows mesh d0 d1 d) e0) <->
    In e1 (candidates mesh d0 d1 d e0) /\ accepted_candidate mesh d0 d1 e0 e1 = true.
Proof.
  intros H0. rewrite intersection_rows_row.
  rewrite (proj2 (Nat.ltb_lt _ _) H0). rewrite collect_row_candidates.
  destruct (collect_fold_spec mesh d0 d1 e0 (candidates mesh d0 d1 d e0) (NoDup_nil _))
    as [ND M].
  split; [exact ND|]. intros e1. rewrite M. simpl. tauto.
Qed.

Lemma constructed_positive_dim (mesh : Mesh) (d : nat) :
  constructed mesh -> MeshConnectivity.size (conn mesh d d) = 0 \/
                      MeshConnectivity.size (conn mesh 0 (tdim mesh)) = 0 ->
  d = 0 \/ d = tdim mesh -> 0 < tdim mesh.
Proof.
  intros (_ & _ & CC) A Hd.
  destruct (tdim mesh) as [|D]; [|lia].
  destruct Hd as [->| ->]; destruct A as [A|A]; rewrite A in CC; lia.
Qed.

(** X6: on a mesh after construction that has no incidence from vertices to
    cells yet, [compute_connectivity(0, D)] returns within every call depth
    from two on; the incidence it leaves has one row per vertex, and the row
    of a vertex lists, in ascending order, exactly the cells that have the
    vertex among their vertices. *)
Theorem vertex_cells_are_the_cells_at_a_vertex (fuel : nat) (mesh : Mesh) :
  constructed mesh ->
  MeshConnectivity.size (conn mesh 0 (tdim mesh)) = 0 ->
  exists mesh',
    compute_connectivity (2 + fuel) mesh 0 (tdim mesh) = Done tt mesh' /\
    MeshConnectivity.size (conn mesh' 0 (tdim mesh)) = tsize mesh 0 /\
    forall v, v < tsize mesh 0 ->
      StronglySorted le (incident mesh' 0 v (tdim mesh)) /\
      forall c, In c (incident mesh' 0 v (tdim mesh)) <->
                c < num_cells mesh /\ In v (entity_vertices mesh (tdim mesh) c).
Proof.
  intros C A. exists (with_vertex_cells mesh).
  split; [now apply compute_connectivity_vertex_cells|].
  unfold with_vertex_cells. rewrite (ltb_0_false A).
  unfold incident. rewrite conn_set_conn_eq.
  split; [apply transpose_rows_length|].
  intros v Hv. split.
  - rewrite transpose_rows_row, sources_of_incidence_pairs.
    destruct (v <? tsize mesh 0); [|constructor].
    apply flat_map_repeat_nondecreasing.
  - intros c. now apply transpose_rows_In.
Qed.

Lemma vertex_cells_are_the_cells_at_a_vertex_witness :
  exists mesh',
    compute_connectivity (2 + 0) two_triangles 0 (tdim two_triangles) = Done tt mesh' /\
    MeshConnectivity.size (conn mesh' 0 (tdim two_triangles)) = tsize two_triangles 0 /\
    forall v, v < tsize two_triangles 0 ->
      StronglySorted le (incident mesh' 0 v (tdim two_triangles)) /\
      forall c, In c (incident mesh' 0 v (tdim two_triangles)) <->
                c < num_cells two_triangles /\
                In v (entity_vertices two_triangles (tdim two_triangles) c).
Proof.
  apply (vertex_cells_are_the_cells_at_a_vertex 0 two_triangles).
  - vm_compute. repeat split; lia.
  - reflexivity.
Defined.

(** X7: on a mesh after construction whose cells name vertices of the mesh
    and that has neither the incidence from vertices to cells nor the one
    from cells to cells, [compute_connectivity(D, D)] returns within every
    call depth from three on; the row of a cell in the incidence it leaves
    lists, each once, exactly the other cells that share a vertex with
    it. *)
Theorem cell_cells_are_the_vertex_neighbours (fuel : nat) (mesh : Mesh) :
  constructed mesh ->
  cells_in_range mesh = true ->
  MeshConnectivity.size (conn mesh 0 (tdim mesh)) = 0 ->
  MeshConnectivity.size (conn mesh (tdim mesh) (tdim mesh)) = 0 ->
  exists mesh',
    compute_connectivity (3 + fuel) mesh (tdim mesh) (tdim mesh) = Done tt mesh' /\
    forall c, c < num_cells mesh ->
      NoDup (incident mesh' (tdim mesh) c (tdim mesh)) /\
      forall c', In c' (incident mesh' (tdim mesh) c (tdim mesh)) <->
                 c' < num_cells mesh /\ c' <> c /\ share_vertex mesh c c'.
Proof.
  intros C R A0 AD. exists (with_cell_cells mesh).
  split; [now apply compute_connectivity_cell_cells|].
  assert (HD : 0 < tdim mesh).
  { apply (constructed_positive_dim mesh 0 C); auto. }
  unfold with_cell_cells, with_vertex_cells.
  rewrite (ltb_0_false AD), (ltb_0_false A0).
  set (m := set_conn mesh 0 (tdim mesh) (transpose_rows mesh 0 (tdim mesh))).
  intros c Hc. unfold incident at 1 2. rewrite conn_set_conn_eq.
  assert (Hc' : c < tsize m (tdim mesh)) by exact Hc.
  destruct (intersection_rows_In m (tdim mesh) (tdim mesh) 0 c Hc') as [ND M].
  split; [exact ND|]. intros c'. rewrite M. clear M ND.
  unfold accepted_candidate. rewrite Nat.eqb_refl.
  rewrite negb_true_iff, Nat.eqb_neq.
  unfold candidates. rewrite in_flat_map.
  assert (Ecell : forall c0, incident m (tdim mesh) c0 0
                             = entity_vertices mesh (tdim mesh) c0).
  { intros c0. unfold incident, entity_vertices, m.
    rewrite conn_set_conn_ne; [reflexivity|]. intros E. inversion E. lia. }
  assert (Evert : forall v c0, v < tsize mesh 0 ->
            (In c0 (incident m 0 v (tdim mesh)) <->
             c0 < num_cells mesh /\ In v (entity_vertices mesh (tdim mesh) c0))).
  { intros v c0 Hv. unfold incident at 1, m. rewrite conn_set_conn_eq.
    now apply transpose_rows_In. }
  split.
  - intros [(v & Hv & Hin) Hne]. rewrite Ecell in Hv.
    apply Evert in Hin; [|now apply (cells_in_range_spec mesh c v)].
    destruct Hin as [Hc0 Hv0]. split; [exact Hc0|]. split; [congruence|].
    exists v. split; assumption.
  - intros (Hc0 & Hne & v & Hv0 & Hv). split; [|congruence].
    exists v. rewrite Ecell. split; [exact Hv|].
    apply Evert; [now apply (cells_in_range_spec mesh c v)|]. split; assumption.
Qed.

Lemma cell_cells_are_the_vertex_neighbours_witness :
  exists mesh',
    compute_connectivity (3 + 0) two_triangles (tdim two_triangles) (tdim two_triangles)
      = Done tt mesh' /\
    forall c, c < num_cells two_triangles ->
      NoDup (incident mesh' (tdim two_triangles) c (tdim two_triangles)) /\
      forall c', In c' (incident mesh' (tdim two_triangles) c (tdim two_triangles)) <->
                 c' < num_cells two_triangles /\ c' <> c /\ share_vertex two_triangles c c'.
Proof.
  apply (cell_cells_are_the_vertex_neighbours 0 two_triangles).
  - vm_compute. repeat split; lia.
  - vm_compute. reflexivity.
  - reflexivity.
  - reflexivity.
Defined.

(** X8: on a mesh after construction that has neither the incidence from
    vertices to cells nor the one from vertices to vertices,
    [compute_connectivity(0, 0)] goes through the cells and returns within
    every call depth from three on; the row of a vertex in the incidence it
    leaves lists, each once, exactly the other vertices that lie in a cell
    together with it. *)
Theorem vertex_vertices_share_a_cell (fuel : nat) (mesh : Mesh) :
  constructed mesh ->
  MeshConnectivity.size (conn mesh 0 (tdim mesh)) = 0 ->
  MeshConnectivity.size (conn mesh 0 0) = 0 ->
  exists mesh',
    compute_connectivity (3 + fuel) mesh 0 0 = Done tt mesh' /\
    forall v, v < tsize mesh 0 ->
      NoDup (incident mesh' 0 v 0) /\
      forall v', In v' (incident mesh' 0 v 0) <->
        v' <> v /\
        exists c, c < num_cells mesh /\
                  In v (entity_vertices mesh (tdim mesh) c) /\
                  In v' (entity_vertices mesh (tdim mesh) c).
Proof.
  intros C A0 A00. pose proof C as (C0 & CD & CC).
  assert (HD : 0 < tdim mesh).
  { apply (constructed_positive_dim mesh 0 C); auto. }
  set (m := set_conn mesh 0 (tdim mesh) (transpose_rows mesh 0 (tdim mesh))).
  assert (Em : with_vertex_cells mesh = m).
  { unfold with_vertex_cells. now rewrite (ltb_0_false A0). }
  assert (Pm : 0 < MeshConnectivity.size (conn m 0 (tdim mesh))).
  { rewrite <- Em. now apply with_vertex_cells_present. }
  assert (Ecells : conn m (tdim mesh) 0 = conn mesh (tdim mesh) 0).
  { unfold m. apply conn_set_conn_ne. intros E. inversion E. lia. }
  exists (set_conn m 0 0 (intersection_rows m 0 0 (tdim mesh))).
  split.
  - change (3 + fuel) with (S (S (S fuel))).
    rewrite compute_connectivity_known by assumption.
    rewrite (ltb_0_false A00). unfold dispatch. simpl.
    unfold intermediate. simpl.
    rewrite compute_connectivity_vertex_cells by exact C. rewrite Em. simpl.
    rewrite compute_connectivity_present by (rewrite Ecells; exact CC). simpl.
    unfold compute_from_intersection. simpl.
    change (tdim m) with (tdim mesh).
    rewrite (ltb_0_true Pm). simpl. rewrite Ecells, (ltb_0_true CC). reflexivity.
  - intros v Hv. unfold incident at 1 2. rewrite conn_set_conn_eq.
    assert (Hv' : v < tsize m 0) by exact Hv.
    destruct (intersection_rows_In m 0 0 (tdim mesh) v Hv') as [ND M].
    split; [exact ND|]. intros v'. rewrite M. clear M ND.
    unfold accepted_candidate. simpl. rewrite negb_true_iff, Nat.eqb_neq.
    unfold candidates. rewrite in_flat_map.
    assert (Evert : forall c, In c (incident m 0 v (tdim mesh)) <->
              c < num_cells mesh /\ In v (entity_vertices mesh (tdim mesh) c)).
    { intros c. unfold incident at 1, m. rewrite conn_set_conn_eq.
      now apply transpose_rows_In. }
    assert (Ecell : forall c, incident m (tdim mesh) c 0
                              = entity_vertices mesh (tdim mesh) c).
    { intros c. unfold incident, entity_vertices. now rewrite Ecells. }
    split.
    + intros [(c & Hc & Hin) Hne]. apply Evert in Hc. rewrite Ecell in Hin.
      split; [congruence|]. exists c. tauto.
    + intros (Hne & c & Hc & Hvc & Hvc'). split; [|congruence].
      exists c. rewrite Ecell. split; [|exact Hvc']. apply Evert. tauto.
Qed.

Lemma vertex_vertices_share_a_cell_witness :
  exists mesh',
    compute_connectivity (3 + 0) two_triangles 0 0 = Done tt mesh' /\
    forall v, v < tsize two_triangles 0 ->
      NoDup (incident mesh' 0 v 0) /\
      forall v', In v' (incident mesh' 0 v 0) <->
        v' <> v /\
        exists c, c < num_cells two_triangles /\
                  In v (entity_vertices two_triangles (tdim two_triangles) c) /\
                  In v' (entity_vertices two_triangles (tdim two_triangles) c).
Proof.
  apply (vertex_vertices_share_a_cell 0 two_triangles).
  - vm_compute. repeat split; lia.
  - reflexivity.
  - reflexivity.
Defined.

(** ** What a request leaves behind *)

(** X9: when [compute_connectivity(d0, d1)] returns and the mesh it leaves
    has entities of dimension [d0], the incidence [(d0, d1)] is present in
    that mesh; a request can return without the incidence only when there
    is no entity of dimension [d0]. *)
Theorem compute_connectivity_leaves_the_incidence
    (fuel : nat) (mesh : Mesh) (d0 d1 : nat) (mesh' : Mesh) :
  compute_connectivity fuel mesh d0 d1 = Done tt mesh' ->
  0 < tsize mesh' d0 ->
  0 < MeshConnectivity.size (conn mesh' d0 d1).
Proof.
  intros H Hn. destruct fuel as [|fuel]; [discriminate|].
  destruct (compute_connectivity_Done _ _ _ _ H)
    as [[P ->]|(_ & m1 & m2 & _ & _ & Hcase)]; [exact P|].
  destruct Hcase as [(Z & _ & ->)|[(_ & P & ->)|(_ & _ & Hd)]]; [lia|exact P|].
  destruct (dispatch_Done _ _ _ _ Hd)
    as [(_ & m3 & _ & T)|(_ & _ & m3 & m4 & _ & _ & I)].
  - destruct (compute_from_transpose_Done _ _ _ T) as (_ & ->).
    rewrite conn_set_conn_eq. unfold MeshConnectivity.size.
    rewrite transpose_rows_length. exact Hn.
  - destruct (compute_from_intersection_Done _ _ _ _ I) as (_ & _ & _ & ->).
    rewrite conn_set_conn_eq. unfold MeshConnectivity.size.
    rewrite intersection_rows_length. exact Hn.
Qed.

Lemma compute_connectivity_leaves_the_incidence_witness :
  0 < MeshConnectivity.size (conn two_triangles_vc 0 2).
Proof.
  apply (compute_connectivity_leaves_the_incidence 2 two_triangles 0 2 two_triangles_vc).
  - vm_compute. reflexivity.
  - vm_compute. lia.
Defined.

(** ** What [compute_entities] writes *)

(** X10: on a mesh after construction, the only incidences that a call of
    [compute_entities(dim)] can change are [(D, dim)], [(dim, 0)], [(0, D)]
    and [(D, D)], and the only count the one of dimension [dim]; when the
    entities were not counted before, the call leaves the incidence from
    cells to cells present, which the cell loop walks. *)
Theorem compute_entities_writes_only_its_incidences
    (fuel : nat) (mesh : Mesh) (dim n : nat) (mesh' : Mesh) :
  constructed mesh ->
  compute_entities fuel mesh dim = Done n mesh' ->
  (forall a b, (a, b) <> (tdim mesh, dim) -> (a, b) <> (dim, 0) ->
     (a, b) <> (0, tdim mesh) -> (a, b) <> (tdim mesh, tdim mesh) ->
     conn mesh' a b = conn mesh a b) /\
  (forall d, d <> dim -> tsize mesh' d = tsize mesh d) /\
  (tsize mesh dim = 0 ->
   0 < MeshConnectivity.size (conn mesh' (tdim mesh) (tdim mesh))).
Proof.
  intros C H.
  destruct (Nat.eq_dec (tsize mesh dim) 0) as [Z|Z].
  - destruct (compute_entities_fresh _ _ _ H Z)
      as (f & m1 & _ & A1 & A2 & E & _ & ->).
    pose proof (compute_connectivity_cell_cells_inv _ _ _ C E) as ->.
    destruct (with_cell_cells_shape mesh) as (T & _ & Sz).
    pose proof C as (C0 & CD & CC).
    assert (D0 : dim <> 0) by (intros ->; lia).
    assert (DD : dim <> tdim mesh) by (unfold num_cells in CD; intros ->; lia).
    split; [|split].
    + intros a b N1 N2 N3 N4. rewrite store_entities_conn.
      * now apply with_cell_cells_conn.
      * now rewrite T.
      * exact N2.
    + intros d Hd. rewrite store_entities_tsize_ne by exact Hd. apply Sz.
    + intros _. rewrite store_entities_conn.
      * now apply with_cell_cells_present.
      * rewrite T. intros X. inversion X. congruence.
      * intros X. inversion X. congruence.
  - destruct (compute_entities_cached _ _ _ H) as [-> _]; [lia|].
    split; [auto|split; [auto|intros; lia]].
Qed.

Lemma compute_entities_writes_only_its_incidences_witness :
  (forall a b, (a, b) <> (tdim two_triangles, 1) -> (a, b) <> (1, 0) ->
     (a, b) <> (0, tdim two_triangles) -> (a, b) <> (tdim two_triangles, tdim two_triangles) ->
     conn two_triangles_edges a b = conn two_triangles a b) /\
  (forall d, d <> 1 -> tsize two_triangles_edges d = tsize two_triangles d) /\
  (tsize two_triangles 1 = 0 ->
   0 < MeshConnectivity.size
         (conn two_triangles_edges (tdim two_triangles) (tdim two_triangles))).
Proof.
  apply (compute_entities_writes_only_its_incidences 4 two_triangles 1 5).
  - vm_compute. repeat split; lia.
  - exact two_triangles_edges_computed.
Defined.

(** ** Requests that [compute_entities] answers *)

(** X11: on a mesh after construction, take a dimension [d > 0] that has
    neither entities nor incidences yet.  A request [(d, 0)] or [(D, d)] is
    then answered by [compute_entities(d)] alone, within every call depth
    from five on: when the cells have entities of dimension [d], each of the
    two requests returns the mesh that [compute_entities] leaves; when they
    have none, the request [(d, 0)] stops at the assertion that excludes
    [d0 > 0, d1 = 0]. *)
Theorem compute_connectivity_answered_by_compute_entities
    (fuel : nat) (mesh : Mesh) (d : nat) :
  constructed mesh -> 0 < d ->
  tsize mesh d = 0 ->
  MeshConnectivity.size (conn mesh (tdim mesh) d) = 0 ->
  MeshConnectivity.size (conn mesh d 0) = 0 ->
  exists n mesh',
    compute_entities (4 + fuel) mesh d = Done n mesh' /\
    compute_connectivity (5 + fuel) mesh d 0 =
      (if 0 <? n then Done tt mesh' else Fatal AssertionFailed mesh') /\
    (0 < n -> compute_connectivity (5 + fuel) mesh (tdim mesh) d = Done tt mesh').
Proof.
  intros C Hd Z A1 A2.
  set (m := with_cell_cells mesh).
  set (s := synthesize m d).
  exists (length (connectivity_ev s)), (store_entities m d s).
  assert (E : compute_entities (4 + fuel) mesh d
              = Done (length (connectivity_ev s)) (store_entities m d s))
    by now apply compute_entities_computes.
  split; [exact E|].
  pose proof C as (C0 & CD & CC).
  destruct (with_cell_cells_shape mesh) as (T & _ & Sz).
  assert (DD : d <> tdim mesh) by (unfold num_cells in CD; intros ->; lia).
  assert (T0 : 0 < tsize (store_entities m d s) 0).
  { rewrite store_entities_tsize_ne by lia. fold m in Sz. now rewrite Sz. }
  assert (TD : 0 < tsize (store_entities m d s) (tdim mesh)).
  { rewrite store_entities_tsize_ne by congruence. fold m in Sz. now rewrite Sz. }
  assert (Td : tsize (store_entities m d s) d = length (connectivity_ev s))
    by apply store_entities_tsize_eq.
  assert (Sd : MeshConnectivity.size (conn (store_entities m d s) d 0)
               = length (connectivity_ev s)).
  { now rewrite store_entities_ev. }
  assert (Ens : ensure_entities (compute_entities (4 + fuel)) mesh d
                = Done tt (store_entities m d s)).
  { unfold ensure_entities. rewrite Z, Nat.eqb_refl, E. reflexivity. }
  change (5 + fuel) with (S (4 + fuel)).
  split.
  - rewrite (@compute_connectivity_miss (4 + fuel) mesh d 0
               (store_entities m d s) (store_entities m d s)).
    + rewrite Td, Sd.
      destruct (length (connectivity_ev s)) as [|k] eqn:L; simpl.
      * rewrite (eqb_0_false T0). simpl.
        unfold dispatch. simpl.
        apply Nat.ltb_lt in Hd. rewrite Hd. reflexivity.
      * reflexivity.
    + exact A2.
    + exact Ens.
    + now apply ensure_entities_known.
  - intros Hn.
    rewrite (@compute_connectivity_miss (4 + fuel) mesh (tdim mesh) d
               mesh (store_entities m d s)).
    + rewrite (eqb_0_false TD). simpl.
      assert (P : 0 < MeshConnectivity.size
                        (conn (store_entities m d s) (tdim mesh) d)).
      { fold m in T. rewrite <- T. rewrite store_entities_ce by (left; congruence).
        unfold MeshConnectivity.size.
        pose proof (si_len_ce (synthesize_inv m d)) as Lce. fold s in Lce.
        rewrite Lce. unfold num_cells. rewrite T. fold m in Sz. rewrite Sz. exact CD. }
      now rewrite (ltb_0_true P).
    + exact A1.
    + now apply ensure_entities_known.
    + exact Ens.
Qed.

Lemma compute_connectivity_answered_by_compute_entities_witness :
  exists n mesh',
    compute_entities (4 + 0) two_triangles 1 = Done n mesh' /\
    compute_connectivity (5 + 0) two_triangles 1 0 =
      (if 0 <? n then Done tt mesh' else Fatal AssertionFailed mesh') /\
    (0 < n ->
     compute_connectivity (5 + 0) two_triangles (tdim two_triangles) 1 = Done tt mesh').
Proof.
  apply (compute_connectivity_answered_by_compute_entities 0 two_triangles 1).
  - vm_compute. repeat split; lia.
  - lia.
  - reflexivity.
  - reflexivity.
  - reflexivity.
Defined.

(** ** An invariant of the cell loop, carried along the loop *)

Section SynthesisLoop.
Variable mesh : Mesh.
Variable dim : nat.
Variable Q : nat -> nat -> synthesis -> Prop.

Local Abbreviation N := (num_cells mesh).
Local Abbreviation tuples := (cell_entities mesh dim).
Local Abbreviation cells_of c := (incident mesh (tdim mesh) c (tdim mesh)).

Hypothesis Q_start : Q 0 0 (synthesis_start mesh).
Hypothesis Q_entity : forall c j s,
  synth_inv mesh dim c j s -> Q c j s -> c < N -> j < length (tuples c) ->
  Q c (S j) (visit_entity c (cells_of c) s (nth j (tuples c) [])).
Hypothesis Q_next : forall c s,
  synth_inv mesh dim c (length (tuples c)) s -> Q c (length (tuples c)) s -> c < N ->
  Q (S c) 0 s.

Lemma synth_loop_slots (c : nat) (es : list (list nat)) (j : nat) (s : synthesis) :
  synth_inv mesh dim c j s -> Q c j s ->
  c < N -> j <= length (tuples c) -> skipn j (tuples c) = es ->
  Q c (length (tuples c)) (fold_left (visit_entity c (cells_of c)) es s).
Proof.
  revert j s. induction es as [|e es IH]; intros j s I HQ Hc Hle Hes; simpl.
  - assert (E : j = length (tuples c)).
    { apply (f_equal (@length _)) in Hes. rewrite length_skipn in Hes. simpl in Hes. lia. }
    now rewrite <- E.
  - destruct (skipn_nth_cons _ _ [] Hes) as (Hj & He & Hes').
    subst e. apply (IH (S j)); auto.
    now apply synth_inv_visit_entity.
Qed.

Lemma synth_loop_cells (n c : nat) (s : synthesis) :
  synth_inv mesh dim c 0 s -> Q c 0 s -> c + n = N ->
  Q N 0 (fold_left (visit_cell mesh dim) (seq c n) s).
Proof.
  revert c s. induction n as [|n IH]; intros c s I HQ Hn; simpl.
  - replace N with c by lia. exact HQ.
  - assert (Hc : c < N) by lia.
    apply IH; [now apply synth_inv_visit_cell| |lia].
    apply Q_next; [| |exact Hc].
    + unfold visit_cell. apply (@synth_inv_slots mesh dim c _ 0); auto. lia.
    + unfold visit_cell. apply (synth_loop_slots c _ 0); auto. lia.
Qed.

Lemma synthesize_keeps : Q N 0 (synthesize mesh dim).
Proof.
  unfold synthesize, mesh_entities. apply synth_loop_cells.
  - apply synth_inv_start.
  - exact Q_start.
  - reflexivity.
Qed.
End SynthesisLoop.

(** ** The numbering of the entities by [compute_entities] *)

Lemma visited_trans (c j c1 k1 c2 k2 : nat) :
  visited c j c1 k1 -> visited c1 k1 c2 k2 -> visited c j c2 k2.
Proof. unfold visited. intros [H|[H1 H2]] [G|[G1 G2]]; lia. Qed.

Lemma numbered_in_order_ext (len len' : nat -> nat) (idx idx' : nat -> nat -> nat)
    (c k : nat) :
  (forall c2, len' c2 = len c2) ->
  idx' c k = idx c k ->
  (forall c2 k2, visited c k c2 k2 -> idx' c2 k2 = idx c2 k2) ->
  numbered_in_order len idx c k -> numbered_in_order len' idx' c k.
Proof.
  intros El E0 E [(c2 & k2 & V & L & H)|[H1 H2]].
  - left. exists c2, k2. rewrite El, E0, E; auto.
  - right. split.
    + intros c2 k2 V L. rewrite El in L. rewrite E0, E; auto.
    + intros e He. rewrite E0 in He. destruct (H2 e He) as (c2 & k2 & V & L & H).
      exists c2, k2. rewrite El, E; auto.
Qed.

Lemma visit_entity_ce (c : nat) (cells : list nat) (s : synthesis) (entity : list nat) :
  connectivity_ce (visit_entity c cells s entity) =
  push_back_at c
    (match find_entity (ce_list s) c cells (std_sort entity) with
     | Some e => e
     | None => current_entity s
     end) (connectivity_ce s).
Proof.
  unfold visit_entity.
  destruct (find_entity (ce_list s) c cells (std_sort entity)); reflexivity.
Qed.

Section SynthesisOrder.
Variable mesh : Mesh.
Variable dim : nat.

Local Abbreviation N := (num_cells mesh).
Local Abbreviation tuples := (cell_entities mesh dim).
Local Abbreviation cells_of c := (incident mesh (tdim mesh) c (tdim mesh)).
Local Abbreviation len := (fun c => length (cell_entities mesh dim c)).

Lemma order_inv_start : order_inv mesh dim 0 0 (synthesis_start mesh).
Proof.
  constructor; simpl.
  - intros c' e t. rewrite nth_repeat_nil. intros [].
  - intros e H. lia.
  - intros c' k [H|[_ H]]; lia.
Qed.

Lemma order_inv_visit_entity (c j : nat) (s : synthesis) :
  synth_inv mesh dim c j s -> order_inv mesh dim c j s ->
  c < N -> j < length (tuples c) ->
  order_inv mesh dim c (S j) (visit_entity c (cells_of c) s (nth j (tuples c) [])).
Proof.
  intros I O Hc Hj.
  pose proof (si_len_ce I) as Lce. pose proof (si_len_list I) as Llist.
  pose proof (si_row_cur I Hc) as Lrow. pose proof (si_current I) as Hcur.
  set (s' := visit_entity c (cells_of c) s (nth j (tuples c) [])).
  set (entity := std_sort (nth j (tuples c) [])).
  set (x := match find_entity (ce_list s) c (cells_of c) entity with
            | Some e => e | None => current_entity s end).
  assert (Ece : connectivity_ce s' = push_back_at c x (connectivity_ce s))
    by apply visit_entity_ce.
  assert (Old : forall c1 k1, visited c j c1 k1 -> slot_index s' c1 k1 = slot_index s c1 k1).
  { intros c1 k1 V. unfold slot_index. rewrite Ece.
    destruct (Nat.eq_dec c1 c) as [->|Hne].
    - rewrite nth_push_back_at_eq by lia.
      destruct V as [V|[_ V]]; [lia|]. now rewrite app_nth1 by lia.
    - now rewrite nth_push_back_at_ne by lia. }
  assert (New : slot_index s' c j = x).
  { unfold slot_index. rewrite Ece, nth_push_back_at_eq by lia.
    rewrite app_nth2 by lia. now rewrite Lrow, Nat.sub_diag. }
  assert (Keep : forall c1 k1, visited c j c1 k1 -> k1 < len c1 ->
            numbered_in_order len (slot_index s') c1 k1).
  { intros c1 k1 V L.
    apply (numbered_in_order_ext len len (slot_index s));
      [reflexivity|now apply Old| |now apply (oi_order O)].
    intros c2 k2 V2. apply Old. now apply (visited_trans c j c1 k1). }
  assert (Onto : forall e, e < current_entity s ->
            exists c' k, visited c (S j) c' k /\ k < len c' /\ slot_index s' c' k = e).
  { intros e He. destruct (oi_onto O He) as (c' & k & V & L & H).
    exists c', k. rewrite Old by exact V. repeat split; auto.
    now apply visited_next_slot. }
  assert (List : forall c' e t, In (e, t) (nth c' (ce_list s) []) ->
            exists k, visited c (S j) c' k /\ k < len c' /\ slot_index s' c' k = e).
  { intros c' e t Hin. destruct (oi_list O _ _ _ Hin) as (k & V & L & H).
    exists k. rewrite Old by exact V. repeat split; auto.
    now apply visited_next_slot. }
  destruct (find_entity (ce_list s) c (cells_of c) entity) as [e|] eqn:F.
  - (* the entity is found among those of an earlier cell *)
    assert (Es : ce_list s' = ce_list s /\ current_entity s' = current_entity s).
    { unfold s', visit_entity. fold entity. rewrite F. auto. }
    destruct Es as [El Ec].
    constructor.
    + rewrite El. exact List.
    + rewrite Ec. exact Onto.
    + intros c1 k1 V L. destruct (visited_cases V) as [V'|[-> ->]]; [now apply Keep|].
      left. destruct (find_entity_Some _ _ _ _ F) as (c0 & _ & Hc0 & Hin).
      destruct (oi_list O _ _ _ Hin) as (k & V0 & L0 & H0).
      exists c0, k. rewrite New. rewrite Old by exact V0.
      repeat split; auto.
  - (* a new entity *)
    assert (Es : ce_list s' = push_back_at c (current_entity s, entity) (ce_list s) /\
                 current_entity s' = S (current_entity s)).
    { unfold s', visit_entity. fold entity. rewrite F. auto. }
    destruct Es as [El Ec].
    constructor.
    + intros c' e t Hin. rewrite El in Hin.
      destruct (Nat.eq_dec c' c) as [->|Hne].
      * rewrite nth_push_back_at_eq in Hin by lia.
        apply in_app_or in Hin. destruct Hin as [Hin|[Hin|[]]]; [now apply (List c e t)|].
        inversion Hin. subst e t. exists j. repeat split; auto. right. auto.
      * rewrite nth_push_back_at_ne in Hin by lia. now apply (List c' e t).
    + intros e He. rewrite Ec in He.
      destruct (Nat.eq_dec e (current_entity s)) as [->|Hne].
      * exists c, j. repeat split; auto. right. auto.
      * apply Onto. lia.
    + intros c1 k1 V L. destruct (visited_cases V) as [V'|[-> ->]]; [now apply Keep|].
      right. rewrite New. split.
      * intros c2 k2 V2 L2. rewrite Old by exact V2.
        destruct (si_slot I V2 L2) as [H _]. unfold slot_index. lia.
      * intros e He. destruct (oi_onto O He) as (c' & k & V0 & L0 & H0).
        exists c', k. rewrite Old by exact V0. auto.
Qed.

Lemma order_inv_next_cell (c : nat) (s : synthesis) :
  order_inv mesh dim c (length (tuples c)) s -> c < N -> order_inv mesh dim (S c) 0 s.
Proof.
  intros O Hc.
  assert (V : forall c' k, visited c (length (tuples c)) c' k -> visited (S c) 0 c' k).
  { intros c' k [H|[H1 H2]]; left; lia. }
  assert (V' : forall c' k, visited (S c) 0 c' k -> k < len c' ->
             visited c (length (tuples c)) c' k).
  { intros c' k [H|[_ H]] L; [|lia].
    destruct (Nat.eq_dec c' c) as [->|Hne]; [right; auto|left; lia]. }
  constructor.
  - intros c' e t Hin. destruct (oi_list O _ _ _ Hin) as (k & V0 & L & H).
    exists k. auto.
  - intros e He. destruct (oi_onto O He) as (c' & k & V0 & L & H).
    exists c', k. auto.
  - intros c' k V0 L. apply (oi_order O); auto.
Qed.

Theorem synthesize_order : order_inv mesh dim N 0 (synthesize mesh dim).
Proof.
  apply (synthesize_keeps mesh dim (order_inv mesh dim)).
  - apply order_inv_start.
  - intros c j s I O Hc Hj. now apply order_inv_visit_entity.
  - intros c s _ O Hc. now apply order_inv_next_cell.
Qed.
End SynthesisOrder.

(** The mesh that [compute_entities] leaves after it has computed the
    entities of a dimension between the vertices and the cells. *)
Lemma compute_entities_stored (fuel : nat) (mesh : Mesh) (dim n : nat) (mesh' : Mesh) :
  compute_entities fuel mesh dim = Done n mesh' ->
  tsize mesh dim = 0 ->
  0 < dim < tdim mesh ->
  exists m1, let s := synthesize m1 dim in
    n = length (connectivity_ev s) /\
    tdim mesh' = tdim m1 /\
    num_cells mesh' = num_cells m1 /\
    tsize mesh' dim = n /\
    (forall c, cell_entities mesh' dim c = cell_entities m1 dim c) /\
    conn mesh' (tdim mesh') dim = connectivity_ce s /\
    conn mesh' dim 0 = connectivity_ev s.
Proof.
  intros H Z Hd.
  destruct (compute_entities_fresh _ _ _ H Z) as (fuel' & mesh1 & -> & _ & _ & C & -> & ->).
  destruct (compute_connectivity_tdim _ _ _ _ C) as [D1 _].
  exists mesh1. simpl. set (s := synthesize mesh1 dim).
  split; [reflexivity|]. split; [apply store_entities_tdim|].
  split; [|split; [|split; [|split]]].
  - unfold num_cells. rewrite store_entities_tdim.
    apply store_entities_tsize_ne. lia.
  - apply store_entities_tsize_eq.
  - intros c0. unfold cell_entities, entity_vertices.
    rewrite store_entities_type, store_entities_tdim.
    rewrite store_entities_conn; [reflexivity| |]; intros E; inversion E; lia.
  - rewrite store_entities_tdim. apply store_entities_ce. lia.
  - apply store_entities_ev.
Qed.

(** X12: after [compute_entities(d)] for [0 < d < D], the count of dimension
    [d] is the number returned, [Conn[D][d]] has one row per cell and
    [Conn[d][0]] one row per entity; the row of a cell in [Conn[D][d]] has
    one entry per tuple that the cell-shape oracle gives for the cell, each
    the index of a counted entity, and the row of an entity in [Conn[d][0]]
    has as many vertices as the tuple at any slot that carries the
    entity. *)
Theorem compute_entities_row_shape
    (fuel : nat) (mesh : Mesh) (dim n : nat) (mesh' : Mesh) :
  compute_entities fuel mesh dim = Done n mesh' ->
  tsize mesh dim = 0 ->
  0 < dim < tdim mesh ->
  tsize mesh' dim = n /\
  MeshConnectivity.size (conn mesh' (tdim mesh') dim) = num_cells mesh' /\
  MeshConnectivity.size (conn mesh' dim 0) = n /\
  forall c, c < num_cells mesh' ->
    length (incident mesh' (tdim mesh') c dim) = length (cell_entities mesh' dim c) /\
    forall k, k < length (cell_entities mesh' dim c) ->
      cell_entity mesh' dim c k < n /\
      length (entity_vertices mesh' dim (cell_entity mesh' dim c k))
        = length (nth k (cell_entities mesh' dim c) []).
Proof.
  intros H Z Hd.
  destruct (compute_entities_stored _ _ _ _ _ H Z Hd)
    as (m1 & -> & T & Nc & Td & Ecells & Ece & Eev).
  pose proof (synthesize_inv m1 dim) as I.
  set (s := synthesize m1 dim) in *.
  unfold cell_entity, entity_vertices, incident, MeshConnectivity.row,
    MeshConnectivity.size.
  rewrite Ece, Eev, Nc.
  split; [exact Td|]. split; [apply (si_len_ce I)|]. split; [reflexivity|].
  intros c Hc. rewrite Ecells. split; [now apply (si_rows_done I)|].
  intros k Hk. destruct (@si_slot _ _ _ _ _ I c k) as [L E]; [now left|exact Hk|].
  split; [exact L|]. rewrite E. apply std_sort_length.
Qed.

Lemma compute_entities_row_shape_witness :
  tsize two_triangles_edges 1 = 5 /\
  MeshConnectivity.size (conn two_triangles_edges (tdim two_triangles_edges) 1)
    = num_cells two_triangles_edges /\
  MeshConnectivity.size (conn two_triangles_edges 1 0) = 5 /\
  forall c, c < num_cells two_triangles_edges ->
    length (incident two_triangles_edges (tdim two_triangles_edges) c 1)
      = length (cell_entities two_triangles_edges 1 c) /\
    forall k, k < length (cell_entities two_triangles_edges 1 c) ->
      cell_entity two_triangles_edges 1 c k < 5 /\
      length (entity_vertices two_triangles_edges 1 (cell_entity two_triangles_edges 1 c k))
        = length (nth k (cell_entities two_triangles_edges 1 c) []).
Proof.
  apply (compute_entities_row_shape 4 two_triangles 1 5 two_triangles_edges).
  - exact two_triangles_edges_computed.
  - reflexivity.
  - vm_compute. lia.
Defined.

(** X13: [compute_entities(d)] for [0 < d < D] numbers the entities in the
    order in which the walk over the cells and their slots first meets
    them: every index below the count returned is carried by a slot of a
    cell, and a slot either repeats the index of a slot visited before it
    or carries the least index not yet used, all earlier slots having
    smaller indices and every smaller index being carried by an earlier
    slot. *)
Theorem compute_entities_numbers_in_order_of_discovery
    (fuel : nat) (mesh : Mesh) (dim n : nat) (mesh' : Mesh) :
  compute_entities fuel mesh dim = Done n mesh' ->
  tsize mesh dim = 0 ->
  0 < dim < tdim mesh ->
  (forall e, e < n ->
     exists c k, c < num_cells mesh' /\ k < length (cell_entities mesh' dim c) /\
                 cell_entity mesh' dim c k = e) /\
  (forall c k, c < num_cells mesh' -> k < length (cell_entities mesh' dim c) ->
     numbered_in_order (fun c2 => length (cell_entities mesh' dim c2))
                       (cell_entity mesh' dim) c k).
Proof.
  intros H Z Hd.
  destruct (compute_entities_stored _ _ _ _ _ H Z Hd)
    as (m1 & -> & T & Nc & Td & Ecells & Ece & Eev).
  pose proof (synthesize_inv m1 dim) as I.
  pose proof (synthesize_order m1 dim) as O.
  set (s := synthesize m1 dim) in *.
  assert (Eidx : forall c k, cell_entity mesh' dim c k = slot_index s c k).
  { intros c k. unfold cell_entity, slot_index, incident, MeshConnectivity.row.
    now rewrite Ece. }
  rewrite Nc. split.
  - intros e He. rewrite <- (si_current I) in He.
    destruct (oi_onto O He) as (c & k & V & L & E).
    exists c, k. rewrite Ecells, Eidx. destruct V as [V|[_ V]]; [auto|lia].
  - intros c k Hc Hk. rewrite Ecells in Hk.
    pose proof (@oi_order _ _ _ _ _ O c k (or_introl Hc) Hk) as Ord.
    revert Ord. apply numbered_in_order_ext.
    + intros c2. now rewrite Ecells.
    + apply Eidx.
    + intros c2 k2 _. apply Eidx.
Qed.

Lemma compute_entities_numbers_in_order_of_discovery_witness :
  (forall e, e < 5 ->
     exists c k, c < num_cells two_triangles_edges /\
                 k < length (cell_entities two_triangles_edges 1 c) /\
                 cell_entity two_triangles_edges 1 c k = e) /\
  (forall c k, c < num_cells two_triangles_edges ->
     k < length (cell_entities two_triangles_edges 1 c) ->
     numbered_in_order (fun c2 => length (cell_entities two_triangles_edges 1 c2))
                       (cell_entity two_triangles_edges 1) c k).
Proof.
  apply (compute_entities_numbers_in_order_of_discovery
           4 two_triangles 1 5 two_triangles_edges).
  - exact two_triangles_edges_computed.
  - reflexivity.
  - vm_compute. lia.
Defined.

(** ** The counting pass [count_entities] *)

Lemma found_in_visited_cell_true (mesh : Mesh) (cell_index : nat) (cells : list nat)
    (entity : list nat) :
  found_in_visited_cell mesh cell_index cells entity = true <->
  exists c, In c cells /\ c < cell_index /\
            contains (entity_vertices mesh (tdim mesh) c) entity = true.
Proof.
  induction cells as [|c cells IH]; simpl.
  - split; [discriminate|]. intros (c & [] & _).
  - destruct (Nat.leb_spec cell_index c) as [L|L].
    + rewrite IH. split.
      * intros (c0 & H0 & H1). exists c0. auto.
      * intros (c0 & [<-|H0] & H1 & H2); [lia|]. exists c0. auto.
    + destruct (contains (entity_vertices mesh (tdim mesh) c) entity) eqn:E.
      * split; [|reflexivity]. intros _. exists c. auto.
      * rewrite IH. split.
        -- intros (c0 & H0 & H1). exists c0. auto.
        -- intros (c0 & [<-|H0] & H1 & H2); [congruence|]. exists c0. auto.
Qed.




(** ** The counting pass against the cell loop of [compute_entities] *)

Lemma tuples_shared_spec (mesh : Mesh) (dim c c0 : nat) (t : list nat) :
  tuples_shared mesh dim = true ->
  c < num_cells mesh -> In t (cell_entities mesh dim c) -> c0 < num_cells mesh ->
  contains (entity_vertices mesh (tdim mesh) c0) t = true ->
  exists k0, k0 < length (cell_entities mesh dim c0) /\
             std_sort (nth k0 (cell_entities mesh dim c0) []) = std_sort t.
Proof.
  intros H Hc Ht Hc0 Hcon. unfold tuples_shared in H. rewrite forallb_forall in H.
  assert (Hin : In c (mesh_entities mesh (tdim mesh))).
  { unfold mesh_entities. apply in_seq. unfold num_cells in Hc. lia. }
  specialize (H c Hin). rewrite forallb_forall in H. specialize (H t Ht).
  rewrite forallb_forall in H.
  assert (Hin0 : In c0 (mesh_entities mesh (tdim mesh))).
  { unfold mesh_entities. apply in_seq. unfold num_cells in Hc0. lia. }
  specialize (H c0 Hin0). rewrite Hcon in H. simpl in H.
  apply existsb_exists in H. destruct H as (t0 & Hin1 & E).
  apply vec_eqb_true in E.
  destruct (In_nth _ _ [] Hin1) as (k0 & Hk0 & Hnth).
  rewrite length_map in Hk0. exists k0. split; [exact Hk0|].
  pose proof (map_nth std_sort (cell_entities mesh dim c0) [] k0) as M. simpl in M.
  rewrite <- M, Hnth. now symmetry.
Qed.

Section CountEntities.
Variable mesh : Mesh.
Variable dim : nat.
Hypothesis Htuples : tuples_ok mesh dim = true.
Hypothesis Hadjacent : vertex_adjacent mesh.
Hypothesis Hshared : tuples_shared mesh dim = true.

Local Abbreviation N := (num_cells mesh).
Local Abbreviation tuples := (cell_entities mesh dim).
Local Abbreviation cells_of c := (incident mesh (tdim mesh) c (tdim mesh)).

(** The counting pass finds a tuple in an earlier cell exactly when the
    cell loop finds the entity among those it has recorded. *)
Lemma find_entity_counted (c j : nat) (s : synthesis) :
  synth_inv mesh dim c j s -> c < N -> j < length (tuples c) ->
  found_in_visited_cell mesh c (cells_of c) (nth j (tuples c) []) =
  match find_entity (ce_list s) c (cells_of c) (std_sort (nth j (tuples c) [])) with
  | Some _ => true
  | None => false
  end.
Proof.
  intros I Hc Hj.
  destruct (find_entity (ce_list s) c (cells_of c) (std_sort (nth j (tuples c) [])))
    as [e|] eqn:F.
  - apply found_in_visited_cell_true.
    destruct (find_entity_Some _ _ _ _ F) as (c0 & Hin0 & Hc0 & Hlist).
    destruct (si_list I _ _ _ Hlist) as (_ & _ & k & _ & Hk & Ht).
    exists c0. split; [exact Hin0|]. split; [exact Hc0|].
    assert (Hc0N : c0 < N) by lia.
    destruct (tuples_ok_cell _ _ _ Htuples Hc0N) as [_ H0].
    destruct (H0 _ (nth_In _ [] Hk)) as (_ & _ & Hv0).
    apply contains_spec. intros v Hv. apply Hv0.
    apply std_sort_In. rewrite <- Ht. now apply std_sort_In.
  - apply Bool.not_true_iff_false. intros X.
    apply found_in_visited_cell_true in X. destruct X as (c0 & Hin0 & Hc0 & Hcon).
    assert (Hc0N : c0 < N) by lia.
    destruct (tuples_shared_spec mesh dim c c0 _ Hshared Hc (nth_In _ [] Hj) Hc0N Hcon)
      as (k0 & Hk0 & E0).
    destruct (@si_slot _ _ _ _ _ I c0 k0 (or_introl Hc0) Hk0) as [He0 Hrow].
    destruct (si_ev I He0) as (c1 & Hlist). rewrite Hrow, E0 in Hlist.
    destruct (si_list I _ _ _ Hlist) as (_ & _ & k1 & V & Hk1 & Ht).
    destruct V as [V|[-> V]].
    + eapply (@find_entity_None _ _ _ _ F); [|exact V|exact Hlist].
      apply Hadjacent; [exact Hc|exact V|].
      apply (same_tuple_share_vertex mesh dim Htuples c j c1 k1); auto; lia.
    + destruct (tuples_ok_cell _ _ _ Htuples Hc) as [NDc _].
      assert (E : nth k1 (map std_sort (tuples c)) [] = nth j (map std_sort (tuples c)) []).
      { pose proof (map_nth std_sort (tuples c) [] k1) as M0.
        pose proof (map_nth std_sort (tuples c) [] j) as M1.
        simpl in M0, M1. rewrite M0, M1. now rewrite <- Ht. }
      apply (proj1 (NoDup_nth _ []) NDc) in E; rewrite ?length_map; lia.
Qed.

Lemma firstn_S_nth {A : Type} (l : list A) (j : nat) (d : A) :
  j < length l -> firstn (S j) l = firstn j l ++ [nth j l d].
Proof.
  revert j. induction l as [|x l IH]; intros j Hj; simpl in *; [lia|].
  destruct j as [|j]; [reflexivity|]. simpl. f_equal. apply IH. lia.
Qed.

Lemma count_inv_start : count_inv mesh dim 0 0 (synthesis_start mesh).
Proof. reflexivity. Qed.

Lemma count_inv_visit_entity (c j : nat) (s : synthesis) :
  synth_inv mesh dim c j s -> count_inv mesh dim c j s ->
  c < N -> j < length (tuples c) ->
  count_inv mesh dim c (S j) (visit_entity c (cells_of c) s (nth j (tuples c) [])).
Proof.
  intros I Q Hc Hj. unfold count_inv in *.
  rewrite (firstn_S_nth _ _ [] Hj).
  unfold count_new_entities at 2. rewrite fold_left_app. simpl.
  fold (count_new_entities mesh (tdim mesh) c (firstn j (tuples c)) 0).
  rewrite (find_entity_counted c j s I Hc Hj).
  unfold visit_entity.
  destruct (find_entity (ce_list s) c (cells_of c) (std_sort (nth j (tuples c) [])));
    simpl; lia.
Qed.

Lemma count_inv_next_cell (c : nat) (s : synthesis) :
  count_inv mesh dim c (length (tuples c)) s -> count_inv mesh dim (S c) 0 s.
Proof.
  unfold count_inv. intros Q. rewrite firstn_all in Q.
  rewrite seq_S, map_app, list_sum_app. simpl. lia.
Qed.

Theorem synthesize_count : count_inv mesh dim N 0 (synthesize mesh dim).
Proof.
  apply (synthesize_keeps mesh dim (count_inv mesh dim)).
  - apply count_inv_start.
  - intros c j s I Q Hc Hj. now apply count_inv_visit_entity.
  - intros c s _ Q _. now apply count_inv_next_cell.
Qed.
End CountEntities.

Lemma found_in_visited_cell_same (m m' : Mesh) (cell_index : nat) (cells : list nat)
    (entity : list nat) :
  tdim m' = tdim m -> conn m' (tdim m) 0 = conn m (tdim m) 0 ->
  found_in_visited_cell m' cell_index cells entity
  = found_in_visited_cell m cell_index cells entity.
Proof.
  intros T E. induction cells as [|c cells IH]; simpl; [reflexivity|].
  rewrite IH. unfold entity_vertices. now rewrite T, E.
Qed.

Lemma count_new_entities_same (m m' : Mesh) (c : nat) (entities : list (list nat)) (a : nat) :
  tdim m' = tdim m -> conn m' (tdim m) 0 = conn m (tdim m) 0 ->
  conn m' (tdim m) (tdim m) = conn m (tdim m) (tdim m) ->
  count_new_entities m' (tdim m') c entities a = count_new_entities m (tdim m) c entities a.
Proof.
  intros T E0 ED. unfold count_new_entities.
  revert a. induction entities as [|e entities IH]; intros a; simpl; [reflexivity|].
  rewrite IH. f_equal.
  rewrite (found_in_visited_cell_same m m') by assumption.
  unfold incident. now rewrite T, ED.
Qed.

Lemma tuples_shared_with_cell_cells (mesh : Mesh) (dim : nat) :
  constructed mesh -> tuples_shared mesh dim = true ->
  tuples_shared (with_cell_cells mesh) dim = true.
Proof.
  intros C H. destruct (with_cell_cells_shape mesh) as (T & _ & Sz).
  unfold tuples_shared in *. rewrite forallb_forall in *. intros c Hc.
  unfold mesh_entities in *. rewrite T, Sz in Hc. specialize (H c Hc).
  rewrite cell_entities_with_cell_cells by exact C.
  rewrite forallb_forall in *. intros t Ht. specialize (H t Ht).
  rewrite forallb_forall in *. intros c0 Hc0. rewrite T, Sz in Hc0.
  specialize (H c0 Hc0).
  rewrite cell_entities_with_cell_cells by exact C.
  rewrite T. now rewrite with_cell_cells_vertices.
Qed.

(** X15: on a well-formed mesh whose cells have well-formed tuples and
    share them (a mesh of simplices), the older counting pass agrees with
    the cell loop of [compute_entities(d)]: on the mesh that
    [compute_entities] leaves, [count_entities] returns for every cell, and
    the counts of the cells add up to the number of entities that
    [compute_entities] returned. *)
Theorem count_entities_adds_up_to_the_entities
    (fuel : nat) (mesh : Mesh) (dim n : nat) (mesh' : Mesh) :
  compute_entities fuel mesh dim = Done n mesh' ->
  tsize mesh dim = 0 ->
  well_formed mesh ->
  tuples_ok mesh dim = true ->
  tuples_shared mesh dim = true ->
  exists counts,
    length counts = num_cells mesh' /\
    (forall c, c < num_cells mesh' ->
       count_entities mesh' (tdim mesh') c (cell_entities mesh' dim c) dim
         = Done (nth c counts 0) mesh') /\
    list_sum counts = n.
Proof.
  intros H Z W Tok Tsh. pose proof W as (C & _).
  destruct (compute_entities_fresh _ _ _ H Z) as (f & m1 & _ & A1 & A2 & E & -> & ->).
  pose proof (compute_connectivity_cell_cells_inv _ _ _ C E) as ->. clear E H.
  destruct (with_cell_cells_shape mesh) as (T & _ & Sz).
  set (m := with_cell_cells mesh) in *.
  set (s := synthesize m dim) in *.
  set (m' := store_entities m dim s).
  assert (D0 : dim <> 0) by (destruct C as (A & _); intros ->; lia).
  assert (DD : dim <> tdim mesh).
  { destruct C as (_ & A & _). unfold num_cells in A. intros ->. lia. }
  assert (T' : tdim m' = tdim m) by apply store_entities_tdim.
  assert (Nc : num_cells m' = num_cells m).
  { unfold num_cells. rewrite T'. apply store_entities_tsize_ne. congruence. }
  assert (Ecells : forall c, cell_entities m' dim c = cell_entities m dim c).
  { intros c. unfold cell_entities, entity_vertices, m'.
    rewrite store_entities_type, store_entities_tdim.
    rewrite store_entities_conn; [reflexivity| |]; intros X; inversion X; congruence. }
  assert (Ecount : forall c es a, count_new_entities m' (tdim m') c es a
                                  = count_new_entities m (tdim m) c es a).
  { intros c es a. apply count_new_entities_same; [exact T'| |];
      apply store_entities_conn; intros X; inversion X; congruence. }
  pose proof (synthesize_inv m dim) as I. fold s in I.
  pose proof (synthesize_count m dim (tuples_ok_with_cell_cells _ _ C Tok)
                (with_cell_cells_adjacent _ W)
                (tuples_shared_with_cell_cells _ _ C Tsh)) as Q.
  fold s in Q. unfold count_inv in Q. simpl in Q.
  exists (map (fun c => count_new_entities m (tdim m) c (cell_entities m dim c) 0)
              (seq 0 (num_cells m))).
  rewrite Nc. split; [now rewrite length_map, length_seq|]. split.
  - intros c Hc. unfold count_entities. rewrite Nat.eqb_refl. simpl.
    rewrite Ecells, Ecount. f_equal.
    rewrite (nth_indep _ 0 (count_new_entities m (tdim m) 0 (cell_entities m dim 0) 0))
      by (now rewrite length_map, length_seq).
    rewrite (map_nth (fun c => count_new_entities m (tdim m) c (cell_entities m dim c) 0)).
    now rewrite seq_nth.
  - rewrite <- (si_current I). rewrite Q. lia.
Qed.

Lemma count_entities_adds_up_to_the_entities_witness :
  exists counts,
    length counts = num_cells two_triangles_edges /\
    (forall c, c < num_cells two_triangles_edges ->
       count_entities two_triangles_edges (tdim two_triangles_edges) c
         (cell_entities two_triangles_edges 1 c) 1
         = Done (nth c counts 0) two_triangles_edges) /\
    list_sum counts = 5.
Proof.
  apply (count_entities_adds_up_to_the_entities 4 two_triangles 1 5 two_triangles_edges).
  - exact two_triangles_edges_computed.
  - reflexivity.
  - exact two_triangles_well_formed.
  - vm_compute. reflexivity.
  - vm_compute. reflexivity.
Defined.
(** ** The entities of a cell *)

(** X16: on a well-formed mesh whose cells have well-formed tuples and
    share them (a mesh of simplices), the row of a cell in the incidence
    [Conn[D][d]] that [compute_entities(d)] builds lists exactly the
    entities of dimension [d] that have all their vertices among the
    vertices of the cell. *)
Theorem compute_entities_lists_the_entities_within_a_cell
    (fuel : nat) (mesh : Mesh) (dim n : nat) (mesh' : Mesh) :
  compute_entities fuel mesh dim = Done n mesh' ->
  tsize mesh dim = 0 ->
  well_formed mesh ->
  tuples_ok mesh dim = true ->
  tuples_shared mesh dim = true ->
  forall c e, c < num_cells mesh -> e < n ->
    (In e (incident mesh' (tdim mesh) c dim) <->
     forall v, In v (entity_vertices mesh' dim e) ->
               In v (entity_vertices mesh (tdim mesh) c)).
Proof.
  intros H Z W Tok Tsh. pose proof W as (C & _).
  destruct (compute_entities_fresh _ _ _ H Z) as (f & m1 & _ & A1 & A2 & E & -> & ->).
  pose proof (compute_connectivity_cell_cells_inv _ _ _ C E) as ->. clear E H.
  destruct (with_cell_cells_shape mesh) as (T & _ & Sz).
  set (m := with_cell_cells mesh) in *.
  set (s := synthesize m dim) in *.
  assert (D0 : dim <> 0) by (destruct C as (A & _); intros ->; lia).
  assert (DD : dim <> tdim mesh).
  { destruct C as (_ & A & _). unfold num_cells in A. intros ->. lia. }
  assert (Ncells : num_cells m = num_cells mesh).
  { unfold num_cells. now rewrite T, Sz. }
  pose proof (tuples_ok_with_cell_cells _ _ C Tok) as Tok'.
  pose proof (tuples_shared_with_cell_cells _ _ C Tsh) as Tsh'.
  fold m in Tok', Tsh'.
  pose proof (synthesize_inv m dim) as I. fold s in I.
  pose proof (synthesize_distinct m dim Tok' (with_cell_cells_adjacent _ W)) as ND.
  fold s in ND.
  assert (Ev : forall c, entity_vertices mesh (tdim mesh) c
                         = entity_vertices m (tdim m) c).
  { intros c. rewrite T. symmetry. now apply with_cell_cells_vertices. }
  assert (Ece : conn (store_entities m dim s) (tdim mesh) dim = connectivity_ce s).
  { rewrite <- T. apply store_entities_ce. left. congruence. }
  intros c e Hc He. rewrite <- Ncells in Hc.
  unfold incident, entity_vertices at 1, MeshConnectivity.row.
  rewrite store_entities_ev, Ece, Ev.
  pose proof (si_rows_done I Hc) as Lrow.
  destruct (tuples_ok_cell _ _ _ Tok' Hc) as [_ Hok].
  split.
  - intros Hin v Hv. destruct (In_nth _ _ 0 Hin) as (k & Hk & Hnth).
    rewrite Lrow in Hk.
    destruct (@si_slot _ _ _ _ _ I c k (or_introl Hc) Hk) as [_ Hrow].
    rewrite Hnth in Hrow. rewrite Hrow in Hv. apply (proj1 (std_sort_In _ _)) in Hv.
    destruct (Hok _ (nth_In _ [] Hk)) as (_ & _ & Hin'). now apply Hin'.
  - intros Hsub. destruct (si_ev I He) as (c' & Hlist).
    destruct (si_list I _ _ _ Hlist) as (_ & _ & k' & V & Hk' & Ht).
    assert (Hc' : c' < num_cells m) by (destruct V as [V|[_ V]]; [exact V|lia]).
    assert (Hcon : contains (entity_vertices m (tdim m) c)
                            (nth k' (cell_entities m dim c') []) = true).
    { apply contains_spec. intros v Hv. apply Hsub. rewrite Ht. now apply std_sort_In. }
    destruct (tuples_shared_spec m dim c' c _ Tsh' Hc' (nth_In _ [] Hk') Hc Hcon)
      as (k & Hk & Ek).
    destruct (@si_slot _ _ _ _ _ I c k (or_introl Hc) Hk) as [Lk Hrow].
    assert (Eidx : nth k (nth c (connectivity_ce s) []) 0 = e).
    { apply (proj1 (NoDup_nth _ []) ND); auto. rewrite Hrow, Ek. now symmetry. }
    rewrite <- Eidx. apply nth_In. now rewrite Lrow.
Qed.

Lemma compute_entities_lists_the_entities_within_a_cell_witness :
  In 0 (incident two_triangles_edges (tdim two_triangles) 1 1) <->
  forall v, In v (entity_vertices two_triangles_edges 1 0) ->
            In v (entity_vertices two_triangles (tdim two_triangles) 1).
Proof.
  apply (compute_entities_lists_the_entities_within_a_cell
           4 two_triangles 1 5 two_triangles_edges).
  - exact two_triangles_edges_computed.
  - reflexivity.
  - exact two_triangles_well_formed.
  - vm_compute. reflexivity.
  - vm_compute. reflexivity.
  - vm_compute. lia.
  - lia.
Defined.

(** ** What is known of the mesh is never written again *)

Lemma keeps_known_refl (m : Mesh) : keeps_known m m.
Proof. repeat split; intros; reflexivity. Qed.

Lemma keeps_known_trans (m1 m2 m3 : Mesh) :
  keeps_known m1 m2 -> keeps_known m2 m3 -> keeps_known m1 m3.
Proof.
  intros (P1 & C1 & Ty1 & T1) (P2 & C2 & Ty2 & T2).
  split; [|split; [|split; congruence]].
  - intros a b P. rewrite P2; [now apply P1|]. now rewrite P1.
  - intros d H. rewrite C2; [now apply C1|]. now rewrite C1.
Qed.

(** Writing an incidence that was absent keeps what is known. *)
Lemma keeps_known_set_conn (m m1 : Mesh) (d0 d1 : nat) (c : MeshConnectivity.t) :
  MeshConnectivity.size (conn m d0 d1) = 0 ->
  keeps_known m m1 -> keeps_known m (set_conn m1 d0 d1 c).
Proof.
  intros A (P1 & C1 & Ty1 & T1). split; [|split; [|split]]; auto.
  intros a b P. rewrite conn_set_conn_ne; [now apply P1|].
  intros X. inversion X. subst. lia.
Qed.

(** Storing the entities of a dimension that had neither a count nor
    incidences keeps what is known. *)
Lemma keeps_known_store_entities (m m1 : Mesh) (dim : nat) (s : synthesis) :
  tsize m dim = 0 ->
  MeshConnectivity.size (conn m (tdim m) dim) = 0 ->
  MeshConnectivity.size (conn m dim 0) = 0 ->
  keeps_known m m1 -> keeps_known m (store_entities m1 dim s).
Proof.
  intros Z A1 A2 (P1 & C1 & Ty1 & T1). split; [|split; [|split]].
  - intros a b P. rewrite store_entities_conn; [now apply P1| |].
    + rewrite T1. intros X. inversion X. subst. lia.
    + intros X. inversion X. subst. lia.
  - intros d H. assert (d <> dim) by (intros ->; lia).
    rewrite store_entities_tsize_ne by assumption. now apply C1.
  - now rewrite store_entities_type.
  - now rewrite store_entities_tdim.
Qed.

Lemma outcome_keeps_known_trans {A : Type} (m m1 : Mesh) (r : outcome A) :
  keeps_known m m1 -> outcome_keeps_known m1 r -> outcome_keeps_known m r.
Proof.
  intros K. destruct r as [a m'|e m'|]; simpl; auto; now apply keeps_known_trans.
Qed.

Lemma outcome_keeps_known_bind {A B : Type} (m : Mesh) (r : outcome A)
    (k : A -> Mesh -> outcome B) :
  outcome_keeps_known m r ->
  (forall a m1, keeps_known m m1 -> outcome_keeps_known m (k a m1)) ->
  outcome_keeps_known m (bind r k).
Proof. destruct r as [a m1|e m1|]; simpl; auto. Qed.

Lemma outcome_keeps_known_assert (m m1 : Mesh) (b : bool) :
  keeps_known m m1 -> outcome_keeps_known m (dolfin_assert b m1).
Proof. destruct b; simpl; auto. Qed.

(** X17: whether it returns or stops with a fatal error, a call of
    [compute_connectivity] or [compute_entities] hands back a mesh in which
    what was known when it was called is exactly as it was: every incidence
    that was present (what a call writes are incidences that were absent),
    every entity count that was known, the cell type and the dimension. *)
Theorem calls_keep_what_is_known (fuel : nat) :
  (forall mesh d0 d1,
     outcome_keeps_known mesh (compute_connectivity fuel mesh d0 d1)) /\
  (forall mesh dim,
     outcome_keeps_known mesh (compute_entities fuel mesh dim)).
Proof.
  induction fuel as [|fuel [IHcc IHce]]; [split; intros; exact I|].
  assert (Hens : forall m m1 d, keeps_known m m1 ->
             outcome_keeps_known m (ensure_entities (compute_entities fuel) m1 d)).
  { intros m m1 d K. unfold ensure_entities.
    destruct (tsize m1 d =? 0); [|exact K].
    apply outcome_keeps_known_bind.
    - apply (outcome_keeps_known_trans m m1); [exact K|apply IHce].
    - intros _ m2 K2. exact K2. }
  split.
  - intros mesh d0 d1. rewrite compute_connectivity_S. unfold compute_connectivity_body.
    destruct (Nat.ltb_spec 0 (MeshConnectivity.size (conn mesh d0 d1))) as [P|A];
      [apply keeps_known_refl|].
    assert (A0 : MeshConnectivity.size (conn mesh d0 d1) = 0) by lia.
    apply outcome_keeps_known_bind; [apply Hens, keeps_known_refl|].
    intros _ m1 K1. apply outcome_keeps_known_bind; [now apply Hens|].
    intros _ m2 K2.
    destruct ((tsize m2 d0 =? 0) && (tsize m2 d1 =? 0)); [exact K2|].
    destruct (0 <? MeshConnectivity.size (conn m2 d0 d1)); [exact K2|].
    unfold dispatch. destruct (d0 <? d1).
    + apply outcome_keeps_known_bind.
      * apply (outcome_keeps_known_trans mesh m2); [exact K2|apply IHcc].
      * intros _ m3 K3. unfold compute_from_transpose.
        apply outcome_keeps_known_bind; [now apply outcome_keeps_known_assert|].
        intros _ m4 K4. simpl. now apply keeps_known_set_conn.
    + apply outcome_keeps_known_bind; [now apply outcome_keeps_known_assert|].
      intros _ m3 K3. apply outcome_keeps_known_bind.
      * apply (outcome_keeps_known_trans mesh m3); [exact K3|apply IHcc].
      * intros _ m4 K4. apply outcome_keeps_known_bind.
        -- apply (outcome_keeps_known_trans mesh m4); [exact K4|apply IHcc].
        -- intros _ m5 K5. unfold compute_from_intersection.
           apply outcome_keeps_known_bind; [now apply outcome_keeps_known_assert|].
           intros _ m6 K6.
           apply outcome_keeps_known_bind; [now apply outcome_keeps_known_assert|].
           intros _ m7 K7.
           apply outcome_keeps_known_bind; [now apply outcome_keeps_known_assert|].
           intros _ m8 K8. simpl. now apply keeps_known_set_conn.
  - intros mesh dim. rewrite compute_entities_S. unfold compute_entities_body.
    destruct (Nat.ltb_spec 0 (tsize mesh dim)) as [Z|Z].
    + destruct (_ || _); apply keeps_known_refl.
    + destruct (Nat.ltb_spec 0 (MeshConnectivity.size (conn mesh (tdim mesh) dim))) as [A1|A1];
        [apply keeps_known_refl|].
      destruct (Nat.ltb_spec 0 (MeshConnectivity.size (conn mesh dim 0))) as [A2|A2];
        [apply keeps_known_refl|].
      simpl. apply outcome_keeps_known_bind; [apply IHcc|].
      intros _ m1 K1. simpl. apply keeps_known_store_entities; auto; lia.
Qed.

(** ** What a computed incidence relates *)

(** X18: when [compute_connectivity(d0, d1)] computes an absent incidence
    from a lower to a higher dimension, both with counted entities, the
    mesh it leaves has the opposite incidence [(d1, d0)] too, and the two
    agree: [e1] is in the row of [e0] exactly when [e0] is in the row of
    [e1]; the rows of [(d0, d1)] are in ascending order. *)
Theorem compute_connectivity_upward_is_the_transpose
    (fuel : nat) (mesh : Mesh) (d0 d1 : nat) (mesh' : Mesh) :
  compute_connectivity fuel mesh d0 d1 = Done tt mesh' ->
  d0 < d1 ->
  0 < tsize mesh d0 -> 0 < tsize mesh d1 ->
  MeshConnectivity.size (conn mesh d0 d1) = 0 ->
  0 < MeshConnectivity.size (conn mesh' d1 d0) /\
  forall e0, e0 < tsize mesh' d0 ->
    StronglySorted le (incident mesh' d0 e0 d1) /\
    forall e1, In e1 (incident mesh' d0 e0 d1) <->
               e1 < tsize mesh' d1 /\ In e0 (incident mesh' d1 e1 d0).
Proof.
  intros H L N0 N1 A. destruct fuel as [|fuel]; [discriminate|].
  rewrite compute_connectivity_known in H by assumption.
  rewrite (ltb_0_false A) in H.
  destruct (dispatch_Done _ _ _ _ H) as [(_ & m3 & C1 & T)|(L' & _)]; [|lia].
  destruct (compute_from_transpose_Done _ _ _ T) as (P & ->).
  assert (E : conn (set_conn m3 d0 d1 (transpose_rows m3 d0 d1)) d1 d0 = conn m3 d1 d0).
  { apply conn_set_conn_ne. intros X. inversion X. lia. }
  rewrite E. split; [exact P|].
  intros e0 H0. change (e0 < tsize m3 d0) in H0.
  unfold incident. rewrite E, conn_set_conn_eq. split.
  - rewrite transpose_rows_row, sources_of_incidence_pairs.
    destruct (e0 <? tsize m3 d0); [|constructor].
    apply flat_map_repeat_nondecreasing.
  - intros e1. now apply transpose_rows_In.
Qed.

Lemma compute_connectivity_upward_is_the_transpose_witness :
  0 < MeshConnectivity.size (conn two_triangles_edge_cells 2 1) /\
  forall e0, e0 < tsize two_triangles_edge_cells 1 ->
    StronglySorted le (incident two_triangles_edge_cells 1 e0 2) /\
    forall e1, In e1 (incident two_triangles_edge_cells 1 e0 2) <->
               e1 < tsize two_triangles_edge_cells 2 /\
               In e0 (incident two_triangles_edge_cells 2 e1 1).
Proof.
  apply (compute_connectivity_upward_is_the_transpose
           2 two_triangles_edges 1 2 two_triangles_edge_cells).
  - vm_compute. reflexivity.
  - lia.
  - vm_compute. lia.
  - vm_compute. lia.
  - vm_compute. reflexivity.
Defined.

(** X19: when [compute_connectivity(d0, d1)] computes an absent incidence
    with [0 < d1 <= d0], both dimensions with counted entities, it goes
    through the vertices: in the mesh it leaves, the row of [e0] lists, each
    once, the entities [e1] that are incident to a vertex of [e0] and, when
    [d0 = d1], differ from [e0], or, when [d1 < d0], have all their vertices
    among those of [e0]. *)
Theorem compute_connectivity_downward_goes_through_the_vertices
    (fuel : nat) (mesh : Mesh) (d0 d1 : nat) (mesh' : Mesh) :
  compute_connectivity fuel mesh d0 d1 = Done tt mesh' ->
  0 < d1 -> d1 <= d0 ->
  0 < tsize mesh d0 -> 0 < tsize mesh d1 ->
  MeshConnectivity.size (conn mesh d0 d1) = 0 ->
  forall e0, e0 < tsize mesh' d0 ->
    NoDup (incident mesh' d0 e0 d1) /\
    forall e1, In e1 (incident mesh' d0 e0 d1) <->
      (exists v, In v (entity_vertices mesh' d0 e0) /\ In e1 (incident mesh' 0 v d1)) /\
      (d0 = d1 -> e1 <> e0) /\
      (d1 < d0 -> forall v, In v (entity_vertices mesh' d1 e1) ->
                            In v (entity_vertices mesh' d0 e0)).
Proof.
  intros H L1 L N0 N1 A e0 H0. destruct fuel as [|fuel]; [discriminate|].
  rewrite compute_connectivity_known in H by assumption.
  rewrite (ltb_0_false A) in H.
  destruct (dispatch_Done _ _ _ _ H) as [(L' & _)|(_ & _ & m3 & m4 & _ & _ & I)]; [lia|].
  assert (Ed : intermediate mesh d0 d1 = 0).
  { unfold intermediate. replace (d1 =? 0) with false by (symmetry; apply Nat.eqb_neq; lia).
    now rewrite andb_false_r. }
  rewrite Ed in I.
  destruct (compute_from_intersection_Done _ _ _ _ I) as (_ & _ & _ & ->).
  set (m' := set_conn m4 d0 d1 (intersection_rows m4 d0 d1 0)) in *.
  assert (E0 : forall e, entity_vertices m' d0 e = entity_vertices m4 d0 e).
  { intros e. unfold entity_vertices, m'. rewrite conn_set_conn_ne; [reflexivity|].
    intros X. inversion X. lia. }
  assert (E1 : forall e, entity_vertices m' d1 e = entity_vertices m4 d1 e).
  { intros e. unfold entity_vertices, m'. rewrite conn_set_conn_ne; [reflexivity|].
    intros X. inversion X. lia. }
  assert (Ev : forall v, incident m' 0 v d1 = incident m4 0 v d1).
  { intros v. unfold incident, m'. rewrite conn_set_conn_ne; [reflexivity|].
    intros X. inversion X. lia. }
  change (e0 < tsize m4 d0) in H0.
  unfold incident at 1 2. unfold m' at 1 2. rewrite conn_set_conn_eq.
  destruct (intersection_rows_In m4 d0 d1 0 e0 H0) as [ND M].
  split; [exact ND|]. intros e1. rewrite M. clear M ND.
  unfold candidates. rewrite in_flat_map.
  assert (Acc : accepted_candidate m4 d0 d1 e0 e1 = true <->
                (d0 = d1 -> e1 <> e0) /\
                (d1 < d0 -> forall v, In v (entity_vertices m' d1 e1) ->
                                      In v (entity_vertices m' d0 e0))).
  { unfold accepted_candidate. destruct (Nat.eqb_spec d0 d1) as [Eq|Ne].
    - rewrite negb_true_iff, Nat.eqb_neq. split.
      + intros Hne. split; [intros _; congruence|intros X; lia].
      + intros [Hne _]. specialize (Hne Eq). congruence.
    - unfold contains_entity. rewrite contains_spec, E0, E1. split.
      + intros Hc. split; [intros X; contradiction|intros _; exact Hc].
      + intros [_ Hc]. apply Hc. lia. }
  rewrite Acc. split.
  - intros [(v & Hv & Hin) Hacc]. split; [|exact Hacc].
    exists v. rewrite E0, Ev. split; assumption.
  - intros [(v & Hv & Hin) Hacc]. split; [|exact Hacc].
    exists v. rewrite E0 in Hv. rewrite Ev in Hin. split; assumption.
Qed.

Lemma compute_connectivity_downward_goes_through_the_vertices_witness :
  NoDup (incident two_triangles_edge_edges 1 0 1) /\
  forall e1, In e1 (incident two_triangles_edge_edges 1 0 1) <->
    (exists v, In v (entity_vertices two_triangles_edge_edges 1 0) /\
               In e1 (incident two_triangles_edge_edges 0 v 1)) /\
    (1 = 1 -> e1 <> 0) /\
    (1 < 1 -> forall v, In v (entity_vertices two_triangles_edge_edges 1 e1) ->
                        In v (entity_vertices two_triangles_edge_edges 1 0)).
Proof.
  apply (compute_connectivity_downward_goes_through_the_vertices
           3 two_triangles_edges 1 1 two_triangles_edge_edges).
  - vm_compute. reflexivity.
  - lia.
  - lia.
  - vm_compute. lia.
  - vm_compute. lia.
  - vm_compute. reflexivity.
  - vm_compute. lia.
Defined.
